(** * Geometry-dash player physics: [fixedPhysics], [updateCollisions] and
      [update]

    A shallow embedding of [src/script.js] (the [MODES] table, the second
    [Player] class: [fixedPhysics], [updateCollisions], [getHitbox], and the
    [update] of the first [Player] class), the properties of the player
    update that the specification states, and further properties of the
    code.

    JavaScript numbers are IEEE 754 binary64 values; they are modelled by
    Rocq's primitive floats, which are the same format with the same
    round-to-nearest-even arithmetic, so that every expression of the source
    evaluates here to the very number it evaluates to in the program. *)

From Stdlib Require Import Floats ZArith Bool Lia.
From stdpp Require Import base option list gmap strings.

Set Warnings "-inexact-float".
Local Open Scope string_scope.

(** ** JavaScript numbers *)

Module JS.
Local Open Scope float_scope.

(** [ToNumber(undefined)] is NaN: a property that an object does not have
    reads as [undefined], and every use of such a read in the source is an
    arithmetic one. *)
Definition ToNumber (v : option float) : float :=
  match v with Some f => f | None => nan end.

(** [a > b] *)
Definition gt (a b : float) : bool := b <? a.

(** [Math.min] and [Math.max]: NaN if an argument is NaN, and [-0] is smaller
    than [+0]. *)
Definition is_neg_zero (a : float) : bool :=
  match classify a with NZero => true | _ => false end.

Definition Math_min (a b : float) : float :=
  if is_nan a || is_nan b then nan
  else if a <? b then a
  else if b <? a then b
  else if is_neg_zero a then a else b.

Definition Math_max (a b : float) : float :=
  if is_nan a || is_nan b then nan
  else if a <? b then b
  else if b <? a then a
  else if is_neg_zero a then b else a.

Definition Math_abs (a : float) : float := abs a.

(** [Math.PI] *)
Definition Math_PI : float := 3.141592653589793.

(** The remainder operator [a % b] on numbers: the exact value
    [a - b * trunc(a / b)], with the sign of the dividend [a]. Both operands
    are written over the common exponent [e]; the remainder of the integer
    mantissas is below the divisor's, hence a binary64 value, and
    [binary_normalize] converts it without rounding. *)
Definition rem (a b : float) : float :=
  match Prim2SF a, Prim2SF b with
  | S754_nan, _ | _, S754_nan => nan
  | S754_infinity _, _ => nan
  | _, S754_zero _ => nan
  | _, S754_infinity _ => a
  | S754_zero _, _ => a
  | S754_finite sa ma ea, S754_finite _ mb eb =>
      let e := Z.min ea eb in
      let na := (Z.pos ma * 2 ^ (ea - e))%Z in
      let nb := (Z.pos mb * 2 ^ (eb - e))%Z in
      let r := (na mod nb)%Z in
      SF2Prim (binary_normalize prec emax (if sa then (- r)%Z else r) e sa)
  end.

(** [ToNumber] of a boolean, as in [isHolding * 0.1]. *)
Definition ToNumber_bool (b : bool) : float := if b then 1 else 0.

(** [ToBoolean] of a number: [+0], [-0] and NaN are falsy. *)
Definition ToBoolean (a : float) : bool := negb (is_nan a || (a =? 0)).

(** [a || b] on numbers. *)
Definition logical_or (a b : float) : float := if ToBoolean a then a else b.

(** The number of an array index or of a length. *)
Definition of_nat (n : nat) : float := of_uint63 (Uint63.of_Z (Z.of_nat n)).

End JS.

(** ** The mode table *)

(** An object literal: its properties in the order of the source. *)
Definition object (A : Type) : Type := list (string * A).

(** [o[k]] over the own properties of [o]; [None] is [undefined]. *)
Fixpoint own_property {A : Type} (o : object A) (k : string) : option A :=
  match o with
  | [] => None
  | (k', v) :: rest => if String.eqb k k' then Some v else own_property rest k
  end.

(** An entry of [MODES] is an object literal whose properties are numbers;
    each mode has its own set of properties. *)
Definition ModeEntry : Type := object float.

(** [modeData.k]: the property [k] of an entry, as the number the arithmetic of
    the source sees ([NaN] when the entry has no property [k]). *)
Definition prop (m : ModeEntry) (k : string) : float :=
  JS.ToNumber (own_property m k).

Module Import Table.
Local Open Scope float_scope.

Definition PHYSICS_FPS : float := 60.
Definition FIXED_DT : float := 1 / PHYSICS_FPS.

Definition cube : ModeEntry :=
  [("vx", 14.0); ("gravity", 0.50); ("miniGravity", 0.413); ("jump", 12.0);
   ("miniJump", 9.58); ("rotGround", 4.5); ("rotAir", 3.0)].

Definition ship : ModeEntry :=
  [("vx", 14.0 * (12.5 / 10.376)); ("gravity", 0.25); ("thrustHold", 1.15);
   ("thrustNoHold", 0.20); ("tiltMult", 0.12)].

Definition ball : ModeEntry :=
  [("vx", 14.0); ("gravity", 0.55); ("rotSpeed", 8.0)].

Definition ufo : ModeEntry :=
  [("vx", 14.0); ("gravity", 0.40); ("miniGravity", 0.33); ("jump", 6.60);
   ("miniJump", 5.28); ("vyClamp", 8.0)].

Definition wave : ModeEntry :=
  [("vx", 16.0); ("ampHold", -1.35 * 60 * FIXED_DT); ("ampNoHold", 1.35);
   ("trailLen", 5)].

Definition robot : ModeEntry :=
  [("vx", 14.0); ("gravity", 0.84); ("miniGravity", 0.69); ("jumpBase", 10.34);
   ("jumpMax", 16.0); ("holdScale", 1.55)].

Definition spider : ModeEntry :=
  [("vx", 14.0); ("gravity", 0.0); ("jump", 11.5); ("decay", 0.92)].

Definition swing : ModeEntry :=
  [("vx", 14.0 * 1.15); ("gravity", 0.40); ("thrustHold", 1.00);
   ("thrustNoHold", 0.40); ("tiltMult", 0.15)].

Definition MODES : object ModeEntry :=
  [("cube", cube); ("ship", ship); ("ball", ball); ("ufo", ufo);
   ("wave", wave); ("robot", robot); ("spider", spider); ("swing", swing)].

End Table.

(** The eight mode identifiers. *)
Definition mode_names : list string :=
  ["cube"; "ship"; "ball"; "ufo"; "wave"; "robot"; "spider"; "swing"].

(** [MODES] is a plain object, so [MODES[k]] also finds the members that every
    object inherits from [Object.prototype]. Such a member is a function (or,
    for [__proto__], the prototype object): it is not [undefined], and none of
    the properties that [fixedPhysics] reads is defined on it. *)
Definition Object_prototype_names : list string :=
  ["constructor"; "__defineGetter__"; "__defineSetter__"; "hasOwnProperty";
   "__lookupGetter__"; "__lookupSetter__"; "isPrototypeOf";
   "propertyIsEnumerable"; "toString"; "valueOf"; "__proto__";
   "toLocaleString"].

Definition inherited_member : ModeEntry := [].

(** [MODES[k]]: [None] is [undefined]. The lookup itself never throws. *)
Definition MODES_get (k : string) : option ModeEntry :=
  match own_property MODES k with
  | Some m => Some m
  | None =>
      if existsb (String.eqb k) Object_prototype_names
      then Some inherited_member
      else None
  end.

(** ** State *)

(** An axis-aligned box [{x, y, w, h}], as [getHitbox] builds it. *)
Module Rect.
Record t := mk { x : float; y : float; w : float; h : float }.
End Rect.

(** A collidable of the level: its [type] tag and its box. *)
Module Obj.
Record t := mk { type : string; x : float; y : float; w : float; h : float }.
End Obj.

(** A sample of the trail: [{x, y, rot}]. *)
Module Sample.
Record t := mk { x : float; y : float; rot : float }.
End Sample.

(** A particle request: [game.addParticle(x, y, kind, count)]. *)
Module Particle.
Record t := mk { x : float; y : float; kind : string; count : float }.
End Particle.

(** The fields of [this] that [fixedPhysics] and [updateCollisions] use. *)
Record Player := mkPlayer {
  x : float;
  y : float;
  vx : float;
  vy : float;
  rotation : float;
  mode : string;
  mini : bool;
  mirror : bool;
  flipY : float;
  isOnGround : bool;
  lastInput : bool;
  holdTime : float;
  time : float;
  trail : list Sample.t
}.

(** The fields of the global [game] that the player update uses: the set of
    pressed keys, the speed multiplier, the spatial index (its [query]) and the
    particles requested so far. *)
Record Game := mkGame {
  keys : gset string;
  speedMult : float;
  quadTree : Rect.t -> list Obj.t;
  particles : list Particle.t
}.

Record World := mkWorld { player : Player; game : Game }.

Definition set_x (v : float) (p : Player) : Player :=
  mkPlayer v (y p) (vx p) (vy p) (rotation p) (mode p) (mini p) (mirror p)
    (flipY p) (isOnGround p) (lastInput p) (holdTime p) (time p) (trail p).
Definition set_y (v : float) (p : Player) : Player :=
  mkPlayer (x p) v (vx p) (vy p) (rotation p) (mode p) (mini p) (mirror p)
    (flipY p) (isOnGround p) (lastInput p) (holdTime p) (time p) (trail p).
Definition set_vx (v : float) (p : Player) : Player :=
  mkPlayer (x p) (y p) v (vy p) (rotation p) (mode p) (mini p) (mirror p)
    (flipY p) (isOnGround p) (lastInput p) (holdTime p) (time p) (trail p).
Definition set_vy (v : float) (p : Player) : Player :=
  mkPlayer (x p) (y p) (vx p) v (rotation p) (mode p) (mini p) (mirror p)
    (flipY p) (isOnGround p) (lastInput p) (holdTime p) (time p) (trail p).
Definition set_rotation (v : float) (p : Player) : Player :=
  mkPlayer (x p) (y p) (vx p) (vy p) v (mode p) (mini p) (mirror p)
    (flipY p) (isOnGround p) (lastInput p) (holdTime p) (time p) (trail p).
Definition set_flipY (v : float) (p : Player) : Player :=
  mkPlayer (x p) (y p) (vx p) (vy p) (rotation p) (mode p) (mini p) (mirror p)
    v (isOnGround p) (lastInput p) (holdTime p) (time p) (trail p).
Definition set_isOnGround (v : bool) (p : Player) : Player :=
  mkPlayer (x p) (y p) (vx p) (vy p) (rotation p) (mode p) (mini p) (mirror p)
    (flipY p) v (lastInput p) (holdTime p) (time p) (trail p).
Definition set_lastInput (v : bool) (p : Player) : Player :=
  mkPlayer (x p) (y p) (vx p) (vy p) (rotation p) (mode p) (mini p) (mirror p)
    (flipY p) (isOnGround p) v (holdTime p) (time p) (trail p).
Definition set_holdTime (v : float) (p : Player) : Player :=
  mkPlayer (x p) (y p) (vx p) (vy p) (rotation p) (mode p) (mini p) (mirror p)
    (flipY p) (isOnGround p) (lastInput p) v (time p) (trail p).
Definition set_trail (v : list Sample.t) (p : Player) : Player :=
  mkPlayer (x p) (y p) (vx p) (vy p) (rotation p) (mode p) (mini p) (mirror p)
    (flipY p) (isOnGround p) (lastInput p) (holdTime p) (time p) v.

Definition set_player (p : Player) (w : World) : World := mkWorld p (game w).

(** [game.addParticle(x, y, kind, count)] hands a particle to the renderer;
    the request is recorded in [particles]. *)
Definition addParticle (px py : float) (kind : string) (count : float)
    (g : Game) : Game :=
  mkGame (keys g) (speedMult g) (quadTree g)
    (particles g ++ [Particle.mk px py kind count]).

(** How a call ends: normally with a value, or by throwing an error, which is
    identified by its [name]. *)
Inductive completion (A : Type) : Type :=
  | Normal (a : A)
  | Throw (name : string).
Arguments Normal {A} a.
Arguments Throw {A} name.

(** ** What the source leaves to its host

    The bodies of [collides] and [interact] are elided in the source
    ([/* AABB standard */], and a list of intentions in comments), and
    [Math.sin] and [Math.atan2] are the engine's (ECMAScript leaves their
    last digits to the implementation). The player update is written over
    any implementation of them. *)
Class Host := {
  collides : Rect.t -> Obj.t -> bool;
  interact : World -> Obj.t -> World;
  Math_sin : float -> float;
  Math_atan2 : float -> float -> float
}.

(** ** The player update *)

Section Update.
Context `{Host}.
Local Open Scope float_scope.

(** [getHitbox()] *)
Definition getHitbox (this : Player) : Rect.t :=
  let size := if mini this then 7.5 else 15.0 in
  Rect.mk (x this - size / 2)
          (y this - size / 2 + (if String.eqb (mode this) "cube" then 2 else 0))
          size size.

(** The first loop of [updateCollisions]: one candidate of the X slide. *)
Definition slideX (hb : Rect.t) (this : Player) (obj : Obj.t) : Player :=
  if negb (String.eqb (Obj.type obj) "block") then this
  else if collides (Rect.mk (x this) (Rect.y hb) (Rect.w hb) (Rect.h hb)) obj
  then set_x (if JS.gt (vx this) 0 then Obj.x obj - Rect.w hb
              else Obj.x obj + Obj.w obj) this
  else this.

Definition slideX_all (hb : Rect.t) (candidates : list Obj.t) (this : Player)
    : Player :=
  fold_left (slideX hb) candidates this.

(** The second loop: the first colliding block resolves Y and ends the loop
    ([break]). *)
Fixpoint resolveY (hb : Rect.t) (candidates : list Obj.t) (this : Player)
    : Player :=
  match candidates with
  | [] => this
  | obj :: rest =>
      if negb (String.eqb (Obj.type obj) "block") then resolveY hb rest this
      else if collides (Rect.mk (x this) (y this) (Rect.w hb) (Rect.h hb)) obj
      then
        if JS.gt (vy this) 0
        then set_isOnGround true
               (set_vy 0 (set_y (Obj.y obj - Rect.h hb) this))
        else set_vy 0 (set_y (Obj.y obj + Obj.h obj) this)
      else resolveY hb rest this
  end.

(** The third loop: every candidate that overlaps the hitbox taken on entry
    is handed to [interact]. *)
Definition interactOne (hb : Rect.t) (w : World) (obj : Obj.t) : World :=
  if collides hb obj then interact w obj else w.

Definition interact_all (hb : Rect.t) (candidates : list Obj.t) (w : World)
    : World :=
  fold_left (interactOne hb) candidates w.

(** [updateCollisions(dt)] *)
Definition updateCollisions (dt : float) (w : World) : World :=
  let hb := getHitbox (player w) in
  let candidates := quadTree (game w) hb in
  let this := slideX_all hb candidates (player w) in
  let this := resolveY hb candidates this in
  interact_all hb candidates (set_player this w).

(** The [switch (this.mode)] of [fixedPhysics]. No [case] matches a mode
    that is not one of the eight. *)
Definition modeSwitch (dt : float) (modeData : ModeEntry) (miniFactorJ : float)
    (justPressed holding : bool) (w : World) : World :=
  let this := player w in
  let m := mode this in
  if String.eqb m "cube" then
    let w :=
      if justPressed && isOnGround this
      then mkWorld (set_vy (- prop modeData "jump" * miniFactorJ * flipY this) this)
                   (addParticle (x this) (y this + 15) "dust" 8 (game w))
      else w in
    let this := player w in
    let rotBase :=
      (if isOnGround this then prop modeData "rotGround" else prop modeData "rotAir")
      * (vx this / 14) in
    set_player (set_rotation (rotation this + rotBase * dt * 60) this) w
  else if String.eqb m "ship" || String.eqb m "swing" then
    let thrust :=
      if holding then - prop modeData "thrustHold" else prop modeData "thrustNoHold" in
    let this := set_vy (vy this + thrust * speedMult (game w) * dt) this in
    set_player
      (set_rotation
         (Math_atan2 (- vy this) (JS.Math_abs (vx this)) / JS.Math_PI * 180
          * (if String.eqb m "ship" then 0.12 else 0.15)) this) w
  else if String.eqb m "ball" then
    let this := if justPressed then set_flipY (flipY this * -1) this else this in
    set_player
      (set_rotation (rotation this + prop modeData "rotSpeed" * dt * 60) this) w
  else if String.eqb m "ufo" then
    let this :=
      if justPressed
      then set_vy (- prop modeData "jump" * miniFactorJ * flipY this) this
      else this in
    let this :=
      set_vy (JS.Math_max (- prop modeData "vyClamp" * speedMult (game w))
                (JS.Math_min (prop modeData "vyClamp" * speedMult (game w))
                   (vy this))) this in
    set_player
      (set_rotation (rotation this + Math_sin (time this * 10) * 30 * dt) this)
      w
  else if String.eqb m "wave" then
    let this :=
      set_vy (flipY this
              * (if holding then - prop modeData "ampHold"
                 else prop modeData "ampNoHold")
              * speedMult (game w)) this in
    set_player
      (set_rotation (Math_atan2 (vy this) (vx this) * 180 / JS.Math_PI + 90) this)
      w
  else if String.eqb m "robot" then
    if justPressed && isOnGround this then
      let holdJump :=
        JS.Math_min (holdTime this) 20 / 20
        * (prop modeData "jumpMax" - prop modeData "jumpBase") + prop modeData "jumpBase" in
      set_player (set_vy (- holdJump * miniFactorJ * flipY this) this) w
    else w
  else if String.eqb m "spider" then
    if justPressed then
      let this := set_flipY (flipY this * -1) this in
      set_player (set_vy (- prop modeData "jump" * flipY this) this) w
    else set_player (set_vy (vy this * prop modeData "decay") this) w
  else w.

(** The constants that [fixedPhysics] computes on entry. *)
Definition miniFactorG (modeData : ModeEntry) (this : Player) : float :=
  if mini this then prop modeData "miniGravity" / prop modeData "gravity"
  else 1.0.

Definition miniFactorJ (modeData : ModeEntry) (this : Player) : float :=
  if mini this then prop modeData "miniJump" / prop modeData "jump" else 1.0.

Definition gravity (modeData : ModeEntry) (this : Player) : float :=
  prop modeData "gravity" * miniFactorG modeData this.

(** [game.keys.has('Space') || game.keys.has('ArrowUp')] *)
Definition inputNow (g : Game) : bool :=
  bool_decide ("Space" ∈ keys g) || bool_decide ("ArrowUp" ∈ keys g).

(** Input edge + hold: [lastInput] and [holdTime]. *)
Definition sampleInput (frameDt : float) (holding : bool) (this : Player)
    : Player :=
  let this := set_lastInput holding this in
  if holding then set_holdTime (holdTime this + frameDt) this
  else set_holdTime 0 this.

(** X movement (always). *)
Definition moveX (dt : float) (modeData : ModeEntry) (speed : float)
    (this : Player) : Player :=
  let this :=
    set_vx (prop modeData "vx" * speed * (if mirror this then -1 else 1)) this in
  set_x (x this + vx this * dt) this.

(** Y gravity: [this.vy += g * this.flipY * dt]. *)
Definition applyGravity (dt g : float) (this : Player) : Player :=
  set_vy (vy this + g * flipY this * dt) this.

(** Integrate Y: [this.y += this.vy * dt]. *)
Definition integrateY (dt : float) (this : Player) : Player :=
  set_y (y this + vy this * dt) this.

(** The rising edge of the input: [inputNow && !this.lastInput]. *)
Definition justPressed (w : World) : bool :=
  inputNow (game w) && negb (lastInput (player w)).

(** [fixedPhysics] up to the [switch]: input sampled, X moved, gravity
    applied, for the entry [modeData] that [MODES[this.mode]] gave. *)
Definition beforeSwitch (dt : float) (modeData : ModeEntry) (w : World)
    : World :=
  let frameDt := 60 * dt in
  let g := gravity modeData (player w) in
  let holding := inputNow (game w) in
  let this := sampleInput frameDt holding (player w) in
  let this := moveX dt modeData (speedMult (game w)) this in
  let this := applyGravity dt g this in
  set_player this w.

(** [fixedPhysics] up to the end of the [switch]. The constants
    [miniFactorJ], [justPressed] and [holding] are those computed on entry. *)
Definition afterSwitch (dt : float) (modeData : ModeEntry) (w : World)
    : World :=
  modeSwitch dt modeData (miniFactorJ modeData (player w)) (justPressed w)
    (inputNow (game w)) (beforeSwitch dt modeData w).

(** [fixedPhysics] up to and including [this.y += this.vy * dt]. *)
Definition integrate (dt : float) (modeData : ModeEntry) (w : World) : World :=
  let w := afterSwitch dt modeData w in
  set_player (integrateY dt (player w)) w.

(** The post-collision step: the rotation of the cube is reduced by [% 360]. *)
Definition postCollision (this : Player) : Player :=
  if String.eqb (mode this) "cube"
  then set_rotation (JS.rem (rotation this) 360) this
  else this.

(** The trail update: [shift()] drops the element at index 0 (nothing when the
    array is empty), [push] appends at the end. *)
Definition trailUpdate (this : Player) : Player :=
  set_trail (tail (trail this)
             ++ [Sample.mk (x this) (y this) (rotation this)]) this.

(** [fixedPhysics(dt)]. When [MODES[this.mode]] is [undefined], reading
    [mode.miniGravity] (or, for a player that is not mini, [mode.gravity])
    throws a [TypeError] before anything is assigned. *)
Definition fixedPhysics (dt : float) (w : World) : completion World :=
  match MODES_get (mode (player w)) with
  | None => Throw "TypeError"
  | Some modeData =>
      let w := integrate dt modeData w in
      let w := updateCollisions dt w in
      let this := postCollision (player w) in
      let this := trailUpdate this in
      Normal (set_player this w)
  end.

(** The session loop: before each tick the host updates [game.keys] and
    [game.speedMult]; a tick that throws ends the run. *)
Record Frame := mkFrame { frame_keys : gset string; frame_speedMult : float }.

Definition set_frame (f : Frame) (w : World) : World :=
  mkWorld (player w)
    (mkGame (frame_keys f) (frame_speedMult f) (quadTree (game w))
       (particles (game w))).

Fixpoint run (dt : float) (frames : list Frame) (w : World)
    : completion World :=
  match frames with
  | [] => Normal w
  | f :: rest =>
      match fixedPhysics dt (set_frame f w) with
      | Normal w' => run dt rest w'
      | Throw e => Throw e
      end
  end.

End Update.

(** ** A concrete host

    A host on which closed examples can run: an overlap test for [collides],
    an [interact] that does what the body in the source does (nothing: it
    holds comments only), and stand-ins for the engine's [Math.sin] and
    [Math.atan2]. The theorems on the player update are stated for every
    host; no statement depends on the values of the two stand-ins. *)
Module Standard.
Local Open Scope float_scope.

(** Modelled from the spec: the body of [collides], which the source does
    not give ([collides(a, b) { /* AABB standard */ }]: as written the
    method returns [undefined], and no box ever collides). The spec has the
    passes "test AABB overlap" of two axis-aligned boxes, the core doing
    "its own exact overlap test": two boxes overlap when, on each axis, each
    of them begins before the other one ends. *)
Definition aabb (a : Rect.t) (b : Obj.t) : bool :=
  (Rect.x a <? Obj.x b + Obj.w b) && (Obj.x b <? Rect.x a + Rect.w a)
  && (Rect.y a <? Obj.y b + Obj.h b) && (Obj.y b <? Rect.y a + Rect.h a).

Definition PI : float := JS.Math_PI.

(** A stand-in for the engine's [Math.sin]: a polynomial approximation,
    which can differ from an engine's result in the last digits.
    [sum_{k<n} (-1)^k t^(2k+1) / ((2k+1)!)], by Horner's rule on [t^2]. *)
Fixpoint sin_series (n : nat) (k : float) (t2 : float) : float :=
  match n with
  | O => 1
  | S n' => 1 - t2 / ((2 * k) * (2 * k + 1)) * sin_series n' (k + 1) t2
  end.

Definition sin (a : float) : float :=
  let r := JS.rem a (2 * PI) in
  let r := if PI <? r then r - 2 * PI
           else if r <? - PI then r + 2 * PI else r in
  r * sin_series 12 1 (r * r).

(** [sum_{k<n} (-1)^k t^(2k+1) / (2k+1)], for a small [t]. *)
Fixpoint atan_series (n : nat) (k : float) (t2 : float) : float :=
  match n with
  | O => 1 / (2 * k + 1)
  | S n' => 1 / (2 * k + 1) - t2 * atan_series n' (k + 1) t2
  end.

Definition halve_angle (t : float) : float := t / (1 + sqrt (1 + t * t)).

Definition atan_unit (t : float) : float :=
  let u := halve_angle (halve_angle t) in
  4 * (u * atan_series 12 0 (u * u)).

Definition atan (t : float) : float :=
  if 1 <? abs t
  then (if 0 <? t then PI / 2 else - (PI / 2)) - atan_unit (1 / t)
  else atan_unit t.

(** The sign of a number that is not NaN: [-0] counts as negative. *)
Definition negative (a : float) : bool := (a <? 0) || JS.is_neg_zero a.

Definition signed_by (b q : float) : float := if negative b then - q else q.

(** A stand-in for the engine's [Math.atan2(b, a)]: the quadrants, the
    zeros and the infinities as ECMAScript fixes them, and an approximation
    of the arc tangent elsewhere. *)
Definition atan2 (b a : float) : float :=
  if is_nan a || is_nan b then nan
  else if is_infinity b then
    signed_by b (if is_infinity a
                 then (if negative a then 3 * PI / 4 else PI / 4)
                 else PI / 2)
  else if is_infinity a then signed_by b (if negative a then PI else 0)
  else if a =? 0 then
    if b =? 0 then signed_by b (if negative a then PI else 0)
    else signed_by b (PI / 2)
  else if 0 <? a then atan (b / a)
  else if negative b then atan (b / a) - PI else atan (b / a) + PI.

#[export] Instance host : Host := {|
  collides := aabb;
  interact := fun w _ => w;
  Math_sin := sin;
  Math_atan2 := atan2
|}.

End Standard.

(** ** The first [Player] class: [update]

    [update(dt)] is the per-frame update of the first [Player] class of the
    source. It reads the same [MODES] table, under property names of its own
    ([baseSpeed], [thrust], [fallThrust], [vyLimit], [thrustUp], [thrustDown],
    [rotSpeedGround], [rotSpeedAir]), and keeps its state in the fields
    [flip], [onGround] and [rot]. *)

Module Legacy.
Local Open Scope float_scope.

(** A sample of the trail: [{x, y, alpha}]. *)
Module Sample.
Record t := mk { x : float; y : float; alpha : float }.
End Sample.

(** A particle request: [game.addParticle(x, y, kind)]. *)
Module Particle.
Record t := mk { x : float; y : float; kind : string }.
End Particle.

(** The fields of [this] that [update] uses. *)
Record Player := mkPlayer {
  x : float;
  y : float;
  vx : float;
  vy : float;
  rot : float;
  mode : string;
  mini : bool;
  mirror : bool;
  flip : float;
  onGround : bool;
  lastInput : bool;
  trail : list Sample.t
}.

(** The fields of the global [game] that [update] uses. The spatial index is
    optional ([game.quadTree ? ... : game.level.objects]). *)
Record Game := mkGame {
  keys : gset string;
  speedMult : float;
  quadTree : option (Rect.t -> list Obj.t);
  level_objects : list Obj.t;
  particles : list Particle.t
}.

Record World := mkWorld { player : Player; game : Game }.

Definition set_x (v : float) (p : Player) : Player :=
  mkPlayer v (y p) (vx p) (vy p) (rot p) (mode p) (mini p) (mirror p)
    (flip p) (onGround p) (lastInput p) (trail p).
Definition set_y (v : float) (p : Player) : Player :=
  mkPlayer (x p) v (vx p) (vy p) (rot p) (mode p) (mini p) (mirror p)
    (flip p) (onGround p) (lastInput p) (trail p).
Definition set_vx (v : float) (p : Player) : Player :=
  mkPlayer (x p) (y p) v (vy p) (rot p) (mode p) (mini p) (mirror p)
    (flip p) (onGround p) (lastInput p) (trail p).
Definition set_vy (v : float) (p : Player) : Player :=
  mkPlayer (x p) (y p) (vx p) v (rot p) (mode p) (mini p) (mirror p)
    (flip p) (onGround p) (lastInput p) (trail p).
Definition set_rot (v : float) (p : Player) : Player :=
  mkPlayer (x p) (y p) (vx p) (vy p) v (mode p) (mini p) (mirror p)
    (flip p) (onGround p) (lastInput p) (trail p).
Definition set_flip (v : float) (p : Player) : Player :=
  mkPlayer (x p) (y p) (vx p) (vy p) (rot p) (mode p) (mini p) (mirror p)
    v (onGround p) (lastInput p) (trail p).
Definition set_onGround (v : bool) (p : Player) : Player :=
  mkPlayer (x p) (y p) (vx p) (vy p) (rot p) (mode p) (mini p) (mirror p)
    (flip p) v (lastInput p) (trail p).
Definition set_lastInput (v : bool) (p : Player) : Player :=
  mkPlayer (x p) (y p) (vx p) (vy p) (rot p) (mode p) (mini p) (mirror p)
    (flip p) (onGround p) v (trail p).
Definition set_trail (v : list Sample.t) (p : Player) : Player :=
  mkPlayer (x p) (y p) (vx p) (vy p) (rot p) (mode p) (mini p) (mirror p)
    (flip p) (onGround p) (lastInput p) v.

Definition set_player (p : Player) (w : World) : World := mkWorld p (game w).

(** [game.addParticle(x, y, kind)]: the request is recorded. *)
Definition addParticle (px py : float) (kind : string) (g : Game) : Game :=
  mkGame (keys g) (speedMult g) (quadTree g) (level_objects g)
    (particles g ++ [Particle.mk px py kind]).

(** How a call of [update] ends: normally, or by throwing an error, in the
    state that the assignments made before the throw have left. *)
Inductive outcome : Type :=
  | Done (w : World)
  | Threw (name : string) (w : World).

(** What the source does not define: [getBBox], [collide] and [handleObject]
    are methods of the part of the class that is elided ([// ...]),
    [game.die] belongs to the game, and [Math.atan2] is the engine's. *)
Class Host := {
  getBBox : Player -> Rect.t;
  collide : Rect.t -> Obj.t -> bool;
  handleObject : World -> Obj.t -> World;
  die : World -> World;
  Math_atan2 : float -> float -> float
}.

(** A host with another [game.die], everything else being the same. *)
Definition with_die (d : World -> World) (H : Host) : Host := {|
  getBBox := getBBox;
  collide := collide;
  handleObject := handleObject;
  die := d;
  Math_atan2 := Math_atan2
|}.

Section Update.
Context `{Host}.

(** [game.keys.has('Space') || game.keys.has('ArrowUp')] *)
Definition input (g : Game) : bool :=
  bool_decide ("Space" ∈ keys g) || bool_decide ("ArrowUp" ∈ keys g).

(** [input && !this.lastInput] *)
Definition pressEdge (w : World) : bool :=
  input (game w) && negb (lastInput (player w)).

(** [this.lastInput = input] *)
Definition sampleInput (w : World) : World :=
  set_player (set_lastInput (input (game w)) (player w)) w.

(** X velocity, then Y gravity. *)
Definition beforeSwitch (dt : float) (modeData : ModeEntry) (w : World)
    : World :=
  let this := player w in
  let this :=
    set_vx (prop modeData "baseSpeed" * speedMult (game w)
            * (if mirror this then -1 else 1)) this in
  let this :=
    set_vy (vy this
            + prop modeData "gravity" * flip this * dt
              * (if mini this then 1.0 else 1.0)) this in
  set_player this w.

(** The [switch (this.mode)] of [update]. *)
Definition modeSwitch (dt : float) (modeData : ModeEntry)
    (pressEdge isHolding : bool) (w : World) : World :=
  let this := player w in
  let m := mode this in
  if String.eqb m "cube" then
    if pressEdge && onGround this
    then mkWorld
           (set_vy (prop modeData "jump" * flip this
                    * (if mini this then 0.798 else 1.0)) this)
           (addParticle (x this) (y this) "jump" (game w))
    else w
  else if String.eqb m "ship" then
    let this :=
      if isHolding then set_vy (vy this - prop modeData "thrust" * dt) this
      else set_vy (vy this + prop modeData "fallThrust" * dt) this in
    set_player
      (set_rot (Math_atan2 (- vy this) (vx this) * (180 / JS.Math_PI) * 0.1)
         this) w
  else if String.eqb m "ball" then
    if pressEdge then set_player (set_flip (flip this * -1) this) w else w
  else if String.eqb m "ufo" then
    let this :=
      if pressEdge
      then set_vy (prop modeData "jump" * flip this
                   * (if mini this then 1.0 else 1.0)) this
      else this in
    set_player
      (set_vy (JS.Math_max (- prop modeData "vyLimit")
                 (JS.Math_min (prop modeData "vyLimit") (vy this))) this) w
  else if String.eqb m "wave" then
    set_player
      (set_vy (if isHolding then prop modeData "thrustUp" * flip this * dt
               else prop modeData "thrustDown" * flip this * dt) this) w
  else if String.eqb m "robot" then
    if isHolding && onGround this
    then set_player
           (set_vy (prop modeData "jump" * flip this
                    * JS.Math_min (JS.ToNumber_bool isHolding * 0.1) 1.0
                    * (if mini this then 0.8 else 1.0)) this) w
    else w
  else if String.eqb m "spider" then
    if pressEdge then
      let this := set_flip (flip this * -1) this in
      set_player (set_vy (prop modeData "jump" * flip this) this) w
    else w
  else if String.eqb m "swing" then
    if isHolding
    then set_player (set_vy (vy this - prop modeData "thrust" * dt) this) w
    else set_player
           (set_vy (vy this
                    + JS.logical_or (prop modeData "fallThrust" * dt) (10 * dt))
              this) w
  else w.

(** [update] from the X velocity to the end of the [switch]. The world [w]
    is the one that the input sampling left; [pressEdge] was computed before
    it. *)
Definition accelerate (dt : float) (modeData : ModeEntry) (pressEdge : bool)
    (w : World) : World :=
  modeSwitch dt modeData pressEdge (input (game w)) (beforeSwitch dt modeData w).

(** Integrate position. *)
Definition integrate (dt : float) (this : Player) : Player :=
  let this := set_x (x this + vx this * dt) this in
  set_y (y this + vy this * dt) this.

(** The candidates: the query of the index with the box moved back to the
    old position ([{...bbox, x: oldX, y: oldY}]), or every object of the
    level when there is no index. *)
Definition candidatesOf (bbox : Rect.t) (oldX oldY : float) (g : Game)
    : list Obj.t :=
  match quadTree g with
  | Some query => query (Rect.mk oldX oldY (Rect.w bbox) (Rect.h bbox))
  | None => level_objects g
  end.

(** X collisions: one candidate. *)
Definition slideX (bbox : Rect.t) (this : Player) (o : Obj.t) : Player :=
  if negb (String.eqb (Obj.type o) "block") || String.eqb (Obj.type o) "spike"
  then this
  else if collide (Rect.mk (x this - Rect.w bbox / 2) (Rect.y bbox)
                     (Rect.w bbox) (Rect.h bbox)) o
  then set_x (if JS.gt (vx this) 0 then Obj.x o - Rect.w bbox
              else Obj.x o + Obj.w o) this
  else this.

Definition slideX_all (bbox : Rect.t) (candidates : list Obj.t) (this : Player)
    : Player :=
  fold_left (slideX bbox) candidates this.

(** [bbox.x = this.x - bbox.w/2]: the box is updated in place between the
    two loops, and the later loops see the updated box. *)
Definition bboxAtX (bbox : Rect.t) (this : Player) : Rect.t :=
  Rect.mk (x this - Rect.w bbox / 2) (Rect.y bbox) (Rect.w bbox) (Rect.h bbox).

(** Y collisions: the first colliding block ends the loop. *)
Fixpoint resolveY (bbox : Rect.t) (candidates : list Obj.t) (this : Player)
    : Player :=
  match candidates with
  | [] => this
  | o :: rest =>
      if negb (String.eqb (Obj.type o) "block") then resolveY bbox rest this
      else if collide (Rect.mk (Rect.x bbox) (y this - Rect.h bbox / 2)
                         (Rect.w bbox) (Rect.h bbox)) o
      then
        if JS.gt (vy this) 0
        then set_onGround true (set_vy 0 (set_y (Obj.y o - Rect.h bbox) this))
        else set_vy 0 (set_y (Obj.y o + Obj.h o) this)
      else resolveY bbox rest this
  end.

(** Object interactions. *)
Definition handleOne (bbox : Rect.t) (w : World) (o : Obj.t) : World :=
  if collide bbox o then handleObject w o else w.

Definition handle_all (bbox : Rect.t) (candidates : list Obj.t) (w : World)
    : World :=
  fold_left (handleOne bbox) candidates w.

(** Rotation (cube specific). *)
Definition rotate (dt : float) (modeData : ModeEntry) (this : Player)
    : Player :=
  if String.eqb (mode this) "cube" then
    let rotMult :=
      if onGround this then prop modeData "rotSpeedGround"
      else prop modeData "rotSpeedAir" in
    let this :=
      set_rot (rot this + rotMult * vx this * dt * (180 / JS.Math_PI)) this in
    set_rot (JS.rem (rot this) 360) this
  else this.

(** Trail: [unshift] puts the new sample at index 0, [pop] drops the last
    one when there are more than 20, and [forEach] rewrites every [alpha]
    from the index. *)
Definition fade (i : nat) (p : Sample.t) : Sample.t :=
  Sample.mk (Sample.x p) (Sample.y p) ((JS.of_nat i + 1) / 20).

Definition trailUpdate (this : Player) : Player :=
  let t := Sample.mk (x this) (y this) 1 :: trail this in
  let t := if (20 <? length t)%nat then removelast t else t in
  set_trail (imap fade t) this.

(** Death spikes. *)
Definition dieOne (bbox : Rect.t) (w : World) (o : Obj.t) : World :=
  if String.eqb (Obj.type o) "spike" && collide bbox o then die w else w.

Definition die_all (bbox : Rect.t) (candidates : list Obj.t) (w : World)
    : World :=
  fold_left (dieOne bbox) candidates w.

(** [update] after the [switch]: the position is integrated, the box taken,
    [onGround] cleared, and the loops run over the candidates. *)
Definition land (dt : float) (modeData : ModeEntry) (w : World) : World :=
  let oldX := x (player w) in
  let oldY := y (player w) in
  let w := set_player (integrate dt (player w)) w in
  let bbox := getBBox (player w) in
  let this := set_onGround false (player w) in
  let candidates := candidatesOf bbox oldX oldY (game w) in
  let this := slideX_all bbox candidates this in
  let bbox := bboxAtX bbox this in
  let this := resolveY bbox candidates this in
  let w := handle_all bbox candidates (set_player this w) in
  let this := trailUpdate (rotate dt modeData (player w)) in
  die_all bbox candidates (set_player this w).

(** The parts of [land] by name, for the world [w] that enters it: the box
    that [getBBox] gives after the integration, the candidates, the player
    after the X loop ([onGround] cleared before it), the box with its [x]
    updated, and the player after the Y loop. *)
Definition landBBox (dt : float) (w : World) : Rect.t :=
  getBBox (integrate dt (player w)).

Definition landCandidates (dt : float) (w : World) : list Obj.t :=
  candidatesOf (landBBox dt w) (x (player w)) (y (player w)) (game w).

Definition landSlid (dt : float) (w : World) : Player :=
  slideX_all (landBBox dt w) (landCandidates dt w)
    (set_onGround false (integrate dt (player w))).

Definition landBBoxAtX (dt : float) (w : World) : Rect.t :=
  bboxAtX (landBBox dt w) (landSlid dt w).

Definition landResolved (dt : float) (w : World) : Player :=
  resolveY (landBBoxAtX dt w) (landCandidates dt w) (landSlid dt w).

(** [update(dt)]. [MODES[this.mode]] is read first, and it does not throw;
    the input is sampled and [lastInput] assigned; then [modeData.baseSpeed]
    throws a [TypeError] when the lookup gave [undefined]. *)
Definition update (dt : float) (w : World) : outcome :=
  let modeData := MODES_get (mode (player w)) in
  let edge := pressEdge w in
  let w := sampleInput w in
  match modeData with
  | None => Threw "TypeError" w
  | Some modeData => Done (land dt modeData (accelerate dt modeData edge w))
  end.

End Update.

(** A concrete host, on which closed examples can run: the theorems on
    [update] are stated for every host. [collide] is the overlap test
    modelled from the spec ([Standard.aabb]), [handleObject] and [game.die]
    have no effect, and [Math.atan2] is the stand-in used for
    [fixedPhysics]. *)
Module Standard.

(** Modelled from the spec: [getBBox], which the source calls and does not
    define. The spec has the hitbox of size 15 by 15 (normal) or 7.5 by
    7.5 (mini), axis-aligned, centered on position with a fixed vertical
    bias for cube mode; the bias is the one of [getHitbox]. *)
Definition centred (this : Player) : Rect.t :=
  let size := if mini this then 7.5 else 15.0 in
  Rect.mk (x this - size / 2)
          (y this - size / 2 + (if String.eqb (mode this) "cube" then 2 else 0))
          size size.

#[export] Instance host : Host := {|
  getBBox := centred;
  collide := Standard.aabb;
  handleObject := fun w _ => w;
  die := fun w => w;
  Math_atan2 := Standard.atan2
|}.

End Standard.

End Legacy.

(** ** Concrete levels and players *)

Module Scenario.
Import Table.
Local Open Scope float_scope.

Definition noKeys : gset string := ∅.
Definition space : gset string := {[ "Space" ]}.

(** A level without any object, at speed 1. *)
Definition emptyLevel (pressed : gset string) : Game :=
  mkGame pressed 1 (fun _ => []) [].

(** A player at the origin, at rest, with nothing held and an empty trail. *)
Definition playerAt0 (m : string) (isMini isMirror grounded : bool) : Player :=
  mkPlayer 0 0 0 0 0 m isMini isMirror 1 grounded false 0 0 [].

(** A cube standing near the right end of a floor block that ends at
    [x = 1]; it moves right and walks off the floor. *)
Definition ledge : Obj.t := Obj.mk "block" (-1000) 100 1001 30.
Definition cubeOnLedge : World :=
  mkWorld (mkPlayer 0 85 0 0 0 "cube" false false 1 false false 0 0 [])
          (mkGame noKeys 1 (fun _ => [ledge]) []).

(** A cube in mid-air whose [isOnGround] flag is set (by an earlier floor
    contact, or at a start on the ground), where the index returns no
    candidate at all. *)
Definition flaggedInMidAir : World :=
  mkWorld (playerAt0 "cube" false false true) (emptyLevel noKeys).

(** A player whose mode is not in the table. *)
Definition planePlayer : World :=
  mkWorld (playerAt0 "plane" false false false) (emptyLevel noKeys).

(** A mini spider on the tick where the key goes down. *)
Definition miniSpiderPressed : World :=
  mkWorld (playerAt0 "spider" true false false) (emptyLevel space).

(** A mini ship, nothing pressed. *)
Definition miniShip : World :=
  mkWorld (playerAt0 "ship" true false false) (emptyLevel noKeys).

(** A mirrored cube in the air, rotation 0. *)
Definition mirroredCube : World :=
  mkWorld (playerAt0 "cube" false true false) (emptyLevel noKeys).

(** A cube moving right into a block whose left edge is at 105. *)
Definition wall : Obj.t := Obj.mk "block" 105 40 30 30.
Definition cubeAtWall : World :=
  mkWorld (mkPlayer 100 50 14 0 0 "cube" false false 1 false false 0 0 [])
          (mkGame noKeys 1 (fun _ => [wall]) []).

(** Two walls in a row: the slide at the first one moves the player out of
    the second one's reach or not, depending on the running [x]. *)
Definition wall2 : Obj.t := Obj.mk "block" 95 40 30 30.
Definition cubeAtTwoWalls : World :=
  mkWorld (mkPlayer 100 50 14 0 0 "cube" false false 1 false false 0 0 [])
          (mkGame noKeys 1 (fun _ => [wall; wall2]) []).

(** A wave, with the key held and with the key up. *)
Definition waveHolding : World :=
  mkWorld (playerAt0 "wave" false false false) (emptyLevel space).
Definition waveFree : World :=
  mkWorld (playerAt0 "wave" false false false) (emptyLevel noKeys).

(** A robot standing on a long floor, the key already down ([lastInput]). *)
Definition floor : Obj.t := Obj.mk "block" (-1000) 100 100000 30.
Definition robotOnFloor : World :=
  mkWorld (mkPlayer 0 85 0 0 0 "robot" false false 1 true true 0 0 [])
          (mkGame space 1 (fun _ => [floor]) []).
Definition held : Frame := mkFrame space 1.
Definition released : Frame := mkFrame noKeys 1.
(** 25 ticks with the key down, one with the key up, then the key goes down. *)
Definition chargeThenTap : list Frame := replicate 25 held ++ [released; held].

(** A ufo falling fast. *)
Definition fastUfo : World :=
  mkWorld (mkPlayer 0 0 0 100 0 "ufo" false false 1 false false 0 0 [])
          (emptyLevel noKeys).


(** A wave that carries a trail of six samples. *)
Definition sampleA : Sample.t := Sample.mk 1 1 0.
Definition sampleB : Sample.t := Sample.mk 2 2 0.
Definition waveWithTrail : World :=
  mkWorld (mkPlayer 0 0 0 0 0 "wave" false false 1 false false 0 0
             [sampleA; sampleB; sampleA; sampleB; sampleA; sampleB])
          (emptyLevel noKeys).

End Scenario.

(** More players and levels. *)
Module Levels.
Import Table Scenario.
Local Open Scope float_scope.

(** A cube falling through a level that holds a spike and an orb, no
    block. *)
Definition spike : Obj.t := Obj.mk "spike" (-5) (-5) 30 30.
Definition orb : Obj.t := Obj.mk "orb" 0 0 10 10.
Definition cubeAmongSpikes : World :=
  mkWorld (mkPlayer 0 0 0 1 0 "cube" false false 1 false false 0 0 [])
          (mkGame noKeys 1 (fun _ => [spike; orb]) []).

(** A falling player inside two stacked blocks, the lower one first in the
    list. *)
Definition lower : Obj.t := Obj.mk "block" (-100) 10 200 30.
Definition upper : Obj.t := Obj.mk "block" (-100) 0 200 30.
Definition between : Player :=
  mkPlayer 0 5 14 3 0 "cube" false false 1 false false 0 0 [].

(** A cube on the floor on the tick where the key goes down. *)
Definition cubeJumping : World :=
  mkWorld (mkPlayer 0 85 0 0 0 "cube" false false 1 true false 0 0 [])
          (mkGame space 1 (fun _ => [floor]) []).

(** A mini robot on the floor on the tick where the key goes down. *)
Definition miniRobotJumping : World :=
  mkWorld (mkPlayer 0 92.5 0 0 0 "robot" true false 1 true false 0 0 [])
          (mkGame space 1 (fun _ => [floor]) []).

(** A player whose mode names a member that every object inherits. *)
Definition toStringPlayer : World :=
  mkWorld (playerAt0 "toString" false false false) (emptyLevel noKeys).

(** A ball on the tick where the key goes down, and on a later such tick
    with gravity reversed. *)
Definition ballPressed : World :=
  mkWorld (playerAt0 "ball" false false false) (emptyLevel space).
Definition ballPressedAgain : World :=
  mkWorld (mkPlayer 0 0 0 0 0 "ball" false false (-1) false false 0 0 [])
          (emptyLevel space).

(** A cube whose rotation is within a turn. *)
Definition tiltedCube : Player :=
  mkPlayer 0 0 0 0 (-45) "cube" false false 1 false false 0 0 [].

End Levels.

(** Players and levels for [update]. *)
Module LegacyLevels.
Import Scenario.
Local Open Scope float_scope.

Definition emptyLevel (pressed : gset string) : Legacy.Game :=
  Legacy.mkGame pressed 1 None [] [].

Definition playerAt0 (m : string) (grounded : bool) : Legacy.Player :=
  Legacy.mkPlayer 0 0 0 0 0 m false false 1 grounded false [].

(** A player whose mode is not in the table, with the key down. *)
Definition planePressed : Legacy.World :=
  Legacy.mkWorld (playerAt0 "plane" false) (emptyLevel space).

(** A cube that was on the ground, in a level without any object. *)
Definition cubeInTheVoid : Legacy.World :=
  Legacy.mkWorld (playerAt0 "cube" true) (emptyLevel noKeys).

(** A cube above a floor block; the level has no index. *)
Definition legacyFloor : Obj.t := Obj.mk "block" (-1000) 5 2000 30.
Definition cubeLanding : Legacy.World :=
  Legacy.mkWorld (Legacy.mkPlayer 0 0 0 60 0 "cube" false false 1 false false [])
                 (Legacy.mkGame noKeys 1 None [legacyFloor] []).

(** A ball that carries a trail of twenty samples. *)
Definition faded (k : nat) : Legacy.Sample.t :=
  Legacy.Sample.mk (JS.of_nat k) 0 1.
Definition ballWithTrail : Legacy.World :=
  Legacy.mkWorld
    (Legacy.mkPlayer 0 0 0 0 0 "ball" false false 1 false false
       (map faded (seq 0 20)))
    (emptyLevel noKeys).

(** A swing and a ship, the key up. *)
Definition swingFree : Legacy.World :=
  Legacy.mkWorld (playerAt0 "swing" false) (emptyLevel noKeys).
Definition shipFree : Legacy.World :=
  Legacy.mkWorld (playerAt0 "ship" false) (emptyLevel noKeys).

End LegacyLevels.

(** ** Notions used in the proofs *)

(** The shapes of a rounded product or sum. *)
Inductive signed_as (s : bool) : spec_float -> Prop :=
  | signed_zero : signed_as s (S754_zero s)
  | signed_infinity : signed_as s (S754_infinity s)
  | signed_finite m e : signed_as s (S754_finite s m e).

(** What [k] shifts of a mantissa [M] leave: the quotient by [2 ^ k], and a
    round or a sticky bit only if the division is not exact. *)
Definition shifted (M k : Z) (r : shr_record) : Prop :=
  (shr_m r = M / 2 ^ k)%Z
  /\ (shr_r r || shr_s r = true -> (M mod 2 ^ k)%Z <> 0%Z).


(** * Facts on binary64 numbers *)

Module FloatFacts.

(** ** On the specification side *)

Lemma SFcompare_refl (X : spec_float) :
  X <> S754_nan -> SFcompare X X = Some Eq.
Proof.
  destruct X as [s|s| |s m e]; intros HX; try congruence; simpl.
  - now destruct s.
  - now destruct s.
  - destruct s; rewrite Z.compare_refl, Pos.compare_cont_refl; reflexivity.
Qed.

Lemma SFopp_involutive (X : spec_float) : SFopp (SFopp X) = X.
Proof. destruct X as [s|s| |s m e]; simpl; now rewrite ?negb_involutive. Qed.

(** The order is reversed by the opposite. *)
Lemma SFcompare_opp (X Y : spec_float) :
  SFcompare (SFopp X) (SFopp Y) = SFcompare Y X.
Proof.
  destruct X as [sx|sx| |sx mx ex], Y as [sy|sy| |sy my ey]; simpl;
    try reflexivity;
    try (destruct sx; reflexivity); try (destruct sy; reflexivity);
    try (destruct sx, sy; reflexivity).
  fold (Pos.compare mx my); fold (Pos.compare my mx).
  rewrite (Z.compare_antisym ex ey), (Pos.compare_antisym mx my).
  destruct sx, sy; simpl; try reflexivity;
    destruct (ex ?= ey)%Z; simpl; try reflexivity;
    destruct (mx ?= my)%positive; reflexivity.
Qed.

Lemma SFcompare_antisym (X Y : spec_float) :
  SFcompare Y X = option_map CompOpp (SFcompare X Y).
Proof.
  destruct X as [sx|sx| |sx mx ex], Y as [sy|sy| |sy my ey]; simpl;
    try reflexivity;
    try (destruct sx; reflexivity); try (destruct sy; reflexivity);
    try (destruct sx, sy; reflexivity).
  fold (Pos.compare mx my); fold (Pos.compare my mx).
  rewrite (Z.compare_antisym ex ey), (Pos.compare_antisym mx my).
  destruct sx, sy; simpl; try reflexivity;
    destruct (ex ?= ey)%Z; simpl; try reflexivity;
    destruct (mx ?= my)%positive; reflexivity.
Qed.

(** Shifting and rounding a non-negative mantissa keeps it non-negative. *)
Lemma shr_1_nonneg (r : shr_record) :
  (0 <= shr_m r)%Z -> (0 <= shr_m (shr_1 r))%Z.
Proof.
  destruct r as [m r s]; simpl. destruct m as [|[p|p|]|p]; simpl; lia.
Qed.

Lemma iter_pos_invariant {A : Type} (P : A -> Prop) (f : A -> A) :
  (forall a, P a -> P (f a)) -> forall n a, P a -> P (SpecFloat.iter_pos f n a).
Proof.
  intros Hf. induction n as [n IH|n IH|]; intros a Ha; simpl; auto.
Qed.

Lemma shr_nonneg (r : shr_record) (e n : Z) :
  (0 <= shr_m r)%Z -> (0 <= shr_m (fst (shr r e n)))%Z.
Proof.
  intros Hr. destruct n as [|p|p]; simpl; auto.
  apply (iter_pos_invariant (fun r => (0 <= shr_m r)%Z)); auto using shr_1_nonneg.
Qed.

Lemma shr_record_of_loc_m (m : Z) (l : location) :
  shr_m (shr_record_of_loc m l) = m.
Proof. destruct l as [|[]]; reflexivity. Qed.

Lemma shr_fexp_nonneg (m e : Z) (l : location) :
  (0 <= m)%Z -> (0 <= shr_m (fst (shr_fexp prec emax m e l)))%Z.
Proof.
  intros Hm. unfold shr_fexp. apply shr_nonneg.
  now rewrite shr_record_of_loc_m.
Qed.

Lemma round_nearest_even_nonneg (m : Z) (l : location) :
  (0 <= m)%Z -> (0 <= round_nearest_even m l)%Z.
Proof.
  intros Hm. destruct l as [|[]]; simpl; try lia.
  destruct (Z.even m); lia.
Qed.

Lemma binary_round_aux_signed (s : bool) (m e : Z) (l : location) :
  (0 <= m)%Z -> signed_as s (binary_round_aux prec emax s m e l).
Proof.
  intros Hm. unfold binary_round_aux.
  pose proof (shr_fexp_nonneg m e l Hm) as H1.
  destruct (shr_fexp prec emax m e l) as [mrs' e'] eqn:E1; simpl in H1.
  pose proof (shr_fexp_nonneg _ e' loc_Exact
                (round_nearest_even_nonneg _ (loc_of_shr_record mrs') H1)) as H2.
  destruct (shr_fexp prec emax _ e' loc_Exact) as [mrs'' e''] eqn:E2;
    simpl in H2.
  destruct (shr_m mrs'') as [|p|p]; try lia; [constructor|].
  destruct (e'' <=? emax - prec)%Z; constructor.
Qed.

Lemma binary_round_signed (s : bool) (m : positive) (e : Z) :
  signed_as s (binary_round prec emax s m e).
Proof.
  unfold binary_round.
  destruct (shl_align m e _) as [mz ez].
  apply binary_round_aux_signed; lia.
Qed.

Lemma signed_as_not_nan (s : bool) (X : spec_float) :
  signed_as s X -> X <> S754_nan.
Proof. now destruct 1. Qed.

Lemma binary_normalize_not_nan (m e : Z) (s : bool) :
  binary_normalize prec emax m e s <> S754_nan.
Proof.
  destruct m as [|p|p]; simpl; [discriminate| |];
    eapply signed_as_not_nan, binary_round_signed.
Qed.

(** The sign of a rounded value comes last: the opposite and the absolute
    value commute with rounding. *)
Lemma binary_round_aux_opp (s : bool) (m e : Z) (l : location) :
  SFopp (binary_round_aux prec emax s m e l)
  = binary_round_aux prec emax (negb s) m e l.
Proof.
  unfold binary_round_aux.
  destruct (shr_fexp prec emax m e l) as [mrs' e'].
  destruct (shr_fexp prec emax _ e' loc_Exact) as [mrs'' e''].
  destruct (shr_m mrs''); try reflexivity.
  destruct (e'' <=? emax - prec)%Z; reflexivity.
Qed.


Lemma SFmul_opp_l (X Y : spec_float) :
  SF64mul (SFopp X) Y = SFopp (SF64mul X Y).
Proof.
  unfold SF64mul.
  destruct X as [sx|sx| |sx mx ex], Y as [sy|sy| |sy my ey]; simpl;
    try reflexivity; try (now destruct sx, sy).
  rewrite binary_round_aux_opp. now destruct sx, sy.
Qed.



(** ** Rounding a product *)

Section Rounding.
Local Open Scope Z_scope.

(** The number of binary digits of a mantissa. *)
Lemma digits2_pos_bounds (p : positive) :
  2 ^ (Z.pos (digits2_pos p) - 1) <= Z.pos p < 2 ^ Z.pos (digits2_pos p).
Proof.
  induction p as [p IH|p IH|]; simpl digits2_pos; [| |simpl; lia];
    rewrite Pos2Z.inj_succ;
    replace (Z.succ (Z.pos (digits2_pos p)) - 1)
      with (Z.succ (Z.pos (digits2_pos p) - 1)) by lia;
    rewrite !Z.pow_succ_r by lia;
    revert IH;
    generalize (2 ^ (Z.pos (digits2_pos p) - 1))
               (2 ^ Z.pos (digits2_pos p)); lia.
Qed.

Lemma Zdigits2_bounds (m : Z) :
  0 < m -> 2 ^ (Zdigits2 m - 1) <= m < 2 ^ Zdigits2 m.
Proof.
  destruct m as [|p|p]; try lia. intros _. apply digits2_pos_bounds.
Qed.

Lemma Zdigits2_nonneg (m : Z) : 0 <= Zdigits2 m.
Proof. destruct m; simpl; lia. Qed.

(** [m < 2 ^ k] bounds the number of digits of [m] by [k]. *)
Lemma Zdigits2_le (m k : Z) : 0 <= m -> 0 <= k -> m < 2 ^ k -> Zdigits2 m <= k.
Proof.
  intros Hm Hk Hlt.
  destruct (Z.eq_dec m 0) as [->|Hne]; [simpl; lia|].
  pose proof (Zdigits2_bounds m ltac:(lia)) as [Hlo _].
  pose proof (Zdigits2_nonneg m).
  destruct (Z_lt_le_dec k (Zdigits2 m)) as [Hgt|]; [|lia].
  assert (2 ^ k <= 2 ^ (Zdigits2 m - 1)) by (apply Z.pow_le_mono_r; lia).
  lia.
Qed.

Lemma shr_1_div2 (r : shr_record) :
  0 <= shr_m r ->
  shr_m (shr_1 r) = shr_m r / 2
  /\ shr_r (shr_1 r) = Z.odd (shr_m r)
  /\ shr_s (shr_1 r) = shr_r r || shr_s r.
Proof.
  destruct r as [m r s]; simpl. intros Hm.
  destruct m as [|[p|p|]|p]; try lia; simpl shr_m; simpl shr_r; simpl shr_s;
    repeat split; try reflexivity.
  - rewrite Pos2Z.inj_xI. apply Z.div_unique with (r := 1); lia.
  - rewrite Pos2Z.inj_xO. apply Z.div_unique with (r := 0); lia.
Qed.

Lemma shifted_shr_1 (M k : Z) (r : shr_record) :
  0 <= M -> 0 <= k -> shifted M k r -> shifted M (k + 1) (shr_1 r).
Proof.
  intros HM Hk [Hm Hrs].
  assert (0 < 2 ^ k) as Hpow by (apply Z.pow_pos_nonneg; lia).
  assert (0 <= shr_m r) as Hpos by (rewrite Hm; apply Z.div_pos; lia).
  destruct (shr_1_div2 r Hpos) as (Hm' & Hr' & Hs').
  assert (M mod 2 ^ (k + 1) = M mod 2 ^ k + 2 ^ k * ((M / 2 ^ k) mod 2)) as Hmod.
  { rewrite Z.pow_add_r, Z.pow_1_r by lia. apply Z.rem_mul_r; lia. }
  pose proof (Z.mod_pos_bound M (2 ^ k) Hpow) as Hb.
  pose proof (Z.mod_pos_bound (M / 2 ^ k) 2 ltac:(lia)) as Hb2.
  split.
  - rewrite Hm', Hm, Z.pow_add_r, Z.pow_1_r by lia.
    apply Z.div_div; lia.
  - rewrite Hr', Hs', Hm. intros H. rewrite Hmod.
    apply orb_true_iff in H as [H|H].
    + rewrite Zmod_odd, H. nia.
    + specialize (Hrs H). nia.
Qed.

Lemma shifted_iter (M : Z) (p : positive) :
  0 <= M -> forall k r, 0 <= k -> shifted M k r ->
  shifted M (k + Z.pos p) (SpecFloat.iter_pos shr_1 p r).
Proof.
  intros HM. induction p as [p IH|p IH|]; intros k r Hk Hr; simpl.
  - replace (k + Z.pos p~1) with (k + 1 + Z.pos p + Z.pos p) by lia.
    apply IH; [lia|]. apply IH; [lia|]. now apply shifted_shr_1.
  - replace (k + Z.pos p~0) with (k + Z.pos p + Z.pos p) by lia.
    apply IH; [lia|]. now apply IH.
  - now apply shifted_shr_1.
Qed.

(** [shr_fexp] on an exact mantissa: the exponent it chooses, and what is
    left of the mantissa. *)
Lemma shr_fexp_exact (m e : Z) :
  0 <= m ->
  snd (shr_fexp prec emax m e loc_Exact)
  = Z.max e (fexp prec emax (Zdigits2 m + e))
  /\ shifted m (snd (shr_fexp prec emax m e loc_Exact) - e)
              (fst (shr_fexp prec emax m e loc_Exact)).
Proof.
  intros Hm. unfold shr_fexp, shr.
  set (f := fexp prec emax (Zdigits2 m + e)).
  destruct (f - e) as [|p|p] eqn:E; simpl fst; simpl snd.
  - split; [lia|].
    rewrite Z.sub_diag. split; simpl; [now rewrite Z.div_1_r|discriminate].
  - split; [lia|].
    replace (e + Z.pos p - e) with (0 + Z.pos p) by lia.
    apply shifted_iter; [assumption|lia|].
    split; simpl; [now rewrite Z.div_1_r|discriminate].
  - split; [lia|].
    rewrite Z.sub_diag. split; simpl; [now rewrite Z.div_1_r|discriminate].
Qed.



End Rounding.

(** ** On primitive floats *)

Local Open Scope float_scope.

Lemma Prim2SF_nan : Prim2SF nan = S754_nan.
Proof. reflexivity. Qed.

Lemma Prim2SF_zero : Prim2SF 0 = S754_zero false.
Proof. reflexivity. Qed.

Lemma is_nan_spec (a : float) :
  is_nan a = match Prim2SF a with S754_nan => true | _ => false end.
Proof.
  unfold is_nan. rewrite FloatAxioms.eqb_spec. unfold SFeqb.
  destruct (Prim2SF a) eqn:E; try reflexivity;
    rewrite SFcompare_refl by discriminate; reflexivity.
Qed.

Lemma is_nan_true (a : float) : is_nan a = true <-> a = nan.
Proof.
  rewrite is_nan_spec. split.
  - intros Ha. apply Prim2SF_inj. rewrite Prim2SF_nan.
    now destruct (Prim2SF a).
  - intros ->. reflexivity.
Qed.

Lemma not_nan_Prim2SF (a : float) :
  is_nan a = false <-> Prim2SF a <> S754_nan.
Proof.
  rewrite is_nan_spec. destruct (Prim2SF a); split; congruence.
Qed.

Lemma is_finite_spec (a : float) :
  is_finite a = match Prim2SF a with
                | S754_zero _ | S754_finite _ _ _ => true
                | _ => false
                end.
Proof.
  unfold is_finite, is_infinity. rewrite is_nan_spec, FloatAxioms.eqb_spec, FloatAxioms.abs_spec.
  change (Prim2SF infinity) with (S754_infinity false).
  destruct (Prim2SF a); reflexivity.
Qed.

Lemma is_finite_not_nan (a : float) : is_finite a = true -> is_nan a = false.
Proof. rewrite is_finite_spec, is_nan_spec. now destruct (Prim2SF a). Qed.

(** *** NaN is absorbing *)

Lemma add_nan_l (a : float) : nan + a = nan.
Proof. apply Prim2SF_inj. rewrite FloatAxioms.add_spec, Prim2SF_nan. reflexivity. Qed.

Lemma add_nan_r (a : float) : a + nan = nan.
Proof.
  apply Prim2SF_inj. rewrite FloatAxioms.add_spec, Prim2SF_nan.
  now destruct (Prim2SF a).
Qed.

Lemma sub_nan_l (a : float) : nan - a = nan.
Proof. apply Prim2SF_inj. rewrite FloatAxioms.sub_spec, Prim2SF_nan. reflexivity. Qed.

Lemma mul_nan_l (a : float) : nan * a = nan.
Proof. apply Prim2SF_inj. rewrite FloatAxioms.mul_spec, Prim2SF_nan. reflexivity. Qed.

Lemma mul_nan_r (a : float) : a * nan = nan.
Proof.
  apply Prim2SF_inj. rewrite FloatAxioms.mul_spec, Prim2SF_nan.
  now destruct (Prim2SF a).
Qed.

Lemma div_nan_l (a : float) : nan / a = nan.
Proof. apply Prim2SF_inj. rewrite FloatAxioms.div_spec, Prim2SF_nan. reflexivity. Qed.

Lemma ltb_nan_l (a : float) : (nan <? a) = false.
Proof. rewrite FloatAxioms.ltb_spec, Prim2SF_nan. reflexivity. Qed.

Lemma ltb_nan_r (a : float) : (a <? nan) = false.
Proof. rewrite FloatAxioms.ltb_spec, Prim2SF_nan. unfold SFltb. now destruct (Prim2SF a). Qed.

(** *** Products and sums of numbers are numbers *)

Lemma mul_finite_not_nan (a b : float) :
  is_finite a = true -> is_finite b = true -> is_nan (a * b) = false.
Proof.
  rewrite !is_finite_spec, is_nan_spec, FloatAxioms.mul_spec. unfold SF64mul.
  destruct (Prim2SF a) as [sa|sa| |sa ma ea], (Prim2SF b) as [sb|sb| |sb mb eb];
    simpl; try discriminate; try reflexivity.
  intros _ _.
  destruct (binary_round_aux_signed (xorb sa sb) (Z.pos (ma * mb)) (ea + eb)
              loc_Exact); [lia|reflexivity..].
Qed.

Lemma add_finite_not_nan (a b : float) :
  is_finite a = true -> is_nan b = false -> is_nan (a + b) = false.
Proof.
  rewrite is_finite_spec, !is_nan_spec, FloatAxioms.add_spec. unfold SF64add.
  destruct (Prim2SF a) as [sa|sa| |sa ma ea], (Prim2SF b) as [sb|sb| |sb mb eb];
    simpl; try discriminate; try reflexivity.
  - now destruct sa, sb.
  - intros _ _.
    match goal with |- context [binary_normalize ?p ?q ?m ?e ?s] =>
      pose proof (binary_normalize_not_nan m e s) as Hn;
      destruct (binary_normalize p q m e s) end; congruence.
Qed.

(** *** The order *)

Lemma leb_refl (a : float) : is_nan a = false -> (a <=? a) = true.
Proof.
  rewrite not_nan_Prim2SF, FloatAxioms.leb_spec. intros Ha. unfold SFleb.
  now rewrite SFcompare_refl.
Qed.

Lemma ltb_leb (a b : float) : (a <? b) = true -> (a <=? b) = true.
Proof.
  rewrite FloatAxioms.ltb_spec, FloatAxioms.leb_spec. unfold SFltb, SFleb.
  now destruct (SFcompare _ _) as [[]|].
Qed.

Lemma not_ltb_leb (a b : float) :
  is_nan a = false -> is_nan b = false -> (a <? b) = false -> (b <=? a) = true.
Proof.
  rewrite !is_nan_spec, FloatAxioms.ltb_spec, FloatAxioms.leb_spec. unfold SFltb, SFleb.
  rewrite (SFcompare_antisym (Prim2SF a) (Prim2SF b)).
  destruct (Prim2SF a) as [sa|sa| |sa ma ea], (Prim2SF b) as [sb|sb| |sb mb eb];
    try discriminate; intros _ _;
    destruct (SFcompare _ _) as [[]|] eqn:E; simpl; try congruence;
    simpl in E; try discriminate;
    try (destruct sa; discriminate); try (destruct sb; discriminate);
    try (destruct sa, sb; discriminate).
Qed.

Lemma ltb_asym (a b : float) : (a <? b) = true -> (b <? a) = false.
Proof.
  rewrite !FloatAxioms.ltb_spec. unfold SFltb.
  rewrite (SFcompare_antisym (Prim2SF a) (Prim2SF b)).
  now destruct (SFcompare _ _) as [[]|].
Qed.

Lemma leb_not_nan_r (a b : float) : (a <=? b) = true -> is_nan b = false.
Proof.
  rewrite FloatAxioms.leb_spec, is_nan_spec. unfold SFleb.
  destruct (Prim2SF a), (Prim2SF b); simpl; congruence.
Qed.

Lemma is_nan_opp (a : float) : is_nan (- a) = is_nan a.
Proof. rewrite !is_nan_spec, FloatAxioms.opp_spec. now destruct (Prim2SF a). Qed.

Lemma opp_leb_nonneg (c : float) : (0 <=? c) = true -> (- c <=? c) = true.
Proof.
  rewrite !FloatAxioms.leb_spec, FloatAxioms.opp_spec, Prim2SF_zero. unfold SFleb.
  destruct (Prim2SF c) as [s|s| |s m e]; simpl; try congruence;
    destruct s; simpl; congruence.
Qed.

(** A number between [-c] and [c] has an absolute value of at most [c]. *)
Lemma abs_leb (r c : float) :
  (- c <=? r) = true -> (r <=? c) = true -> (abs r <=? c) = true.
Proof.
  rewrite !FloatAxioms.leb_spec, FloatAxioms.opp_spec, FloatAxioms.abs_spec. unfold SFleb.
  rewrite <- (SFcompare_opp (Prim2SF r)), SFopp_involutive.
  destruct (Prim2SF r) as [s|s| |s m e]; simpl SFopp; simpl SFabs;
    try (intros; assumption); destruct s; try (intros; assumption).
Qed.

Lemma mul_opp_l (a b : float) : - a * b = - (a * b).
Proof.
  apply Prim2SF_inj. rewrite FloatAxioms.opp_spec, !FloatAxioms.mul_spec, FloatAxioms.opp_spec.
  apply SFmul_opp_l.
Qed.

Lemma mul_pos_nonneg (a b : float) (m : positive) (e : Z) :
  Prim2SF a = S754_finite false m e -> (0 <=? b) = true ->
  (0 <=? a * b) = true.
Proof.
  rewrite !FloatAxioms.leb_spec, FloatAxioms.mul_spec, Prim2SF_zero. intros ->. unfold SFleb, SF64mul.
  destruct (Prim2SF b) as [s|s| |s mb eb]; simpl; try congruence;
    destruct s; simpl; try congruence.
  intros _.
  destruct (binary_round_aux_signed false (Z.pos (m * mb)) (e + eb) loc_Exact);
    [lia|reflexivity..].
Qed.

(** *** [Math.min], [Math.max] and the clamp *)

Lemma Math_min_cases (c v : float) :
  is_nan c = false -> is_nan v = false ->
  (JS.Math_min c v = c \/ JS.Math_min c v = v)
  /\ (JS.Math_min c v <=? c) = true.
Proof.
  intros Hc Hv. unfold JS.Math_min. rewrite Hc, Hv. simpl.
  destruct (c <? v) eqn:E1; [auto using leb_refl|].
  destruct (v <? c) eqn:E2; [auto using ltb_leb|].
  destruct (JS.is_neg_zero c); auto using leb_refl, not_ltb_leb.
Qed.

Lemma Math_max_cases (l t : float) :
  is_nan l = false -> is_nan t = false ->
  (JS.Math_max l t = l \/ JS.Math_max l t = t)
  /\ (l <=? JS.Math_max l t) = true.
Proof.
  intros Hl Ht. unfold JS.Math_max. rewrite Hl, Ht. simpl.
  destruct (l <? t) eqn:E1; [auto using ltb_leb|].
  destruct (t <? l) eqn:E2; [auto using leb_refl|].
  destruct (JS.is_neg_zero l); auto using leb_refl, not_ltb_leb.
Qed.

(** The clamp of a number between [-c] and [c], for a bound [c >= 0]. *)
Lemma clamp_bound (v c : float) :
  is_nan v = false -> (0 <=? c) = true ->
  (abs (JS.Math_max (- c) (JS.Math_min c v)) <=? c) = true.
Proof.
  intros Hv Hc.
  pose proof (leb_not_nan_r _ _ Hc) as Hn.
  destruct (Math_min_cases c v Hn Hv) as [Hmin Hle].
  assert (is_nan (JS.Math_min c v) = false) as Ht
    by (destruct Hmin as [-> | ->]; assumption).
  pose proof Hn as Hl. rewrite <- is_nan_opp in Hl.
  destruct (Math_max_cases (- c) _ Hl Ht) as [Hmax Hge].
  apply abs_leb; [assumption|].
  destruct Hmax as [-> | ->]; auto using opp_leb_nonneg.
Qed.


(** *** Products by zero, sums with zero, absolute values *)

Lemma SFmul_comm (X Y : spec_float) : SF64mul X Y = SF64mul Y X.
Proof.
  unfold SF64mul.
  destruct X as [sx|sx| |sx mx ex], Y as [sy|sy| |sy my ey]; simpl;
    try reflexivity; try (now rewrite xorb_comm).
  now rewrite xorb_comm, Pos.mul_comm, Z.add_comm.
Qed.

Lemma mul_comm (a b : float) : a * b = b * a.
Proof. apply Prim2SF_inj. rewrite !FloatAxioms.mul_spec. apply SFmul_comm. Qed.





(** *** The remainder *)

Section Remainder.
Local Open Scope Z_scope.

(** Shifting a mantissa to the left adds to its digits. *)
Lemma digits2_pos_iter_xO (p d : positive) :
  Z.pos (digits2_pos (Pos.iter xO p d)) = Z.pos (digits2_pos p) + Z.pos d.
Proof.
  revert p. induction d as [| d IH] using Pos.peano_ind; intros p.
  - simpl. lia.
  - rewrite Pos.iter_succ. simpl digits2_pos. rewrite Pos2Z.inj_succ, IH. lia.
Qed.

Lemma iter_xO_value (p d : positive) :
  Z.pos (Pos.iter xO p d) = Z.pos p * 2 ^ Z.pos d.
Proof.
  revert p. induction d as [| d IH] using Pos.peano_ind; intros p.
  - simpl. lia.
  - rewrite Pos.iter_succ, Pos2Z.inj_xO, IH, Pos2Z.inj_succ, Z.pow_succ_r by lia.
    lia.
Qed.

(** A mantissa of at most 53 digits over an exponent [e >= emin] is a
    binary64 number: [binary_round] only moves it to its canonical
    exponent. *)
Lemma binary_round_exact (s : bool) (p : positive) (e : Z) :
  Z.pos (digits2_pos p) <= 53 -> -1074 <= e -> e <= 971 ->
  exists (m : positive) (f : Z),
    binary_round prec emax s p e = S754_finite s m f
    /\ bounded prec emax m f = true
    /\ f <= e
    /\ Z.pos m = Z.pos p * 2 ^ (e - f).
Proof.
  intros Hd Hlo Hhi.
  set (f := fexp prec emax (Z.pos (digits2_pos p) + e)).
  assert (f = Z.max (Z.pos (digits2_pos p) + e - 53) (-1074)) as Hf by reflexivity.
  assert (f <= e) as Hfe by lia.
  unfold binary_round. fold f. unfold shl_align.
  assert (exists m, (match f - e with
                     | Z.neg d => (Pos.iter xO p d, f)
                     | _ => (p, e)
                     end) = (m, f)
                    /\ Z.pos (digits2_pos m) + f = Z.pos (digits2_pos p) + e
                    /\ Z.pos m = Z.pos p * 2 ^ (e - f)) as (m & -> & Hdm & Hval).
  { destruct (f - e) as [|d|d] eqn:E; try lia.
    - exists p. replace e with f by lia. rewrite Z.sub_diag. simpl. 
      repeat split; lia.
    - exists (Pos.iter xO p d). rewrite digits2_pos_iter_xO, iter_xO_value.
      replace (e - f) with (Z.pos d) by lia. repeat split; lia. }
  exists m, f.
  assert (fexp prec emax (Z.pos (digits2_pos m) + f) = f) as Hcan
    by (rewrite Hdm; reflexivity).
  assert (shr_fexp prec emax (Z.pos m) f loc_Exact
          = (Build_shr_record (Z.pos m) false false, f)) as Hshr.
  { unfold shr_fexp. simpl Zdigits2. rewrite Hcan, Z.sub_diag. reflexivity. }
  unfold binary_round_aux. rewrite Hshr. simpl shr_m. simpl loc_of_shr_record.
  simpl round_nearest_even. rewrite Hshr. simpl shr_m.
  replace (f <=? emax - prec) with true
    by (symmetry; apply Z.leb_le; change (emax - prec) with 971; lia).
  split; [reflexivity|]. split; [|split; assumption].
  unfold bounded, canonical_mantissa. rewrite Hcan, Z.eqb_refl. simpl.
  apply Z.leb_le. change (emax - prec) with 971. lia.
Qed.

Lemma bounded_inv (m : positive) (e : Z) :
  bounded prec emax m e = true ->
  Z.pos (digits2_pos m) <= 53 /\ -1074 <= e <= 971.
Proof.
  unfold bounded, canonical_mantissa. intros Hb.
  apply andb_true_iff in Hb as [Hcan He].
  apply Z.eqb_eq in Hcan. apply Z.leb_le in He.
  change (emax - prec) with 971 in He.
  assert (fexp prec emax (Z.pos (digits2_pos m) + e)
          = Z.max (Z.pos (digits2_pos m) + e - 53) (-1074)) as Hf by reflexivity.
  lia.
Qed.

(** The remainder of a finite number by a positive one: smaller than the
    divisor in absolute value, and of the sign of the dividend. *)
Lemma SF_rem_range (sa : bool) (ma mb : positive) (ea eb : Z) :
  bounded prec emax ma ea = true ->
  bounded prec emax mb eb = true ->
  let e := Z.min ea eb in
  let r := (Z.pos ma * 2 ^ (ea - e)) mod (Z.pos mb * 2 ^ (eb - e)) in
  let R := binary_normalize prec emax (if sa then - r else r) e sa in
  valid_binary R = true
  /\ SFltb (SFabs R) (S754_finite false mb eb) = true
  /\ (R = S754_zero sa \/ exists m f, R = S754_finite sa m f).
Proof.
  intros Ha Hb e r R.
  apply bounded_inv in Ha as [Hda Hea]. apply bounded_inv in Hb as [Hdb Heb].
  pose proof (digits2_pos_bounds ma) as [_ Hma].
  pose proof (digits2_pos_bounds mb) as [_ Hmb].
  assert (2 ^ Z.pos (digits2_pos ma) <= 2 ^ 53) as Hpa
    by (apply Z.pow_le_mono_r; lia).
  assert (2 ^ Z.pos (digits2_pos mb) <= 2 ^ 53) as Hpb
    by (apply Z.pow_le_mono_r; lia).
  assert (0 < 2 ^ (ea - e)) as Hqa by (apply Z.pow_pos_nonneg; lia).
  assert (0 < 2 ^ (eb - e)) as Hqb by (apply Z.pow_pos_nonneg; lia).
  set (na := Z.pos ma * 2 ^ (ea - e)) in *.
  set (nb := Z.pos mb * 2 ^ (eb - e)) in *.
  assert (0 < nb) as Hnb by (unfold nb; lia).
  assert (0 <= na) as Hna by (unfold na; lia).
  pose proof (Z.mod_pos_bound na nb Hnb) as Hr. fold r in Hr.
  assert (r <= na) as Hrna by (apply Z.mod_le; lia).
  assert (r < 2 ^ 53) as Hr53.
  { destruct (Z_le_gt_dec eb ea) as [Hle|Hgt].
    - assert (nb = Z.pos mb) as Hnb'; [|lia].
      unfold nb. replace (eb - e) with 0 by lia. simpl. lia.
    - assert (na = Z.pos ma) as Hna'; [|lia].
      unfold na. replace (ea - e) with 0 by lia. simpl. lia. }
  destruct (Z.eq_dec r 0) as [Hz|Hnz].
  - subst R. rewrite Hz. destruct sa; simpl; auto.
  - assert (exists p, r = Z.pos p) as [p Hp]
      by (destruct r as [|p|p]; try lia; now exists p).
    assert (R = binary_round prec emax sa p e) as HR
      by (subst R; rewrite Hp; now destruct sa).
    assert (Z.pos (digits2_pos p) <= 53) as Hdp.
    { apply (Zdigits2_le (Z.pos p) 53); lia. }
    destruct (binary_round_exact sa p e Hdp ltac:(lia) ltac:(lia))
      as (m & f & Hround & Hbounded & Hfe & Hval).
    rewrite HR, Hround. split; [exact Hbounded|]. split; [|eauto].
    unfold SFltb. simpl.
    destruct (Z.compare_spec f eb) as [Heq|Hlt|Hgt]; [|reflexivity|lia].
    assert (e = eb) as Hee by lia.
    assert (Z.pos m = r) as Hm.
    { rewrite Hval, Hp. replace (e - f) with 0 by lia. simpl. lia. }
    assert (nb = Z.pos mb) as Hnb'.
    { unfold nb. replace (eb - e) with 0 by lia. simpl. lia. }
    fold (Pos.compare m mb).
    destruct (Pos.compare_spec m mb); try reflexivity; lia.
Qed.

End Remainder.

Section RemainderFloat.
Local Open Scope float_scope.

(** [a % b] for a finite [a] and a positive finite [b]: in [[0, b)] when
    [a >= 0], in [(-b, 0]] when [a <= 0]. *)
Lemma rem_range (a b : float) (mb : positive) (eb : Z) :
  Prim2SF b = S754_finite false mb eb ->
  is_finite a = true ->
  (abs (JS.rem a b) <? b) = true
  /\ ((0 <=? a) = true ->
      (0 <=? JS.rem a b) = true /\ (JS.rem a b <? b) = true)
  /\ ((a <=? 0) = true ->
      (- b <? JS.rem a b) = true /\ (JS.rem a b <=? 0) = true).
Proof.
  intros Hb Ha.
  rewrite is_finite_spec in Ha.
  rewrite !FloatAxioms.ltb_spec, !FloatAxioms.leb_spec, FloatAxioms.abs_spec,
    FloatAxioms.opp_spec, Prim2SF_zero, Hb.
  pose proof (Prim2SF_valid a) as Hva. pose proof (Prim2SF_valid b) as Hvb.
  rewrite Hb in Hvb. simpl in Hvb.
  unfold JS.rem. rewrite Hb.
  destruct (Prim2SF a) as [sa|sa| |sa ma ea] eqn:Ea; try discriminate.
  - rewrite Ea. simpl. repeat split; auto.
  - simpl in Hva.
    destruct (SF_rem_range sa ma mb ea eb Hva Hvb) as (Hvalid & Hlt & Hshape).
    cbv zeta in Hvalid, Hlt, Hshape.
    rewrite (Prim2SF_SF2Prim _ Hvalid).
    split; [exact Hlt|].
    destruct Hshape as [HR | (m & f & HR)]; rewrite HR in Hlt |- *;
      destruct sa; simpl; repeat split; try discriminate; auto.
    change (S754_finite true mb eb) with (SFopp (S754_finite false mb eb)).
    change (S754_finite true m f) with (SFopp (S754_finite false m f)).
    unfold SFltb. rewrite SFcompare_opp. exact Hlt.
Qed.

End RemainderFloat.

End FloatFacts.

(** * Facts on the player update *)

(** ** The collision pass, field by field *)

Section CollisionFacts.
Context `{Host}.
Local Open Scope float_scope.

Lemma slideX_fields (hb : Rect.t) (this : Player) (obj : Obj.t) :
  y (slideX hb this obj) = y this
  /\ vx (slideX hb this obj) = vx this
  /\ vy (slideX hb this obj) = vy this
  /\ isOnGround (slideX hb this obj) = isOnGround this
  /\ mode (slideX hb this obj) = mode this.
Proof.
  unfold slideX.
  destruct (negb _); [tauto|]. destruct (collides _ obj); simpl; tauto.
Qed.

Lemma slideX_all_fields (hb : Rect.t) (candidates : list Obj.t) (this : Player) :
  y (slideX_all hb candidates this) = y this
  /\ vx (slideX_all hb candidates this) = vx this
  /\ vy (slideX_all hb candidates this) = vy this
  /\ isOnGround (slideX_all hb candidates this) = isOnGround this
  /\ mode (slideX_all hb candidates this) = mode this.
Proof.
  unfold slideX_all. revert this.
  induction candidates as [|obj rest IH]; intros this; simpl; [tauto|].
  destruct (IH (slideX hb this obj)) as (-> & -> & -> & -> & ->).
  apply slideX_fields.
Qed.

(** The X slide steps through the whole list: the last candidate is handled
    from the position that the earlier ones left. *)
Lemma slideX_all_snoc (hb : Rect.t) (candidates : list Obj.t) (obj : Obj.t)
    (this : Player) :
  slideX_all hb (candidates ++ [obj]) this
  = slideX hb (slideX_all hb candidates this) obj.
Proof. unfold slideX_all. now rewrite fold_left_app. Qed.

(** The Y pass leaves [vy] alone or sets it to 0; it can set [isOnGround]
    but it never clears it. *)
Lemma resolveY_vy (hb : Rect.t) (candidates : list Obj.t) (this : Player) :
  vy (resolveY hb candidates this) = vy this
  \/ vy (resolveY hb candidates this) = 0.
Proof.
  induction candidates as [|obj rest IH]; simpl; [now left|].
  destruct (negb _); [assumption|].
  destruct (collides _ obj); [|assumption].
  destruct (JS.gt _ _); now right.
Qed.

Lemma resolveY_isOnGround (hb : Rect.t) (candidates : list Obj.t)
    (this : Player) :
  isOnGround this = true -> isOnGround (resolveY hb candidates this) = true.
Proof.
  intros Hg. induction candidates as [|obj rest IH]; simpl; [assumption|].
  destruct (negb _); [assumption|].
  destruct (collides _ obj); [|assumption].
  destruct (JS.gt _ _); [reflexivity|assumption].
Qed.

Lemma resolveY_mode (hb : Rect.t) (candidates : list Obj.t) (this : Player) :
  mode (resolveY hb candidates this) = mode this.
Proof.
  induction candidates as [|obj rest IH]; simpl; [reflexivity|].
  destruct (negb _); [assumption|].
  destruct (collides _ obj); [|assumption].
  destruct (JS.gt _ _); reflexivity.
Qed.

(** An [interact] that keeps a field keeps it over the whole third loop. *)
Lemma interact_all_invariant {A : Type} (f : World -> A) (hb : Rect.t)
    (candidates : list Obj.t) (w : World) :
  (forall w' obj, f (interact w' obj) = f w') ->
  f (interact_all hb candidates w) = f w.
Proof.
  intros Hf. unfold interact_all. revert w.
  induction candidates as [|obj rest IH]; intros w; simpl; [reflexivity|].
  rewrite IH. unfold interactOne. destruct (collides hb obj); auto.
Qed.

(** When no box with a NaN [y] collides, a player whose [y] is NaN goes
    through [updateCollisions] unchanged. *)
Lemma getHitbox_y_nan (this : Player) :
  y this = nan -> Rect.y (getHitbox this) = nan.
Proof.
  intros Hy. unfold getHitbox. simpl. rewrite Hy.
  now rewrite FloatFacts.sub_nan_l, FloatFacts.add_nan_l.
Qed.

Lemma updateCollisions_y_nan (dt : float) (w : World) :
  (forall b obj, is_nan (Rect.y b) = true -> collides b obj = false) ->
  y (player w) = nan ->
  updateCollisions dt w = w.
Proof.
  intros Hc Hy. unfold updateCollisions.
  pose proof (getHitbox_y_nan _ Hy) as Hhb.
  set (hb := getHitbox (player w)) in *.
  generalize (quadTree (game w) hb). intros candidates. clearbody hb.
  assert (slideX_all hb candidates (player w) = player w) as ->.
  { unfold slideX_all. induction candidates as [|obj rest IH]; simpl; [reflexivity|].
    unfold slideX at 2. rewrite Hc by (simpl; now rewrite Hhb).
    now destruct (negb _). }
  assert (resolveY hb candidates (player w) = player w) as ->.
  { induction candidates as [|obj rest IH]; simpl; [reflexivity|].
    rewrite Hc by (simpl; now rewrite Hy).
    now destruct (negb _). }
  assert (set_player (player w) w = w) as -> by now destruct w.
  unfold interact_all. induction candidates as [|obj rest IH]; simpl; [reflexivity|].
  unfold interactOne at 2. rewrite Hc by now rewrite Hhb. assumption.
Qed.

End CollisionFacts.

(** ** The table, read *)

Section TableFacts.
Import Table.
Local Open Scope float_scope.

Lemma MODES_get_cube : MODES_get "cube" = Some cube.
Proof. reflexivity. Qed.
Lemma MODES_get_ship : MODES_get "ship" = Some ship.
Proof. reflexivity. Qed.
Lemma MODES_get_ball : MODES_get "ball" = Some ball.
Proof. reflexivity. Qed.
Lemma MODES_get_ufo : MODES_get "ufo" = Some ufo.
Proof. reflexivity. Qed.
Lemma MODES_get_wave : MODES_get "wave" = Some wave.
Proof. reflexivity. Qed.
Lemma MODES_get_robot : MODES_get "robot" = Some robot.
Proof. reflexivity. Qed.
Lemma MODES_get_spider : MODES_get "spider" = Some spider.
Proof. reflexivity. Qed.
Lemma MODES_get_swing : MODES_get "swing" = Some swing.
Proof. reflexivity. Qed.

Lemma prop_wave_ampHold : prop wave "ampHold" = -1.35.
Proof. reflexivity. Qed.
Lemma prop_wave_ampNoHold : prop wave "ampNoHold" = 1.35.
Proof. reflexivity. Qed.
Lemma prop_ufo_vyClamp : prop ufo "vyClamp" = 8.
Proof. reflexivity. Qed.

End TableFacts.

(** ** [integrate], stage by stage *)

Section IntegrateFacts.
Context `{Host}.
Local Open Scope float_scope.

Lemma integrate_vy (dt : float) (modeData : ModeEntry) (w : World) :
  vy (player (integrate dt modeData w))
  = vy (player (afterSwitch dt modeData w)).
Proof.
  unfold integrate. cbv zeta.
  generalize (afterSwitch dt modeData w). now intros [[] ?].
Qed.

Lemma integrate_y (dt : float) (modeData : ModeEntry) (w : World) :
  y (player (integrate dt modeData w))
  = y (player (afterSwitch dt modeData w))
    + vy (player (afterSwitch dt modeData w)) * dt.
Proof.
  unfold integrate. cbv zeta.
  generalize (afterSwitch dt modeData w). now intros [[] ?].
Qed.


(** The fields of the world that enters the [switch]. *)
Lemma beforeSwitch_fields (dt : float) (modeData : ModeEntry) (w : World) :
  game (beforeSwitch dt modeData w) = game w
  /\ mode (player (beforeSwitch dt modeData w)) = mode (player w)
  /\ mini (player (beforeSwitch dt modeData w)) = mini (player w)
  /\ flipY (player (beforeSwitch dt modeData w)) = flipY (player w)
  /\ isOnGround (player (beforeSwitch dt modeData w)) = isOnGround (player w)
  /\ y (player (beforeSwitch dt modeData w)) = y (player w)
  /\ vy (player (beforeSwitch dt modeData w))
     = vy (player w) + gravity modeData (player w) * flipY (player w) * dt.
Proof.
  unfold beforeSwitch. cbv zeta.
  generalize (gravity modeData (player w)) (60 * dt) (prop modeData "vx").
  unfold moveX. generalize (prop modeData "vx").
  destruct w as [[] g]; cbn [player game]. intros.
  unfold sampleInput. now destruct (inputNow g).
Qed.


(** The branch of the [switch] that a mode selects. *)
Ltac eval_mode_tests :=
  repeat match goal with
         | |- context [String.eqb ?a ?b] =>
             let v := eval vm_compute in (String.eqb a b) in
             change (String.eqb a b) with v
         end;
  cbn [orb]; cbv iota.

Ltac switch_on Hmode :=
  unfold modeSwitch; cbv zeta; rewrite Hmode; eval_mode_tests.

Lemma modeSwitch_ufo_vy (dt : float) (modeData : ModeEntry) (mfJ : float)
    (pressed holding : bool) (w : World) :
  mode (player w) = "ufo" ->
  vy (player (modeSwitch dt modeData mfJ pressed holding w))
  = JS.Math_max (- prop modeData "vyClamp" * speedMult (game w))
      (JS.Math_min (prop modeData "vyClamp" * speedMult (game w))
         (if pressed then - prop modeData "jump" * mfJ * flipY (player w)
          else vy (player w))).
Proof.
  intros Hmode. switch_on Hmode.
  generalize (prop modeData "vyClamp") (prop modeData "jump").
  destruct w as [[] g]; cbn [player game]. intros.
  now destruct pressed.
Qed.

Lemma modeSwitch_wave_vy (dt : float) (modeData : ModeEntry) (mfJ : float)
    (pressed holding : bool) (w : World) :
  mode (player w) = "wave" ->
  vy (player (modeSwitch dt modeData mfJ pressed holding w))
  = flipY (player w)
    * (if holding then - prop modeData "ampHold" else prop modeData "ampNoHold")
    * speedMult (game w).
Proof.
  intros Hmode. switch_on Hmode.
  generalize (prop modeData "ampHold") (prop modeData "ampNoHold").
  destruct w as [[] g]; cbn [player game]. intros.
  reflexivity.
Qed.

Lemma modeSwitch_spider (dt : float) (modeData : ModeEntry) (mfJ : float)
    (holding : bool) (w : World) :
  mode (player w) = "spider" ->
  (flipY (player (modeSwitch dt modeData mfJ false holding w))
   = flipY (player w)
   /\ vy (player (modeSwitch dt modeData mfJ false holding w))
      = vy (player w) * prop modeData "decay")
  /\ (flipY (player (modeSwitch dt modeData mfJ true holding w))
      = flipY (player w) * -1
      /\ vy (player (modeSwitch dt modeData mfJ true holding w))
         = - prop modeData "jump" * (flipY (player w) * -1)).
Proof.
  intros Hmode. switch_on Hmode.
  generalize (prop modeData "decay") (prop modeData "jump").
  destruct w as [[] g]; cbn [player game]. intros. repeat split; reflexivity.
Qed.

Lemma modeSwitch_ship_swing_vy (dt : float) (modeData : ModeEntry)
    (mfJ : float) (pressed holding : bool) (w : World) :
  mode (player w) = "ship" \/ mode (player w) = "swing" ->
  vy (player (modeSwitch dt modeData mfJ pressed holding w))
  = vy (player w)
    + (if holding then - prop modeData "thrustHold"
       else prop modeData "thrustNoHold") * speedMult (game w) * dt.
Proof.
  intros [Hmode|Hmode]; switch_on Hmode;
    generalize (prop modeData "thrustHold") (prop modeData "thrustNoHold");
    destruct w as [[] g]; cbn [player game]; intros; reflexivity.
Qed.

Lemma modeSwitch_ball_vy (dt : float) (modeData : ModeEntry) (mfJ : float)
    (pressed holding : bool) (w : World) :
  mode (player w) = "ball" ->
  vy (player (modeSwitch dt modeData mfJ pressed holding w)) = vy (player w).
Proof.
  intros Hmode. switch_on Hmode.
  generalize (prop modeData "rotSpeed").
  destruct w as [[] g]; cbn [player game]. intros. now destruct pressed.
Qed.

(** The robot branch. *)
Lemma modeSwitch_robot_vy (dt : float) (modeData : ModeEntry) (mfJ : float)
    (holding : bool) (w : World) :
  mode (player w) = "robot" ->
  isOnGround (player w) = true ->
  vy (player (modeSwitch dt modeData mfJ true holding w))
  = - (JS.Math_min (holdTime (player w)) 20 / 20
       * (prop modeData "jumpMax" - prop modeData "jumpBase")
       + prop modeData "jumpBase") * mfJ * flipY (player w).
Proof.
  intros Hmode Hground. switch_on Hmode. rewrite Hground. cbn [andb].
  generalize (prop modeData "jumpMax") (prop modeData "jumpBase").
  destruct w as [[] g]; cbn [player game]. intros. reflexivity.
Qed.

(** What the [switch] leaves alone in every mode. *)
Lemma modeSwitch_fields (dt : float) (modeData : ModeEntry) (mfJ : float)
    (pressed holding : bool) (w : World) :
  y (player (modeSwitch dt modeData mfJ pressed holding w)) = y (player w)
  /\ isOnGround (player (modeSwitch dt modeData mfJ pressed holding w))
     = isOnGround (player w)
  /\ lastInput (player (modeSwitch dt modeData mfJ pressed holding w))
     = lastInput (player w)
  /\ holdTime (player (modeSwitch dt modeData mfJ pressed holding w))
     = holdTime (player w)
  /\ trail (player (modeSwitch dt modeData mfJ pressed holding w))
     = trail (player w).
Proof.
  unfold modeSwitch; cbv zeta.
  generalize (prop modeData "vyClamp") (prop modeData "jump")
    (prop modeData "decay") (prop modeData "thrustHold")
    (prop modeData "thrustNoHold") (prop modeData "rotSpeed")
    (prop modeData "ampHold") (prop modeData "ampNoHold")
    (prop modeData "rotGround") (prop modeData "rotAir")
    (prop modeData "jumpMax") (prop modeData "jumpBase").
  intros.
  destruct w as [[x0 y0 vx0 vy0 rot0 m0 mini0 mir0 flip0 grd0 last0 hold0
                    t0 tr0] g0]; cbn [player game mode].
  destruct (String.eqb m0 "cube");
    [destruct (pressed && _); now repeat split|].
  destruct (String.eqb m0 "ship" || String.eqb m0 "swing");
    [now repeat split|].
  destruct (String.eqb m0 "ball"); [destruct pressed; now repeat split|].
  destruct (String.eqb m0 "ufo"); [destruct pressed; now repeat split|].
  destruct (String.eqb m0 "wave"); [now repeat split|].
  destruct (String.eqb m0 "robot");
    [destruct (pressed && _); now repeat split|].
  destruct (String.eqb m0 "spider"); [destruct pressed; now repeat split|].
  now repeat split.
Qed.

(** The input sampling: [lastInput] and [holdTime] on entry to the
    [switch]. *)
Lemma beforeSwitch_hold (dt : float) (modeData : ModeEntry) (w : World) :
  lastInput (player (beforeSwitch dt modeData w)) = inputNow (game w)
  /\ holdTime (player (beforeSwitch dt modeData w))
     = if inputNow (game w) then holdTime (player w) + 60 * dt else 0.
Proof.
  unfold beforeSwitch. cbv zeta.
  generalize (gravity modeData (player w)) (60 * dt).
  unfold moveX. generalize (prop modeData "vx").
  destruct w as [[] g]; cbn [player game]. intros.
  unfold sampleInput. now destruct (inputNow g).
Qed.

(** [integrate] on the fields that the Y integration leaves alone. *)
Lemma integrate_fields (dt : float) (modeData : ModeEntry) (w : World) :
  isOnGround (player (integrate dt modeData w)) = isOnGround (player w)
  /\ trail (player (integrate dt modeData w)) = trail (player w)
  /\ lastInput (player (integrate dt modeData w)) = inputNow (game w)
  /\ holdTime (player (integrate dt modeData w))
     = if inputNow (game w) then holdTime (player w) + 60 * dt else 0.
Proof.
  assert (isOnGround (player (integrate dt modeData w))
          = isOnGround (player (afterSwitch dt modeData w))
          /\ trail (player (integrate dt modeData w))
             = trail (player (afterSwitch dt modeData w))
          /\ lastInput (player (integrate dt modeData w))
             = lastInput (player (afterSwitch dt modeData w))
          /\ holdTime (player (integrate dt modeData w))
             = holdTime (player (afterSwitch dt modeData w)))
    as (-> & -> & -> & ->).
  { unfold integrate. cbv zeta.
    generalize (afterSwitch dt modeData w). now intros [[] ?]. }
  unfold afterSwitch.
  destruct (modeSwitch_fields dt modeData (miniFactorJ modeData (player w))
              (justPressed w) (inputNow (game w)) (beforeSwitch dt modeData w))
    as (_ & -> & -> & -> & ->).
  destruct (beforeSwitch_fields dt modeData w) as (_ & _ & _ & _ & Hg & _).
  destruct (beforeSwitch_hold dt modeData w) as [Hl Hh].
  split; [exact Hg|]. split; [|split; assumption].
  unfold beforeSwitch. cbv zeta.
  generalize (gravity modeData (player w)) (60 * dt).
  unfold moveX. generalize (prop modeData "vx").
  destruct w as [[] g]; cbn [player game]. intros.
  unfold sampleInput. now destruct (inputNow g).
Qed.

End IntegrateFacts.

(** ** The tick as a whole *)

Section TickFacts.
Context `{Host}.
Local Open Scope float_scope.

Lemma player_set_player (p : Player) (w : World) : player (set_player p w) = p.
Proof. reflexivity. Qed.

Lemma fixedPhysics_Normal (dt : float) (modeData : ModeEntry) (w : World) :
  MODES_get (mode (player w)) = Some modeData ->
  fixedPhysics dt w
  = Normal (set_player
              (trailUpdate
                 (postCollision
                    (player (updateCollisions dt (integrate dt modeData w)))))
              (updateCollisions dt (integrate dt modeData w))).
Proof. intros Hget. unfold fixedPhysics. now rewrite Hget. Qed.

Lemma fixedPhysics_Throw (dt : float) (w : World) :
  MODES_get (mode (player w)) = None -> fixedPhysics dt w = Throw "TypeError".
Proof. intros Hget. unfold fixedPhysics. now rewrite Hget. Qed.

Lemma postCollision_fields (this : Player) :
  x (postCollision this) = x this
  /\ y (postCollision this) = y this
  /\ vy (postCollision this) = vy this
  /\ trail (postCollision this) = trail this
  /\ isOnGround (postCollision this) = isOnGround this.
Proof.
  unfold postCollision. generalize (JS.rem (rotation this) 360).
  destruct this as [? ? ? ? ? m ? ? ? ? ? ? ? ?]; cbn [mode]. intros.
  destruct (String.eqb m "cube"); now repeat split.
Qed.

Lemma postCollision_cube (this : Player) :
  mode this = "cube" ->
  rotation (postCollision this) = JS.rem (rotation this) 360.
Proof.
  intros Hmode. unfold postCollision. rewrite Hmode.
  generalize (JS.rem (rotation this) 360). now destruct this.
Qed.

Lemma trailUpdate_fields (this : Player) :
  x (trailUpdate this) = x this
  /\ y (trailUpdate this) = y this
  /\ vy (trailUpdate this) = vy this
  /\ rotation (trailUpdate this) = rotation this
  /\ isOnGround (trailUpdate this) = isOnGround this.
Proof. now destruct this. Qed.

Lemma resolveY_x_trail (hb : Rect.t) (candidates : list Obj.t) (this : Player) :
  x (resolveY hb candidates this) = x this
  /\ trail (resolveY hb candidates this) = trail this.
Proof.
  induction candidates as [|obj rest IH]; simpl; [now split|].
  destruct (negb _); [assumption|].
  destruct (collides _ obj); [|assumption].
  destruct (JS.gt _ _); now split.
Qed.

Lemma slideX_all_trail (hb : Rect.t) (candidates : list Obj.t) (this : Player) :
  trail (slideX_all hb candidates this) = trail this.
Proof.
  unfold slideX_all. revert this.
  induction candidates as [|obj rest IH]; intros this; simpl; [reflexivity|].
  rewrite IH. unfold slideX.
  destruct (negb _); [reflexivity|]. now destruct (collides _ obj).
Qed.

(** [vy] over the collision pass: kept, or set to 0 by the Y pass. *)
Lemma updateCollisions_vy (dt : float) (w : World) :
  (forall w0 obj, vy (player (interact w0 obj)) = vy (player w0)) ->
  vy (player (updateCollisions dt w)) = vy (player w)
  \/ vy (player (updateCollisions dt w)) = 0.
Proof.
  intros Hi. unfold updateCollisions. cbv zeta.
  rewrite (interact_all_invariant (fun w0 => vy (player w0))) by assumption.
  rewrite player_set_player.
  destruct (resolveY_vy (getHitbox (player w))
              (quadTree (game w) (getHitbox (player w)))
              (slideX_all (getHitbox (player w))
                 (quadTree (game w) (getHitbox (player w))) (player w)))
    as [-> | ->]; [left|now right].
  apply slideX_all_fields.
Qed.

(** The trail over [integrate] and over the collision pass. *)
Lemma integrate_trail (dt : float) (modeData : ModeEntry) (w : World) :
  trail (player (integrate dt modeData w)) = trail (player w).
Proof. apply integrate_fields. Qed.

Lemma updateCollisions_trail (dt : float) (w : World) :
  (forall w0 obj, trail (player (interact w0 obj)) = trail (player w0)) ->
  trail (player (updateCollisions dt w)) = trail (player w).
Proof.
  intros Hi. unfold updateCollisions. cbv zeta.
  rewrite (interact_all_invariant (fun w0 => trail (player w0))) by assumption.
  rewrite player_set_player.
  destruct (resolveY_x_trail (getHitbox (player w))
              (quadTree (game w) (getHitbox (player w)))
              (slideX_all (getHitbox (player w))
                 (quadTree (game w) (getHitbox (player w))) (player w)))
    as [_ ->].
  apply slideX_all_trail.
Qed.

(** [x] over the collision pass is what the X slide left. *)
Lemma updateCollisions_x (dt : float) (w : World) :
  (forall w0 obj, x (player (interact w0 obj)) = x (player w0)) ->
  x (player (updateCollisions dt w))
  = x (slideX_all (getHitbox (player w))
         (quadTree (game w) (getHitbox (player w))) (player w)).
Proof.
  intros Hi. unfold updateCollisions. cbv zeta.
  rewrite (interact_all_invariant (fun w0 => x (player w0))) by assumption.
  rewrite player_set_player. apply resolveY_x_trail.
Qed.

(** [isOnGround] is set and never cleared: over the collision pass, and over
    the whole tick, a flag that is true stays true. *)
Lemma updateCollisions_isOnGround (dt : float) (w : World) :
  (forall w0 obj,
     isOnGround (player (interact w0 obj)) = isOnGround (player w0)) ->
  isOnGround (player w) = true ->
  isOnGround (player (updateCollisions dt w)) = true.
Proof.
  intros Hi Hg. unfold updateCollisions. cbv zeta.
  rewrite (interact_all_invariant (fun w0 => isOnGround (player w0)))
    by assumption.
  rewrite player_set_player. apply resolveY_isOnGround.
  destruct (slideX_all_fields (getHitbox (player w))
              (quadTree (game w) (getHitbox (player w))) (player w))
    as (_ & _ & _ & -> & _).
  assumption.
Qed.

Lemma fixedPhysics_keeps_isOnGround (dt : float) (w w' : World) :
  (forall w0 obj,
     isOnGround (player (interact w0 obj)) = isOnGround (player w0)) ->
  fixedPhysics dt w = Normal w' ->
  isOnGround (player w) = true ->
  isOnGround (player w') = true.
Proof.
  intros Hi. unfold fixedPhysics.
  destruct (MODES_get (mode (player w))) as [modeData|]; [|discriminate].
  cbv zeta. intros [= <-] Hg.
  destruct (integrate_fields dt modeData w) as (Hinteg & _).
  rewrite <- Hinteg in Hg. clear Hinteg.
  generalize dependent (integrate dt modeData w). intros w1 Hg.
  pose proof (updateCollisions_isOnGround dt w1 Hi Hg) as Hcol.
  generalize dependent (updateCollisions dt w1). intros w2 Hcol.
  cbn [player set_player].
  destruct (trailUpdate_fields (postCollision (player w2)))
    as (_ & _ & _ & _ & ->).
  destruct (postCollision_fields (player w2)) as (_ & _ & _ & _ & ->).
  assumption.
Qed.

(** The robot on a tick whose key goes down, after a tick with the key up
    (which leaves [lastInput = false] and [holdTime = 0]): the jump takes the
    charge of one frame. *)
Lemma robot_jump_after_release (dt : float) (w : World) :
  mode (player w) = "robot" ->
  mini (player w) = false ->
  isOnGround (player w) = true ->
  lastInput (player w) = false ->
  holdTime (player w) = 0 ->
  inputNow (game w) = true ->
  vy (player (integrate dt Table.robot w))
  = - (JS.Math_min (0 + 60 * dt) 20 / 20 * (16.0 - 10.34) + 10.34)
    * 1.0 * flipY (player w).
Proof.
  intros Hmode Hmini Hground Hlast Hhold Hinput.
  rewrite integrate_vy. unfold afterSwitch, justPressed, miniFactorJ.
  rewrite Hinput, Hlast, Hmini. cbn [andb negb].
  destruct (beforeSwitch_fields dt Table.robot w)
    as (_ & Hmode' & _ & Hflip & Hground' & _).
  destruct (beforeSwitch_hold dt Table.robot w) as [_ Hhold'].
  rewrite modeSwitch_robot_vy by congruence.
  rewrite Hhold', Hinput, Hhold, Hflip. reflexivity.
Qed.

End TickFacts.

(** * The claims *)

Section Claims.
Import Table Scenario FloatFacts.
Local Open Scope float_scope.

(** ** C1: the ground flag *)

(** C1 (the code departs from the claim). [fixedPhysics] and
    [updateCollisions] never assign [false] to [isOnGround]: the only
    assignment is [isOnGround = true] at a floor hit. Whatever [collides] and
    [interact] are: a cube in mid-air whose flag is set, with no candidate
    around it, falls for a tick in which nothing is tested and nothing
    touched, and the flag is still set at the end of it; a key press on the
    next tick makes it jump in mid-air. The claim says that the flag is reset
    at the start of each Y pass and is true after a tick only if that tick's Y
    resolution landed on a floor. *)
Theorem C1_isOnGround_is_never_cleared `{Host} :
  isOnGround (player flaggedInMidAir) = true
  /\ (forall region, quadTree (game flaggedInMidAir) region = [])
  /\ exists w1,
       fixedPhysics FIXED_DT flaggedInMidAir = Normal w1
       /\ (y (player flaggedInMidAir) <? y (player w1)) = true
       /\ (0 <? vy (player w1)) = true
       /\ isOnGround (player w1) = true
       /\ exists w2,
            fixedPhysics FIXED_DT (set_frame held w1) = Normal w2
            /\ vy (player w2) = -12
            /\ isOnGround (player w2) = true.
Proof.
  split; [reflexivity|]. split; [reflexivity|].
  eexists. split; [vm_compute; reflexivity|].
  repeat (split; [reflexivity|]).
  eexists. split; [vm_compute; reflexivity|]. split; reflexivity.
Qed.

(** ** C2: looking up a mode *)

Lemma own_property_MODES_None (k : string) :
  ~ In k mode_names -> own_property MODES k = None.
Proof.
  intros Hk. unfold MODES. cbn [own_property].
  repeat match goal with
         | |- context [String.eqb k ?n] =>
             destruct (String.eqb_spec k n) as [->|_];
             [exfalso; apply Hk; simpl; tauto|]
         end.
  reflexivity.
Qed.

Lemma existsb_eqb_In (k : string) (names : list string) :
  existsb (String.eqb k) names = true <-> In k names.
Proof.
  rewrite existsb_exists. split.
  - intros (n & Hn & Heq). apply String.eqb_eq in Heq. now subst.
  - intros Hk. exists k. split; [assumption|apply String.eqb_refl].
Qed.

(** C2, counterexample to the claim as stated: for the identifier ["plane"],
    which is none of the eight, [MODES["plane"]] is [undefined] and the tick
    ends with a [TypeError], not with an [UnknownModeError]; and for the
    identifier ["toString"], which is none of the eight either, the lookup
    gives the member that [MODES] inherits under that name, and nothing
    fails. *)
Lemma C2_no_UnknownModeError :
  ~ In "plane" mode_names
  /\ MODES_get "plane" = None
  /\ fixedPhysics (H := Standard.host) FIXED_DT planePlayer = Throw "TypeError"
  /\ fixedPhysics (H := Standard.host) FIXED_DT planePlayer
     <> Throw "UnknownModeError"
  /\ ~ In "toString" mode_names
  /\ MODES_get "toString" = Some inherited_member
  /\ exists w',
       fixedPhysics (H := Standard.host) FIXED_DT
         (mkWorld (playerAt0 "toString" false false false) (emptyLevel noKeys))
       = Normal w'.
Proof.
  split; [simpl; intuition discriminate|].
  split; [reflexivity|]. split; [reflexivity|].
  split.
  { change (fixedPhysics FIXED_DT planePlayer) with (@Throw World "TypeError").
    discriminate. }
  split; [simpl; intuition discriminate|].
  split; [reflexivity|].
  eexists. vm_compute. reflexivity.
Qed.

(** C2 (amended). For every mode identifier that is none of the eight and
    names no member that [MODES] inherits from [Object.prototype], the lookup
    [MODES[k]] gives [undefined] without failing, and [fixedPhysics] then
    fails with a [TypeError], rather than going on with a default; for an
    identifier that names an inherited member the lookup gives that member;
    for each of the eight defined identifiers the lookup succeeds and gives
    its entry of the table. *)
Theorem C2_MODES_lookup `{Host} (k : string) :
  (In k mode_names ->
   exists modeData,
     own_property MODES k = Some modeData /\ MODES_get k = Some modeData)
  /\ (~ In k mode_names -> ~ In k Object_prototype_names ->
      MODES_get k = None
      /\ forall dt w, mode (player w) = k -> fixedPhysics dt w = Throw "TypeError")
  /\ (~ In k mode_names -> In k Object_prototype_names ->
      MODES_get k = Some inherited_member).
Proof.
  split; [|split].
  - intros Hk. simpl in Hk.
    destruct Hk as [<-|[<-|[<-|[<-|[<-|[<-|[<-|[<-|[]]]]]]]]];
      eexists; (split; reflexivity).
  - intros Hk Hp.
    assert (MODES_get k = None) as Hget.
    { unfold MODES_get. rewrite own_property_MODES_None by assumption.
      destruct (existsb _ _) eqn:E; [|reflexivity].
      now apply existsb_eqb_In in E. }
    split; [assumption|].
    intros dt w Hw. apply fixedPhysics_Throw. now rewrite Hw.
  - intros Hk Hp. unfold MODES_get.
    rewrite own_property_MODES_None by assumption.
    apply existsb_eqb_In in Hp. now rewrite Hp.
Qed.

Lemma C2_MODES_lookup_witness :
  MODES_get "plane" = None
  /\ fixedPhysics (H := Standard.host) FIXED_DT planePlayer = Throw "TypeError".
Proof.
  destruct (C2_MODES_lookup (H := Standard.host) "plane") as (_ & Hundef & _).
  destruct Hundef as [Hget Hthrow].
  - simpl. intuition discriminate.
  - simpl. intuition discriminate.
  - split; [exact Hget|]. apply Hthrow. reflexivity.
Defined.


(** ** C3: a mini player in a mode without [miniGravity] *)

Lemma gravity_nan (modeData : ModeEntry) (this : Player) :
  mini this = true ->
  In modeData [ship; ball; wave; spider; swing] ->
  gravity modeData this = nan.
Proof.
  intros Hmini Hin. unfold gravity, miniFactorG. rewrite Hmini.
  destruct Hin as [<-|[<-|[<-|[<-|[<-|[]]]]]]; reflexivity.
Qed.

(** C3, counterexample to the claim as stated: a mini spider on the tick where
    the key goes down ([justPressed]) leaves the tick with [vy = 11.5] and a
    finite [y]: the spider branch overwrites the NaN with the jump velocity. *)
Lemma C3_mini_spider_jump_is_a_number :
  mini (player miniSpiderPressed) = true
  /\ mode (player miniSpiderPressed) = "spider"
  /\ exists w',
       fixedPhysics (H := Standard.host) FIXED_DT miniSpiderPressed = Normal w'
       /\ vy (player w') = 11.5
       /\ is_nan (vy (player w')) = false
       /\ is_nan (y (player w')) = false.
Proof.
  split; [reflexivity|]. split; [reflexivity|].
  eexists. split; [vm_compute; reflexivity|]. repeat split; reflexivity.
Qed.

(** C3 (amended). For a mini player in ship, ball, wave, spider or swing mode
    the gravity step leaves NaN in [vy]. For ship, ball and swing, and for
    spider on a tick without [justPressed], [vy] and [y] are NaN after the Y
    integration, and they are still NaN at the end of the tick whenever the
    overlap test rejects a box whose [y] is NaN (as a test made of [<]
    comparisons does). *)
Theorem C3_mini_gravity_NaN `{Host} (dt : float) (w : World)
    (modeData : ModeEntry) :
  mini (player w) = true ->
  In (mode (player w)) ["ship"; "ball"; "wave"; "spider"; "swing"] ->
  MODES_get (mode (player w)) = Some modeData ->
  vy (player (beforeSwitch dt modeData w)) = nan
  /\ (mode (player w) <> "wave" ->
      (mode (player w) = "spider" -> justPressed w = false) ->
      vy (player (integrate dt modeData w)) = nan
      /\ y (player (integrate dt modeData w)) = nan
      /\ ((forall b obj, is_nan (Rect.y b) = true -> collides b obj = false) ->
          exists w',
            fixedPhysics dt w = Normal w'
            /\ vy (player w') = nan /\ y (player w') = nan)).
Proof.
  intros Hmini Hin Hget.
  destruct (beforeSwitch_fields dt modeData w)
    as (Hgame & Hmode & _ & Hflip & _ & Hy & Hvy).
  assert (In modeData [ship; ball; wave; spider; swing]) as Hentry.
  { simpl in Hin |- *.
    destruct Hin as [E|[E|[E|[E|[E|[]]]]]]; rewrite <- E in Hget;
      injection Hget as <-; tauto. }
  assert (vy (player (beforeSwitch dt modeData w)) = nan) as Hfall.
  { rewrite Hvy, (gravity_nan modeData (player w) Hmini Hentry).
    now rewrite !mul_nan_l, add_nan_r. }
  split; [assumption|].
  intros Hwave Hspider.
  assert (vy (player (afterSwitch dt modeData w)) = nan) as Hvy'.
  { unfold afterSwitch. simpl in Hin.
    destruct Hin as [E|[E|[E|[E|[E|[]]]]]]; symmetry in E.
    - rewrite modeSwitch_ship_swing_vy by (left; congruence).
      now rewrite Hfall, add_nan_l.
    - rewrite modeSwitch_ball_vy by congruence. assumption.
    - contradiction.
    - rewrite (Hspider E).
      destruct (modeSwitch_spider dt modeData (miniFactorJ modeData (player w))
                  (inputNow (game w)) (beforeSwitch dt modeData w))
        as [[_ ->] _]; [congruence|].
      now rewrite Hfall, mul_nan_l.
    - rewrite modeSwitch_ship_swing_vy by (right; congruence).
      now rewrite Hfall, add_nan_l. }
  assert (y (player (integrate dt modeData w)) = nan) as Hy'.
  { now rewrite integrate_y, Hvy', mul_nan_l, add_nan_r. }
  split; [now rewrite integrate_vy|]. split; [assumption|].
  clear Hfall Hgame Hmode Hflip Hy Hvy.
  intros Hc. rewrite (fixedPhysics_Normal dt modeData w Hget).
  rewrite <- integrate_vy in Hvy'.
  generalize dependent (integrate dt modeData w). intros w1 Hvy1 Hy1.
  eexists. split; [reflexivity|].
  rewrite (updateCollisions_y_nan dt w1 Hc Hy1). cbn [player set_player].
  destruct (trailUpdate_fields (postCollision (player w1)))
    as (_ & -> & -> & _).
  destruct (postCollision_fields (player w1)) as (_ & -> & -> & _).
  now split.
Qed.

Lemma C3_mini_gravity_NaN_witness :
  vy (player (integrate (H := Standard.host) FIXED_DT ship miniShip)) = nan
  /\ exists w',
       fixedPhysics (H := Standard.host) FIXED_DT miniShip = Normal w'
       /\ vy (player w') = nan /\ y (player w') = nan.
Proof.
  destruct (C3_mini_gravity_NaN (H := Standard.host) FIXED_DT miniShip ship)
    as [_ Hrest].
  - reflexivity.
  - simpl. tauto.
  - reflexivity.
  - destruct Hrest as (Hvy & _ & Hend).
    + discriminate.
    + discriminate.
    + split; [exact Hvy|]. apply Hend.
      intros b obj Hb. unfold collides, Standard.host, Standard.aabb.
      apply is_nan_true in Hb. rewrite Hb, ltb_nan_l, add_nan_l, ltb_nan_r.
      now rewrite !andb_false_r.
Defined.

(** ** C4: the rotation of the cube *)

(** C4, counterexample to the claim as stated: a mirrored cube, whose
    rotation increment is negative, starts a tick at rotation 0 and ends it at
    rotation -3, outside [[0, 360)]. *)
Lemma C4_mirrored_cube_rotation_negative :
  mirror (player mirroredCube) = true
  /\ rotation (player mirroredCube) = 0
  /\ exists w',
       fixedPhysics (H := Standard.host) FIXED_DT mirroredCube = Normal w'
       /\ mode (player w') = "cube"
       /\ rotation (player w') = -3
       /\ (rotation (player w') <? 0) = true.
Proof.
  split; [reflexivity|]. split; [reflexivity|].
  eexists. split; [vm_compute; reflexivity|]. repeat split; reflexivity.
Qed.

(** C4 (amended). When the player is in cube mode at the post-collision
    step, the rotation at the end of the tick is the remainder by 360 of the
    rotation before that step, and the remainder keeps the sign of its left
    operand: for a finite rotation, the result lies in [[0, 360)] when the
    rotation before the step is not negative, and in [(-360, 0]] when it is
    not positive (as it is for a mirrored cube). *)
Theorem C4_cube_rotation_range `{Host} (dt : float) (w : World)
    (modeData : ModeEntry) :
  MODES_get (mode (player w)) = Some modeData ->
  mode (player (updateCollisions dt (integrate dt modeData w))) = "cube" ->
  let before :=
    rotation (player (updateCollisions dt (integrate dt modeData w))) in
  exists w',
    fixedPhysics dt w = Normal w'
    /\ rotation (player w') = JS.rem before 360
    /\ (is_finite before = true ->
        (abs (rotation (player w')) <? 360) = true
        /\ ((0 <=? before) = true ->
            (0 <=? rotation (player w')) = true
            /\ (rotation (player w') <? 360) = true)
        /\ ((before <=? 0) = true ->
            (-360 <? rotation (player w')) = true
            /\ (rotation (player w') <=? 0) = true)).
Proof.
  intros Hget. rewrite (fixedPhysics_Normal dt modeData w Hget).
  generalize (updateCollisions dt (integrate dt modeData w)).
  intros w2 Hmode before. subst before.
  eexists. split; [reflexivity|]. cbn [player set_player].
  destruct (trailUpdate_fields (postCollision (player w2)))
    as (_ & _ & _ & -> & _).
  rewrite (postCollision_cube (player w2) Hmode).
  split; [reflexivity|].
  intros Hfin.
  eapply (rem_range (rotation (player w2)) 360); [vm_compute; reflexivity|].
  exact Hfin.
Qed.

Lemma C4_cube_rotation_range_witness :
  exists w',
    fixedPhysics (H := Standard.host) FIXED_DT mirroredCube = Normal w'
    /\ (-360 <? rotation (player w')) = true
    /\ (rotation (player w') <=? 0) = true.
Proof.
  destruct (C4_cube_rotation_range (H := Standard.host) FIXED_DT mirroredCube
              cube) as (w' & Hw' & _ & Hrange).
  - reflexivity.
  - vm_compute. reflexivity.
  - exists w'. split; [exact Hw'|].
    apply Hrange; vm_compute; reflexivity.
Defined.

(** ** C5: the X slide *)

(** C5, counterexample to the claim as stated: a cube of width 15 moves
    right into a block whose left edge is at 105 and which overlaps its
    hitbox. Whatever the overlap test of the pass answers, the X pass does
    not put the cube at 97.5, the left edge minus half the width: when the
    test succeeds the cube is put at [x = 90], the left edge minus the full
    width of the hitbox, and when it does not the cube stays at 100. *)
Lemma C5_slide_uses_full_width :
  (0 <? vx (player cubeAtWall)) = true
  /\ Obj.type wall = "block"
  /\ Rect.w (getHitbox (player cubeAtWall)) = 15
  /\ Obj.x wall - Rect.w (getHitbox (player cubeAtWall)) / 2 = 97.5
  /\ Standard.aabb (getHitbox (player cubeAtWall)) wall = true
  /\ forall H : Host,
       let hb := getHitbox (player cubeAtWall) in
       let after :=
         slideX_all hb (quadTree (game cubeAtWall) hb) (player cubeAtWall) in
       (x after =? 97.5) = false
       /\ (x after = 90 \/ x after = 100)
       /\ (collides (Rect.mk (x (player cubeAtWall)) (Rect.y hb) (Rect.w hb)
                       (Rect.h hb)) wall = true ->
           x after = 90).
Proof.
  repeat (split; [reflexivity|]).
  intros H hb after. subst hb after.
  unfold slideX_all, cubeAtWall. cbn [game player quadTree fold_left].
  unfold slideX. change (negb (String.eqb (Obj.type wall) "block")) with false.
  cbv iota.
  match goal with
  | |- context [collides ?b wall] => destruct (collides b wall)
  end.
  - split; [reflexivity|]. split; [now left|reflexivity].
  - split; [reflexivity|]. split; [now right|discriminate].
Qed.

(** C5 (amended). The X pass goes through all the candidates in order, each
    one tested from the [x] that the earlier ones left, and it does not stop
    at the first overlap: a candidate that is a block and on which the
    overlap test of the pass succeeds puts [x] at the block's left edge minus
    the full width of the hitbox when moving right ([vx > 0]) and at the
    block's right edge when moving left; a candidate that is no block, or on
    which the test fails, changes nothing. The width of the hitbox is the
    full size, 15 or 7.5. *)
Theorem C5_slideX_every_candidate `{Host} (hb : Rect.t)
    (candidates : list Obj.t) (obj : Obj.t) (this : Player) :
  let before := slideX_all hb candidates this in
  let after := slideX_all hb (candidates ++ [obj]) this in
  let box := Rect.mk (x before) (Rect.y hb) (Rect.w hb) (Rect.h hb) in
  (Obj.type obj = "block" -> collides box obj = true ->
   ((0 <? vx this) = true -> x after = Obj.x obj - Rect.w hb)
   /\ ((vx this <? 0) = true -> x after = Obj.x obj + Obj.w obj)
   /\ x after = (if JS.gt (vx this) 0 then Obj.x obj - Rect.w hb
                 else Obj.x obj + Obj.w obj))
  /\ (Obj.type obj <> "block" \/ collides box obj = false -> after = before)
  /\ Rect.w (getHitbox this) = (if mini this then 7.5 else 15.0)
  /\ forall dt w,
       (forall w0 o, x (player (interact w0 o)) = x (player w0)) ->
       x (player (updateCollisions dt w))
       = x (slideX_all (getHitbox (player w))
              (quadTree (game w) (getHitbox (player w))) (player w)).
Proof.
  intros before after box. subst after. rewrite slideX_all_snoc.
  fold before. unfold slideX. fold box.
  destruct (slideX_all_fields hb candidates this) as (_ & Hvx & _).
  fold before in Hvx.
  split; [|split; [|split]].
  - intros Htype Hcol. rewrite Htype, Hcol, Hvx.
    assert (forall v, x (set_x v before) = v) as Hset by now destruct before.
    cbn [negb String.eqb Ascii.eqb Bool.eqb]. rewrite Hset.
    unfold JS.gt. split; [|split; [|reflexivity]].
    + now intros ->.
    + intros Hneg. now rewrite (ltb_asym _ _ Hneg).
  - intros [Htype|Hcol].
    + apply String.eqb_neq in Htype. now rewrite Htype.
    + rewrite Hcol. now destruct (negb _).
  - reflexivity.
  - intros dt w. apply updateCollisions_x.
Qed.

Lemma C5_slideX_every_candidate_witness :
  x (slideX_all (H := Standard.host) (getHitbox (player cubeAtTwoWalls))
       ([wall] ++ [wall2]) (player cubeAtTwoWalls)) = 95 - 15.
Proof.
  destruct (C5_slideX_every_candidate (H := Standard.host)
              (getHitbox (player cubeAtTwoWalls)) [wall] wall2
              (player cubeAtTwoWalls)) as [Hsnap _].
  destruct Hsnap as (Hright & _); [reflexivity|reflexivity|].
  rewrite Hright; reflexivity.
Defined.


(** ** C6: the wave *)

(** C6 (the code departs from the claim). In wave mode [vy] is assigned, not
    accumulated: it does not depend on the [vy] of the previous tick. But the
    table holds [ampHold = -1.35 * 60 * FIXED_DT], a negative number, and the
    branch negates it again: holding or not, [vy] is
    [flipY * (+1.35) * speedMult]. The claim says [-1.35] when holding. *)
Theorem C6_wave_vy_same_sign `{Host} (dt : float) (w : World) :
  mode (player w) = "wave" ->
  vy (player (integrate dt wave w))
  = flipY (player w) * 1.35 * speedMult (game w).
Proof.
  intros Hmode. rewrite integrate_vy. unfold afterSwitch.
  destruct (beforeSwitch_fields dt wave w)
    as (Hgame & Hmode' & _ & Hflip & _).
  rewrite modeSwitch_wave_vy by congruence.
  rewrite Hgame, Hflip.
  destruct (inputNow (game w));
    [rewrite prop_wave_ampHold|rewrite prop_wave_ampNoHold]; reflexivity.
Qed.

Lemma C6_wave_vy_same_sign_witness :
  inputNow (game waveHolding) = true
  /\ vy (player (integrate (H := Standard.host) FIXED_DT wave waveHolding))
     = 1 * 1.35 * 1
  /\ vy (player (integrate (H := Standard.host) FIXED_DT wave waveFree))
     = 1 * 1.35 * 1.
Proof.
  split; [reflexivity|]. split.
  - apply (C6_wave_vy_same_sign (H := Standard.host) FIXED_DT waveHolding).
    reflexivity.
  - apply (C6_wave_vy_same_sign (H := Standard.host) FIXED_DT waveFree).
    reflexivity.
Defined.

(** ** C7: the jump of the robot *)

(** C7 (the code departs from the claim). A robot stands on the floor with
    the key down for 25 ticks: [holdTime] reaches 25. The key goes up for one
    tick ([holdTime] is reset to 0) and down again: on that [justPressed]
    tick [holdTime] is 1, the charge is 1/20, and the jump velocity is
    -10.623, not [-jumpMax = -16]. The jump fires on the rising edge only, and
    a rising edge always follows a tick that has reset the charge. *)
Theorem C7_charge_is_lost_at_the_jump :
  (exists w25,
     run (H := Standard.host) FIXED_DT (replicate 25 held) robotOnFloor
     = Normal w25
     /\ holdTime (player w25) = 25 /\ isOnGround (player w25) = true
     /\ vy (player w25) = 0)
  /\ (exists w26,
        run (H := Standard.host) FIXED_DT (replicate 25 held ++ [released])
          robotOnFloor = Normal w26
        /\ holdTime (player w26) = 0 /\ lastInput (player w26) = false
        /\ isOnGround (player w26) = true)
  /\ (exists w27,
        run (H := Standard.host) FIXED_DT chargeThenTap robotOnFloor
        = Normal w27
        /\ holdTime (player w27) = 1
        /\ vy (player w27) = - (1 / 20 * (16.0 - 10.34) + 10.34)
        /\ (vy (player w27) =? - prop robot "jumpMax") = false).
Proof.
  split; [|split]; eexists; (split; [vm_compute; reflexivity|]);
    repeat split; reflexivity.
Qed.

(** ** C8: the clamp of the ufo *)

Lemma ufo_fall_not_nan (dt : float) (this : Player) :
  flipY this = 1 \/ flipY this = -1 ->
  is_finite (vy this) = true -> is_finite dt = true ->
  is_nan (vy this + gravity ufo this * flipY this * dt) = false.
Proof.
  intros Hflip Hvy Hdt.
  apply add_finite_not_nan; [assumption|].
  apply mul_finite_not_nan; [|assumption].
  unfold gravity, miniFactorG.
  destruct (mini this), Hflip as [-> | ->]; reflexivity.
Qed.

Lemma ufo_jump_not_nan (this : Player) :
  flipY this = 1 \/ flipY this = -1 ->
  is_nan (- prop ufo "jump" * miniFactorJ ufo this * flipY this) = false.
Proof.
  intros Hflip. unfold miniFactorJ.
  destruct (mini this), Hflip as [-> | ->]; reflexivity.
Qed.

(** C8. In ufo mode, for a player whose [flipY] is 1 or -1 and whose [vy] is
    finite, a finite [dt] and a speed multiplier that is not negative: after
    the clamp, [|vy| <= vyClamp * speedMult]; and the bound still holds at the
    end of the tick when [interact] leaves [vy] alone, the collision pass
    changing [vy] to 0 only. *)
Theorem C8_ufo_vy_clamped `{Host} (dt : float) (w : World) :
  mode (player w) = "ufo" ->
  flipY (player w) = 1 \/ flipY (player w) = -1 ->
  is_finite (vy (player w)) = true ->
  is_finite dt = true ->
  (0 <=? speedMult (game w)) = true ->
  (abs (vy (player (integrate dt ufo w)))
   <=? prop ufo "vyClamp" * speedMult (game w)) = true
  /\ ((forall w0 obj, vy (player (interact w0 obj)) = vy (player w0)) ->
      exists w',
        fixedPhysics dt w = Normal w'
        /\ (abs (vy (player w'))
            <=? prop ufo "vyClamp" * speedMult (game w)) = true).
Proof.
  intros Hmode Hflip Hvy Hdt Hspeed.
  assert ((0 <=? prop ufo "vyClamp" * speedMult (game w)) = true) as Hbound.
  { eapply mul_pos_nonneg; [vm_compute; reflexivity|assumption]. }
  assert ((abs (vy (player (integrate dt ufo w)))
           <=? prop ufo "vyClamp" * speedMult (game w)) = true) as Hclamp.
  { rewrite integrate_vy. unfold afterSwitch.
    destruct (beforeSwitch_fields dt ufo w)
      as (Hgame & Hmode' & _ & Hflip' & _ & _ & Hvy').
    rewrite modeSwitch_ufo_vy by congruence.
    rewrite Hgame, Hflip', Hvy', mul_opp_l.
    apply clamp_bound; [|assumption].
    destruct (justPressed w);
      [now apply ufo_jump_not_nan|now apply ufo_fall_not_nan]. }
  split; [assumption|].
  intros Hi.
  assert (MODES_get (mode (player w)) = Some ufo) as Hget
    by (rewrite Hmode; reflexivity).
  rewrite (fixedPhysics_Normal dt ufo w Hget).
  generalize dependent (integrate dt ufo w). intros w1 Hclamp.
  eexists. split; [reflexivity|]. cbn [player set_player].
  destruct (trailUpdate_fields (postCollision (player (updateCollisions dt w1))))
    as (_ & _ & -> & _).
  destruct (postCollision_fields (player (updateCollisions dt w1)))
    as (_ & _ & -> & _).
  destruct (updateCollisions_vy dt w1 Hi) as [-> | ->]; assumption.
Qed.

Lemma C8_ufo_vy_clamped_witness :
  (abs (vy (player (integrate (H := Standard.host) FIXED_DT ufo fastUfo)))
   <=? 8 * 1) = true
  /\ exists w',
       fixedPhysics (H := Standard.host) FIXED_DT fastUfo = Normal w'
       /\ (abs (vy (player w')) <=? 8 * 1) = true.
Proof.
  destruct (C8_ufo_vy_clamped (H := Standard.host) FIXED_DT fastUfo)
    as [Hclamp Hend].
  - reflexivity.
  - left. reflexivity.
  - reflexivity.
  - reflexivity.
  - reflexivity.
  - split; [exact Hclamp|]. apply Hend. reflexivity.
Defined.


(** ** C9: the trail *)

(** The trail over a tick that completes: [shift()] removes the sample at
    the front (the oldest one) and [push] appends the current
    [(x, y, rotation)] sample at the back; a trail that is not empty keeps
    its length and an empty one gets length 1. *)
Lemma fixedPhysics_trail_shift_push `{Host} (dt : float) (w w' : World) :
  fixedPhysics dt w = Normal w' ->
  exists old : list Sample.t,
    let current :=
      Sample.mk (x (player w')) (y (player w')) (rotation (player w')) in
    trail (player w') = (tail old ++ [current])%list
    /\ last (trail (player w')) = Some current
    /\ length (trail (player w')) = Nat.max 1 (length old)
    /\ ((forall w0 obj, trail (player (interact w0 obj)) = trail (player w0)) ->
        old = trail (player w)).
Proof.
  unfold fixedPhysics.
  destruct (MODES_get (mode (player w))) as [modeData|] eqn:Hget;
    [|discriminate].
  cbv zeta. intros [= <-].
  pose proof (integrate_trail dt modeData w) as Hinteg.
  generalize dependent (integrate dt modeData w). intros w1 Hinteg.
  pose proof (updateCollisions_trail dt w1) as Hcol.
  generalize dependent (updateCollisions dt w1). intros w2 Hcol.
  destruct (postCollision_fields (player w2)) as (_ & _ & _ & Htrail & _).
  generalize dependent (postCollision (player w2)). intros this Htrail.
  exists (trail this). cbn [player set_player].
  assert (trail (trailUpdate this)
          = (tail (trail this)
             ++ [Sample.mk (x (trailUpdate this)) (y (trailUpdate this))
                   (rotation (trailUpdate this))])%list) as Heq
    by now destruct this.
  split; [assumption|]. split; [|split].
  - rewrite Heq. apply last_snoc.
  - rewrite Heq, length_app. destruct (trail this); simpl; lia.
  - intros Hi. now rewrite Htrail, Hcol, Hinteg.
Qed.

(** C9 (the code departs from the claim). The trail update of [fixedPhysics]
    is [shift()] then [push()]: whatever the host, a wave whose trail holds
    six samples leaves the tick with six samples (not five, the [trailLen] of
    the wave, which nothing reads), the new sample at the back and an old
    one at the front; and a trail that starts empty holds one sample after
    the first tick and one sample after the second. The claim has the new
    sample at the front and the trail cut to its capacity, which is what
    [update] does ([unshift], then [pop] above 20). *)
Theorem C9_trail_is_shifted_not_truncated `{Host} :
  trail (player waveWithTrail)
  = [sampleA; sampleB; sampleA; sampleB; sampleA; sampleB]
  /\ (exists w',
        fixedPhysics FIXED_DT waveWithTrail = Normal w'
        /\ trail (player w')
           = [sampleB; sampleA; sampleB; sampleA; sampleB;
              Sample.mk (x (player w')) (y (player w')) (rotation (player w'))]
        /\ head (trail (player w')) = Some sampleB
        /\ (Sample.x sampleB =? x (player w')) = false
        /\ length (trail (player w')) = 6%nat)
  /\ trail (player waveFree) = []
  /\ exists w1 w2,
       fixedPhysics FIXED_DT waveFree = Normal w1
       /\ length (trail (player w1)) = 1%nat
       /\ fixedPhysics FIXED_DT w1 = Normal w2
       /\ trail (player w2)
          = [Sample.mk (x (player w2)) (y (player w2)) (rotation (player w2))].
Proof.
  split; [reflexivity|]. split; [|split; [reflexivity|]].
  - eexists. split; [vm_compute; reflexivity|]. repeat split; reflexivity.
  - eexists. eexists. split; [vm_compute; reflexivity|].
    split; [reflexivity|]. split; [vm_compute; reflexivity|]. reflexivity.
Qed.

(** ** C10: the decay of the spider *)



End Claims.

(** * More on the code: the rest of the tick, and [update] *)

(** ** Exact operations on binary64 numbers *)

Module ExactFacts.
Import FloatFacts.

Section Canonical.
Local Open Scope Z_scope.

(** A mantissa that is already canonical is not rounded. *)
Lemma shr_fexp_canonical (m : positive) (e : Z) :
  bounded prec emax m e = true ->
  shr_fexp prec emax (Z.pos m) e loc_Exact
  = (Build_shr_record (Z.pos m) false false, e).
Proof.
  intros Hb. unfold bounded, canonical_mantissa in Hb.
  apply andb_true_iff in Hb as [Hcan _]. apply Z.eqb_eq in Hcan.
  unfold shr_fexp. simpl Zdigits2. rewrite Hcan, Z.sub_diag. reflexivity.
Qed.

Lemma binary_round_aux_canonical (s : bool) (m : positive) (e : Z) :
  bounded prec emax m e = true ->
  binary_round_aux prec emax s (Z.pos m) e loc_Exact = S754_finite s m e.
Proof.
  intros Hb. pose proof (shr_fexp_canonical m e Hb) as Hshr.
  unfold bounded in Hb. apply andb_true_iff in Hb as [_ He].
  unfold binary_round_aux. rewrite Hshr. simpl shr_m. simpl loc_of_shr_record.
  simpl round_nearest_even. rewrite Hshr. simpl shr_m.
  now rewrite He.
Qed.

Lemma binary_round_canonical (s : bool) (m : positive) (e : Z) :
  bounded prec emax m e = true ->
  binary_round prec emax s m e = S754_finite s m e.
Proof.
  intros Hb. pose proof Hb as Hb'. unfold bounded, canonical_mantissa in Hb'.
  apply andb_true_iff in Hb' as [Hcan _]. apply Z.eqb_eq in Hcan.
  unfold binary_round, shl_align. rewrite Hcan, Z.sub_diag.
  now apply binary_round_aux_canonical.
Qed.

(** The product of a canonical mantissa by [2 ^ 52], over an exponent that
    is 52 lower, is the same number. *)
Lemma binary_round_aux_scaled (s : bool) (m : positive) (e : Z) :
  bounded prec emax m e = true ->
  binary_round_aux prec emax s (Z.pos (m * 4503599627370496)) (e + -52)
    loc_Exact
  = S754_finite s m e.
Proof.
  intros Hb. pose proof Hb as Hb'. unfold bounded, canonical_mantissa in Hb'.
  apply andb_true_iff in Hb' as [Hcan He]. apply Z.eqb_eq in Hcan.
  assert ((m * 4503599627370496)%positive = Pos.iter xO m 52) as Hiter.
  { apply Pos2Z.inj. rewrite iter_xO_value, Pos2Z.inj_mul. reflexivity. }
  assert (Zdigits2 (Z.pos (m * 4503599627370496))
          = Z.pos (digits2_pos m) + 52) as Hdig.
  { rewrite Hiter.
    change (Z.pos (digits2_pos (Pos.iter xO m 52))
            = Z.pos (digits2_pos m) + 52).
    apply digits2_pos_iter_xO. }
  assert (Z.pos (m * 4503599627370496) = Z.pos m * 2 ^ 52) as Hval
    by (rewrite Pos2Z.inj_mul; reflexivity).
  pose proof (shr_fexp_exact (Z.pos (m * 4503599627370496)) (e + -52)
                ltac:(lia)) as [He1 Hs1].
  rewrite Hdig in He1.
  replace (Z.pos (digits2_pos m) + 52 + (e + -52))
    with (Z.pos (digits2_pos m) + e) in He1 by lia.
  rewrite Hcan in He1.
  unfold binary_round_aux.
  destruct (shr_fexp prec emax (Z.pos (m * 4503599627370496)) (e + -52)
              loc_Exact) as [mrs' e'] eqn:E1.
  simpl in He1, Hs1.
  assert (e' = e) as -> by lia.
  replace (e - (e + -52)) with 52 in Hs1 by lia.
  destruct Hs1 as [Hm Hrs]. rewrite Hval in Hm, Hrs.
  rewrite Z.div_mul in Hm by lia. rewrite Z.mod_mul in Hrs by lia.
  destruct mrs' as [mm r0 s0]. simpl in Hm, Hrs. subst mm.
  assert (r0 = false /\ s0 = false) as [-> ->].
  { destruct r0, s0; simpl in Hrs; try tauto; exfalso; now apply Hrs. }
  simpl shr_m. simpl loc_of_shr_record. simpl round_nearest_even.
  rewrite (shr_fexp_canonical m e Hb). simpl shr_m.
  now rewrite He.
Qed.

(** A canonical number with an exponent above the lowest one has 53
    digits. *)
Lemma bounded_normal (m : positive) (e : Z) :
  bounded prec emax m e = true -> -1074 < e -> 2 ^ 52 <= Z.pos m.
Proof.
  intros Hb He. unfold bounded, canonical_mantissa in Hb.
  apply andb_true_iff in Hb as [Hcan _]. apply Z.eqb_eq in Hcan.
  assert (fexp prec emax (Z.pos (digits2_pos m) + e)
          = Z.max (Z.pos (digits2_pos m) + e - 53) (-1074)) as Hf by reflexivity.
  assert (Z.pos (digits2_pos m) = 53) as Hd by lia.
  pose proof (digits2_pos_bounds m) as [Hlo _]. rewrite Hd in Hlo.
  exact Hlo.
Qed.

(** The remainder of a number by a larger one is the number itself. *)
Lemma SF_rem_small (sa : bool) (ma mb : positive) (ea eb : Z) :
  bounded prec emax ma ea = true ->
  bounded prec emax mb eb = true ->
  SFltb (S754_finite false ma ea) (S754_finite false mb eb) = true ->
  let e := Z.min ea eb in
  let r := (Z.pos ma * 2 ^ (ea - e)) mod (Z.pos mb * 2 ^ (eb - e)) in
  binary_normalize prec emax (if sa then - r else r) e sa
  = S754_finite sa ma ea.
Proof.
  intros Ha Hb Hlt e r.
  pose proof (bounded_inv ma ea Ha) as [Hda Hea].
  pose proof (bounded_inv mb eb Hb) as [Hdb Heb].
  pose proof (digits2_pos_bounds ma) as [_ Hma].
  assert (2 ^ Z.pos (digits2_pos ma) <= 2 ^ 53) as Hpa
    by (apply Z.pow_le_mono_r; lia).
  unfold SFltb in Hlt. simpl in Hlt.
  assert (e = ea /\ Z.pos ma < Z.pos mb * 2 ^ (eb - ea)) as [Hee Hsmall].
  { destruct (Z.compare_spec ea eb) as [Heq|Hl|Hg]; try discriminate.
    - subst eb. split; [unfold e; lia|]. rewrite Z.sub_diag, Z.mul_1_r.
      fold (Pos.compare ma mb) in Hlt.
      destruct (Pos.compare_spec ma mb); try discriminate. lia.
    - split; [unfold e; lia|].
      pose proof (bounded_normal mb eb Hb ltac:(lia)) as Hmb.
      assert (2 ^ 1 <= 2 ^ (eb - ea)) by (apply Z.pow_le_mono_r; lia).
      change (2 ^ 1) with 2 in *. change (2 ^ 53) with (2 ^ 52 * 2) in *.
      nia. }
  assert (r = Z.pos ma) as Hr.
  { unfold r. rewrite Hee, Z.sub_diag, Z.mul_1_r.
    apply Z.mod_small. lia. }
  rewrite Hr, Hee.
  destruct sa; simpl; now apply binary_round_canonical.
Qed.

End Canonical.

Section ExactFloat.
Local Open Scope float_scope.

(** Multiplying by [-1] is taking the opposite, and multiplying by [1]
    changes nothing: neither product is rounded. *)
Lemma mul_minus_one (a : float) : a * -1 = - a.
Proof.
  apply Prim2SF_inj. rewrite FloatAxioms.mul_spec, FloatAxioms.opp_spec.
  change (Prim2SF (-1)) with (S754_finite true 4503599627370496 (-52)).
  pose proof (Prim2SF_valid a) as Hv.
  destruct (Prim2SF a) as [s|s| |s m e]; try (destruct s; reflexivity);
    try reflexivity.
  simpl in Hv. unfold SF64mul. simpl SFmul. simpl SFopp.
  rewrite binary_round_aux_scaled by assumption. now destruct s.
Qed.

Lemma mul_one (a : float) : a * 1 = a.
Proof.
  apply Prim2SF_inj. rewrite FloatAxioms.mul_spec.
  change (Prim2SF 1) with (S754_finite false 4503599627370496 (-52)).
  pose proof (Prim2SF_valid a) as Hv.
  destruct (Prim2SF a) as [s|s| |s m e]; try (destruct s; reflexivity);
    try reflexivity.
  simpl in Hv. unfold SF64mul. simpl SFmul.
  rewrite binary_round_aux_scaled by assumption. now destruct s.
Qed.

Lemma opp_involutive (a : float) : - - a = a.
Proof.
  apply Prim2SF_inj. rewrite !FloatAxioms.opp_spec. apply SFopp_involutive.
Qed.

Lemma mul_opp_r (a b : float) : a * - b = - (a * b).
Proof. now rewrite mul_comm, mul_opp_l, mul_comm. Qed.

(** [a % b] for [|a| < b]. *)
Lemma rem_small (a b : float) (mb : positive) (eb : Z) :
  Prim2SF b = S754_finite false mb eb ->
  (abs a <? b) = true ->
  JS.rem a b = a.
Proof.
  intros Hb Hlt.
  rewrite FloatAxioms.ltb_spec, FloatAxioms.abs_spec, Hb in Hlt.
  pose proof (Prim2SF_valid a) as Hva. pose proof (Prim2SF_valid b) as Hvb.
  rewrite Hb in Hvb. simpl in Hvb.
  unfold JS.rem. rewrite Hb.
  destruct (Prim2SF a) as [sa|sa| |sa ma ea] eqn:Ea; try discriminate.
  - reflexivity.
  - simpl in Hva. simpl SFabs in Hlt.
    pose proof (SF_rem_small sa ma mb ea eb Hva Hvb Hlt) as Hrem.
    cbv zeta in Hrem. rewrite Hrem, <- Ea. apply SF2Prim_Prim2SF.
Qed.

(** The remainder of anything that is not a finite number is NaN. *)
Lemma rem_not_finite (a b : float) :
  is_finite a = false -> JS.rem a b = nan.
Proof.
  rewrite is_finite_spec. unfold JS.rem.
  destruct (Prim2SF a); try discriminate; now destruct (Prim2SF b).
Qed.

(** [%] is idempotent for a positive finite divisor. *)
Lemma rem_idempotent (a b : float) (mb : positive) (eb : Z) :
  Prim2SF b = S754_finite false mb eb ->
  JS.rem (JS.rem a b) b = JS.rem a b.
Proof.
  intros Hb. destruct (is_finite a) eqn:Hfin.
  - destruct (rem_range a b mb eb Hb Hfin) as (Hlt & _).
    now apply (rem_small _ b mb eb).
  - rewrite (rem_not_finite a b Hfin). unfold JS.rem. now rewrite Hb.
Qed.

End ExactFloat.

End ExactFacts.

(** ** The passes of [updateCollisions], as functions of the player *)

Section PassFacts.
Context `{Host}.
Local Open Scope float_scope.

(** The X slide changes [x] only, the Y pass [y], [vy] and [isOnGround]
    only, the post-collision step [rotation] only. *)
Lemma slideX_shape (hb : Rect.t) (this : Player) (obj : Obj.t) :
  slideX hb this obj = set_x (x (slideX hb this obj)) this.
Proof.
  unfold slideX. destruct (negb _); [now destruct this|].
  destruct (collides _ obj); now destruct this.
Qed.

Lemma slideX_all_shape (hb : Rect.t) (candidates : list Obj.t) (this : Player) :
  slideX_all hb candidates this
  = set_x (x (slideX_all hb candidates this)) this.
Proof.
  unfold slideX_all. revert this.
  induction candidates as [|obj rest IH]; intros this; simpl;
    [now destruct this|].
  pose proof (IH (slideX hb this obj)) as HR.
  generalize dependent (fold_left (slideX hb) rest (slideX hb this obj)).
  intros R HR. rewrite HR, (slideX_shape hb this obj).
  generalize (x (slideX hb this obj)) (x R). now destruct this.
Qed.

Lemma resolveY_shape (hb : Rect.t) (candidates : list Obj.t) (this : Player) :
  resolveY hb candidates this
  = set_isOnGround (isOnGround (resolveY hb candidates this))
      (set_vy (vy (resolveY hb candidates this))
         (set_y (y (resolveY hb candidates this)) this)).
Proof.
  induction candidates as [|obj rest IH]; simpl; [now destruct this|].
  destruct (negb _); [assumption|].
  destruct (collides _ obj); [|assumption].
  destruct (JS.gt _ _); now destruct this.
Qed.

Lemma postCollision_shape (this : Player) :
  postCollision this = set_rotation (rotation (postCollision this)) this.
Proof.
  unfold postCollision. generalize (JS.rem (rotation this) 360).
  destruct this as [? ? ? ? ? m ? ? ? ? ? ? ? ?]; cbn [mode]. intros.
  now destruct (String.eqb m "cube").
Qed.

(** The two passes and the closing steps of the tick, on the fields that
    they never write. *)
Lemma solid_passes_keep (hb : Rect.t) (candidates : list Obj.t)
    (this : Player) :
  let after := resolveY hb candidates (slideX_all hb candidates this) in
  vx after = vx this /\ rotation after = rotation this
  /\ mode after = mode this /\ mini after = mini this
  /\ mirror after = mirror this /\ flipY after = flipY this
  /\ lastInput after = lastInput this /\ holdTime after = holdTime this
  /\ time after = time this /\ trail after = trail this.
Proof.
  cbv zeta. rewrite resolveY_shape.
  generalize (isOnGround (resolveY hb candidates (slideX_all hb candidates this)))
    (vy (resolveY hb candidates (slideX_all hb candidates this)))
    (y (resolveY hb candidates (slideX_all hb candidates this))).
  rewrite slideX_all_shape. generalize (x (slideX_all hb candidates this)).
  now destruct this.
Qed.

Lemma closing_steps_keep (this : Player) :
  let after := trailUpdate (postCollision this) in
  x after = x this /\ y after = y this /\ vx after = vx this
  /\ vy after = vy this
  /\ mode after = mode this /\ mini after = mini this
  /\ mirror after = mirror this /\ flipY after = flipY this
  /\ isOnGround after = isOnGround this
  /\ lastInput after = lastInput this /\ holdTime after = holdTime this
  /\ time after = time this.
Proof.
  cbv zeta. unfold trailUpdate.
  generalize (tail (trail (postCollision this))
              ++ [Sample.mk (x (postCollision this)) (y (postCollision this))
                    (rotation (postCollision this))])%list.
  rewrite postCollision_shape. generalize (rotation (postCollision this)).
  now destruct this.
Qed.

(** No block among the candidates: the two passes do nothing. *)
Lemma slideX_all_no_block (hb : Rect.t) (candidates : list Obj.t)
    (this : Player) :
  (forall obj, In obj candidates -> Obj.type obj <> "block") ->
  slideX_all hb candidates this = this.
Proof.
  unfold slideX_all. revert this.
  induction candidates as [|obj rest IH]; intros this Hno; simpl;
    [reflexivity|].
  assert (slideX hb this obj = this) as ->.
  { unfold slideX. destruct (String.eqb_spec (Obj.type obj) "block") as [E|E];
      [|reflexivity].
    exfalso. apply (Hno obj); [now left|assumption]. }
  apply IH. intros o Ho. apply Hno. now right.
Qed.

Lemma resolveY_no_hit (hb : Rect.t) (candidates : list Obj.t) (this : Player) :
  (forall obj, In obj candidates -> Obj.type obj = "block" ->
     collides (Rect.mk (x this) (y this) (Rect.w hb) (Rect.h hb)) obj = false) ->
  resolveY hb candidates this = this.
Proof.
  induction candidates as [|obj rest IH]; intros Hno; simpl; [reflexivity|].
  destruct (String.eqb_spec (Obj.type obj) "block") as [E|E]; simpl.
  - rewrite (Hno obj) by (auto; now left). apply IH.
    intros o Ho. apply Hno. now right.
  - apply IH. intros o Ho. apply Hno. now right.
Qed.

End PassFacts.

(** ** The stages of the tick, on the fields that the claims leave out *)

Section StageFacts.
Context `{Host}.
Local Open Scope float_scope.

(** Motion along X, and the fields that the steps before the [switch] do
    not write. *)
Lemma beforeSwitch_motion (dt : float) (modeData : ModeEntry) (w : World) :
  vx (player (beforeSwitch dt modeData w))
  = prop modeData "vx" * speedMult (game w)
    * (if mirror (player w) then -1 else 1)
  /\ x (player (beforeSwitch dt modeData w))
     = x (player w)
       + prop modeData "vx" * speedMult (game w)
         * (if mirror (player w) then -1 else 1) * dt
  /\ mirror (player (beforeSwitch dt modeData w)) = mirror (player w)
  /\ time (player (beforeSwitch dt modeData w)) = time (player w)
  /\ rotation (player (beforeSwitch dt modeData w)) = rotation (player w).
Proof.
  unfold beforeSwitch. cbv zeta.
  generalize (gravity modeData (player w)) (60 * dt).
  unfold moveX. generalize (prop modeData "vx").
  destruct w as [[] g]; cbn [player game]. intros.
  unfold sampleInput. now destruct (inputNow g).
Qed.

(** What the [switch] does to the position along X, to the configuration of
    the player, to [flipY] and to the game. *)
Lemma modeSwitch_keeps (dt : float) (modeData : ModeEntry) (mfJ : float)
    (pressed holding : bool) (w : World) :
  x (player (modeSwitch dt modeData mfJ pressed holding w)) = x (player w)
  /\ vx (player (modeSwitch dt modeData mfJ pressed holding w)) = vx (player w)
  /\ mode (player (modeSwitch dt modeData mfJ pressed holding w))
     = mode (player w)
  /\ mini (player (modeSwitch dt modeData mfJ pressed holding w))
     = mini (player w)
  /\ mirror (player (modeSwitch dt modeData mfJ pressed holding w))
     = mirror (player w)
  /\ time (player (modeSwitch dt modeData mfJ pressed holding w))
     = time (player w)
  /\ flipY (player (modeSwitch dt modeData mfJ pressed holding w))
     = (if (String.eqb (mode (player w)) "ball"
            || String.eqb (mode (player w)) "spider") && pressed
        then flipY (player w) * -1 else flipY (player w))
  /\ game (modeSwitch dt modeData mfJ pressed holding w)
     = (if String.eqb (mode (player w)) "cube"
           && (pressed && isOnGround (player w))
        then addParticle (x (player w)) (y (player w) + 15) "dust" 8 (game w)
        else game w).
Proof.
  unfold modeSwitch; cbv zeta.
  generalize (prop modeData "vyClamp") (prop modeData "jump")
    (prop modeData "decay") (prop modeData "thrustHold")
    (prop modeData "thrustNoHold") (prop modeData "rotSpeed")
    (prop modeData "ampHold") (prop modeData "ampNoHold")
    (prop modeData "rotGround") (prop modeData "rotAir")
    (prop modeData "jumpMax") (prop modeData "jumpBase").
  intros.
  destruct w as [[x0 y0 vx0 vy0 rot0 m0 mini0 mir0 flip0 grd0 last0 hold0
                    t0 tr0] g0]; cbn [player game mode isOnGround x y flipY].
  destruct (String.eqb_spec m0 "cube") as [->|_];
    [destruct (pressed && grd0); now repeat split|].
  destruct (String.eqb_spec m0 "ship") as [->|_]; [now repeat split|].
  destruct (String.eqb_spec m0 "swing") as [->|_]; [now repeat split|].
  cbn [orb].
  destruct (String.eqb_spec m0 "ball") as [->|_];
    [destruct pressed; now repeat split|].
  destruct (String.eqb_spec m0 "ufo") as [->|_];
    [destruct pressed; now repeat split|].
  destruct (String.eqb_spec m0 "wave") as [->|_]; [now repeat split|].
  destruct (String.eqb_spec m0 "robot") as [->|_];
    [destruct (pressed && grd0); now repeat split|].
  destruct (String.eqb m0 "spider"); [destruct pressed; now repeat split|].
  now repeat split.
Qed.

(** No branch of the [switch] is taken for a mode that is not one of the
    eight. *)
Lemma modeSwitch_other (dt : float) (modeData : ModeEntry) (mfJ : float)
    (pressed holding : bool) (w : World) :
  ~ In (mode (player w)) mode_names ->
  modeSwitch dt modeData mfJ pressed holding w = w.
Proof.
  intros Hno. unfold modeSwitch; cbv zeta.
  generalize dependent (mode (player w)). intros m Hno.
  repeat match goal with
         | |- context [String.eqb m ?n] =>
             destruct (String.eqb_spec m n) as [->|_];
             [exfalso; apply Hno; simpl; tauto|]
         end.
  reflexivity.
Qed.

(** [integrate] on the same fields. *)
Lemma integrate_keeps (dt : float) (modeData : ModeEntry) (w : World) :
  x (player (integrate dt modeData w))
  = x (player w)
    + prop modeData "vx" * speedMult (game w)
      * (if mirror (player w) then -1 else 1) * dt
  /\ vx (player (integrate dt modeData w))
     = prop modeData "vx" * speedMult (game w)
       * (if mirror (player w) then -1 else 1)
  /\ mode (player (integrate dt modeData w)) = mode (player w)
  /\ mini (player (integrate dt modeData w)) = mini (player w)
  /\ mirror (player (integrate dt modeData w)) = mirror (player w)
  /\ time (player (integrate dt modeData w)) = time (player w)
  /\ flipY (player (integrate dt modeData w))
     = (if (String.eqb (mode (player w)) "ball"
            || String.eqb (mode (player w)) "spider") && justPressed w
        then flipY (player w) * -1 else flipY (player w))
  /\ game (integrate dt modeData w)
     = (if String.eqb (mode (player w)) "cube"
           && (justPressed w && isOnGround (player w))
        then addParticle
               (x (player w)
                + prop modeData "vx" * speedMult (game w)
                  * (if mirror (player w) then -1 else 1) * dt)
               (y (player w) + 15) "dust" 8 (game w)
        else game w).
Proof.
  assert (x (player (integrate dt modeData w))
          = x (player (afterSwitch dt modeData w))
          /\ vx (player (integrate dt modeData w))
             = vx (player (afterSwitch dt modeData w))
          /\ mode (player (integrate dt modeData w))
             = mode (player (afterSwitch dt modeData w))
          /\ mini (player (integrate dt modeData w))
             = mini (player (afterSwitch dt modeData w))
          /\ mirror (player (integrate dt modeData w))
             = mirror (player (afterSwitch dt modeData w))
          /\ time (player (integrate dt modeData w))
             = time (player (afterSwitch dt modeData w))
          /\ flipY (player (integrate dt modeData w))
             = flipY (player (afterSwitch dt modeData w))
          /\ game (integrate dt modeData w)
             = game (afterSwitch dt modeData w))
    as (-> & -> & -> & -> & -> & -> & -> & ->).
  { unfold integrate. cbv zeta.
    generalize (afterSwitch dt modeData w). now intros [[] ?]. }
  unfold afterSwitch.
  destruct (modeSwitch_keeps dt modeData (miniFactorJ modeData (player w))
              (justPressed w) (inputNow (game w)) (beforeSwitch dt modeData w))
    as (-> & -> & -> & -> & -> & -> & -> & ->).
  destruct (beforeSwitch_fields dt modeData w)
    as (-> & -> & -> & -> & -> & -> & _).
  destruct (beforeSwitch_motion dt modeData w) as (-> & -> & -> & -> & _).
  now repeat split.
Qed.

(** The tick after [integrate], on any field of the player that the
    passes and the closing steps do not write and that [interact] keeps. *)
Lemma after_integrate {A : Type} (f : Player -> A) (dt : float) (w : World) :
  (forall v p, f (set_x v p) = f p) ->
  (forall v p, f (set_y v p) = f p) ->
  (forall v p, f (set_vy v p) = f p) ->
  (forall v p, f (set_isOnGround v p) = f p) ->
  (forall v p, f (set_rotation v p) = f p) ->
  (forall v p, f (set_trail v p) = f p) ->
  (forall w0 obj, f (player (interact w0 obj)) = f (player w0)) ->
  f (trailUpdate (postCollision (player (updateCollisions dt w))))
  = f (player w).
Proof.
  intros Hx Hy Hvy Hg Hr Ht Hi.
  unfold trailUpdate. rewrite Ht, postCollision_shape, Hr.
  unfold updateCollisions. cbv zeta.
  rewrite (interact_all_invariant (fun w0 => f (player w0))) by assumption.
  cbn [player set_player].
  now rewrite resolveY_shape, Hg, Hvy, Hy, slideX_all_shape, Hx.
Qed.

Lemma game_after_integrate (dt : float) (w : World) :
  (forall w0 obj, game (interact w0 obj) = game w0) ->
  game (updateCollisions dt w) = game w.
Proof.
  intros Hi. unfold updateCollisions. cbv zeta.
  now rewrite (interact_all_invariant game).
Qed.

End StageFacts.

(** ** The tick: input, collisions, particles, modes *)

Section TickMore.
Import Table Scenario Levels FloatFacts ExactFacts.
Local Open Scope float_scope.

(** A tick that completes: the entry that the lookup gave, and the player
    and the game that it leaves. *)
Lemma fixedPhysics_inv `{Host} (dt : float) (w w' : World) :
  fixedPhysics dt w = Normal w' ->
  exists modeData,
    MODES_get (mode (player w)) = Some modeData
    /\ player w'
       = trailUpdate
           (postCollision
              (player (updateCollisions dt (integrate dt modeData w))))
    /\ game w' = game (updateCollisions dt (integrate dt modeData w)).
Proof.
  unfold fixedPhysics.
  destruct (MODES_get (mode (player w))) as [modeData|]; [|discriminate].
  cbv zeta. intros [= <-]. exists modeData. split; [reflexivity|].
  generalize (updateCollisions dt (integrate dt modeData w)).
  intros w2. split; reflexivity.
Qed.

Lemma standard_interact_keeps {A : Type} (f : World -> A) (w0 : World)
    (obj : Obj.t) :
  f (interact (Host := Standard.host) w0 obj) = f w0.
Proof. reflexivity. Qed.

(** X1. Input sampling over a whole tick. When [interact] leaves
    [lastInput] and [holdTime] alone, a tick that completes leaves in
    [lastInput] whether a jump key was down during it, and in [holdTime] 0
    if none was and the old value plus [60 * dt] otherwise; so on the next
    tick [justPressed] holds exactly when a key is down that was not down on
    this one: a key that stays down is a press on its first tick only. *)
Theorem tick_samples_the_input `{Host} (dt : float) (w w' : World) :
  (forall w0 obj, lastInput (player (interact w0 obj)) = lastInput (player w0)) ->
  (forall w0 obj, holdTime (player (interact w0 obj)) = holdTime (player w0)) ->
  fixedPhysics dt w = Normal w' ->
  lastInput (player w') = inputNow (game w)
  /\ holdTime (player w')
     = (if inputNow (game w) then holdTime (player w) + 60 * dt else 0)
  /\ forall g',
       justPressed (mkWorld (player w') g')
       = inputNow g' && negb (inputNow (game w)).
Proof.
  intros Hl Hh Htick.
  destruct (fixedPhysics_inv dt w w' Htick) as (modeData & _ & -> & _).
  rewrite (after_integrate lastInput), (after_integrate holdTime);
    try assumption; try (now intros ? []).
  destruct (integrate_fields dt modeData w) as (_ & _ & -> & ->).
  repeat split. intros g'. unfold justPressed. cbn [player game].
  rewrite (after_integrate lastInput); try assumption; try (now intros ? []).
  destruct (integrate_fields dt modeData w) as (_ & _ & -> & _).
  reflexivity.
Qed.

Lemma tick_samples_the_input_witness :
  exists w',
    fixedPhysics (H := Standard.host) FIXED_DT robotOnFloor = Normal w'
    /\ lastInput (player w') = true
    /\ holdTime (player w') = 0 + 60 * FIXED_DT
    /\ justPressed (mkWorld (player w') (emptyLevel space)) = false.
Proof.
  assert (exists w',
            fixedPhysics (H := Standard.host) FIXED_DT robotOnFloor = Normal w')
    as [w' Hw'] by (eexists; vm_compute; reflexivity).
  exists w'. split; [exact Hw'|].
  destruct (tick_samples_the_input (H := Standard.host) FIXED_DT robotOnFloor
              w') as (Hl & Hh & Hj).
  - reflexivity.
  - reflexivity.
  - exact Hw'.
  - split; [exact Hl|]. split; [exact Hh|]. apply Hj.
Defined.

(** X2. Only blocks are solid. When none of the candidates that the index
    returns for the hitbox is of type [block], the X slide and the Y pass of
    [updateCollisions] leave the player as it is: the call comes down to
    handing the overlapping candidates to [interact]. *)
Theorem only_blocks_are_solid `{Host} (dt : float) (w : World) :
  (forall obj, In obj (quadTree (game w) (getHitbox (player w))) ->
     Obj.type obj <> "block") ->
  slideX_all (getHitbox (player w))
    (quadTree (game w) (getHitbox (player w))) (player w) = player w
  /\ resolveY (getHitbox (player w))
       (quadTree (game w) (getHitbox (player w))) (player w) = player w
  /\ updateCollisions dt w
     = interact_all (getHitbox (player w))
         (quadTree (game w) (getHitbox (player w))) w.
Proof.
  intros Hno.
  assert (slideX_all (getHitbox (player w))
            (quadTree (game w) (getHitbox (player w))) (player w) = player w)
    as Hx by now apply slideX_all_no_block.
  assert (resolveY (getHitbox (player w))
            (quadTree (game w) (getHitbox (player w))) (player w) = player w)
    as Hy.
  { apply resolveY_no_hit. intros obj Hin Hb. now apply Hno in Hin. }
  split; [assumption|]. split; [assumption|].
  unfold updateCollisions. cbv zeta. rewrite Hx, Hy. now destruct w.
Qed.

Lemma only_blocks_are_solid_witness :
  updateCollisions (H := Standard.host) FIXED_DT cubeAmongSpikes
  = cubeAmongSpikes.
Proof.
  destruct (only_blocks_are_solid (H := Standard.host) FIXED_DT
              cubeAmongSpikes) as (_ & _ & ->).
  - intros obj [<-|[<-|[]]]; discriminate.
  - reflexivity.
Defined.

(** X3. The Y pass stops at the first colliding block. When no block before
    [obj] in the list overlaps the player's box and the block [obj] does,
    the pass is resolved against [obj] alone, whatever follows it in the
    list: a player moving down ([vy > 0]) is put on top of [obj] with
    [isOnGround] set, any other (moving up, at rest, or with a NaN [vy]) is
    put below it, and [vy] is 0 in both cases. When no block overlaps, the
    pass changes nothing. *)
Theorem resolveY_first_hit `{Host} (hb : Rect.t) (pre post : list Obj.t)
    (obj : Obj.t) (this : Player) :
  (forall o, In o pre -> Obj.type o = "block" ->
     collides (Rect.mk (x this) (y this) (Rect.w hb) (Rect.h hb)) o = false) ->
  (Obj.type obj = "block" ->
   collides (Rect.mk (x this) (y this) (Rect.w hb) (Rect.h hb)) obj = true ->
   resolveY hb (pre ++ obj :: post) this
   = if JS.gt (vy this) 0
     then set_isOnGround true (set_vy 0 (set_y (Obj.y obj - Rect.h hb) this))
     else set_vy 0 (set_y (Obj.y obj + Obj.h obj) this))
  /\ resolveY hb pre this = this.
Proof.
  intros Hpre. split.
  - intros Hb Hc. induction pre as [|o rest IH]; simpl.
    + rewrite Hb, Hc. reflexivity.
    + destruct (String.eqb_spec (Obj.type o) "block") as [E|E]; simpl.
      * rewrite (Hpre o) by (auto; now left).
        apply IH. intros o' Ho'. apply Hpre. now right.
      * apply IH. intros o' Ho'. apply Hpre. now right.
  - now apply resolveY_no_hit.
Qed.

Lemma resolveY_first_hit_witness :
  resolveY (H := Standard.host) (getHitbox between) [spike; lower; upper]
    between
  = set_isOnGround true (set_vy 0 (set_y (Obj.y lower - 15) between)).
Proof.
  destruct (resolveY_first_hit (H := Standard.host) (getHitbox between)
              [spike] [upper] lower between) as [Hhit _].
  - intros o [<-|[]]. discriminate.
  - apply Hhit; reflexivity.
Defined.

(** X4. The X slide ends on the edge of a block or where it began. After
    the first loop [x] is the [x] on entry, or the snap position of some
    block among the candidates ([obj.x - hb.w] when [vx > 0], [obj.x +
    obj.w] otherwise, which includes a NaN [vx]); no other field of the
    player is written. *)
Theorem slideX_all_lands_on_an_edge `{Host} (hb : Rect.t)
    (candidates : list Obj.t) (this : Player) :
  slideX_all hb candidates this
  = set_x (x (slideX_all hb candidates this)) this
  /\ (x (slideX_all hb candidates this) = x this
      \/ exists obj,
           In obj candidates /\ Obj.type obj = "block"
           /\ x (slideX_all hb candidates this)
              = if JS.gt (vx this) 0 then Obj.x obj - Rect.w hb
                else Obj.x obj + Obj.w obj).
Proof.
  split; [apply slideX_all_shape|].
  induction candidates as [|obj rest IH] using rev_ind; [now left|].
  rewrite slideX_all_snoc.
  destruct (slideX_all_fields hb rest this) as (_ & Hvx & _).
  unfold slideX.
  destruct (String.eqb_spec (Obj.type obj) "block") as [E|E]; simpl.
  - destruct (collides _ obj).
    + right. exists obj. rewrite Hvx. split; [|split; [assumption|]].
      * apply in_app_iff. right. now left.
      * generalize (if JS.gt (vx this) 0 then Obj.x obj - Rect.w hb
                    else Obj.x obj + Obj.w obj).
        now destruct (slideX_all hb rest this).
    + destruct IH as [IH|(o & Hin & Hb & Hx)]; [now left|].
      right. exists o. split; [|now split]. apply in_app_iff. now left.
  - destruct IH as [IH|(o & Hin & Hb & Hx)]; [now left|].
    right. exists o. split; [|now split]. apply in_app_iff. now left.
Qed.

(** X5. The tick asks for a particle on a cube jump only. When [interact]
    leaves the game alone, a tick that completes leaves [keys], [speedMult]
    and the index as they were, and adds to the particles one [dust] request
    of count 8, at the new [x] and at [y + 15], exactly when the mode is
    [cube], the key went down on this tick and [isOnGround] was set. *)
Theorem particles_only_on_a_cube_jump `{Host} (dt : float) (w w' : World) :
  (forall w0 obj, game (interact w0 obj) = game w0) ->
  fixedPhysics dt w = Normal w' ->
  keys (game w') = keys (game w)
  /\ speedMult (game w') = speedMult (game w)
  /\ quadTree (game w') = quadTree (game w)
  /\ particles (game w')
     = (particles (game w)
        ++ (if String.eqb (mode (player w)) "cube"
               && (justPressed w && isOnGround (player w))
            then [Particle.mk
                    (x (player w)
                     + prop cube "vx" * speedMult (game w)
                       * (if mirror (player w) then -1 else 1) * dt)
                    (y (player w) + 15) "dust" 8]
            else []))%list.
Proof.
  intros Hi Htick.
  destruct (fixedPhysics_inv dt w w' Htick) as (modeData & Hget & _ & ->).
  rewrite (game_after_integrate dt _ Hi).
  destruct (integrate_keeps dt modeData w) as (_ & _ & _ & _ & _ & _ & _ & ->).
  destruct (String.eqb_spec (mode (player w)) "cube") as [E|E]; simpl.
  - rewrite E in Hget. injection Hget as <-.
    destruct (justPressed w && isOnGround (player w)); simpl;
      repeat split; try reflexivity. now rewrite app_nil_r.
  - repeat split. now rewrite app_nil_r.
Qed.

Lemma particles_only_on_a_cube_jump_witness :
  exists w',
    fixedPhysics (H := Standard.host) FIXED_DT cubeJumping = Normal w'
    /\ particles (game w')
       = [Particle.mk (0 + 14 * 1 * 1 * FIXED_DT) (85 + 15) "dust" 8].
Proof.
  assert (exists w',
            fixedPhysics (H := Standard.host) FIXED_DT cubeJumping = Normal w')
    as [w' Hw'] by (eexists; vm_compute; reflexivity).
  exists w'. split; [exact Hw'|].
  destruct (particles_only_on_a_cube_jump (H := Standard.host) FIXED_DT
              cubeJumping w') as (_ & _ & _ & ->).
  - reflexivity.
  - exact Hw'.
  - reflexivity.
Defined.

(** X6. The jump of a mini robot is NaN. The robot entry of [MODES] has no
    [jump] and no [miniJump], so [miniFactorJ] is NaN for a mini robot: on a
    tick where the key goes down on the ground, [vy] and then [y] are NaN
    after the Y integration, and they are NaN at the end of the tick
    whenever the overlap test rejects a box whose [y] is NaN. *)
Theorem mini_robot_jump_is_NaN `{Host} (dt : float) (w : World) :
  mode (player w) = "robot" ->
  mini (player w) = true ->
  isOnGround (player w) = true ->
  justPressed w = true ->
  miniFactorJ robot (player w) = nan
  /\ vy (player (integrate dt robot w)) = nan
  /\ y (player (integrate dt robot w)) = nan
  /\ ((forall b obj, is_nan (Rect.y b) = true -> collides b obj = false) ->
      exists w',
        fixedPhysics dt w = Normal w'
        /\ vy (player w') = nan /\ y (player w') = nan).
Proof.
  intros Hmode Hmini Hground Hpress.
  assert (miniFactorJ robot (player w) = nan) as HJ
    by (unfold miniFactorJ; now rewrite Hmini).
  destruct (beforeSwitch_fields dt robot w)
    as (_ & Hmode' & _ & _ & Hground' & _).
  assert (vy (player (afterSwitch dt robot w)) = nan) as Hvy.
  { unfold afterSwitch. rewrite Hpress, HJ.
    rewrite modeSwitch_robot_vy by congruence.
    now rewrite mul_nan_r, mul_nan_l. }
  assert (y (player (integrate dt robot w)) = nan) as Hy
    by now rewrite integrate_y, Hvy, mul_nan_l, add_nan_r.
  rewrite <- integrate_vy in Hvy.
  split; [assumption|]. split; [assumption|]. split; [assumption|].
  intros Hc.
  assert (MODES_get (mode (player w)) = Some robot) as Hget
    by now rewrite Hmode.
  rewrite (fixedPhysics_Normal dt robot w Hget).
  clear Hmode' Hground'.
  generalize dependent (integrate dt robot w). intros w1 Hvy1 Hy1.
  eexists. split; [reflexivity|].
  rewrite (updateCollisions_y_nan dt w1 Hc Hy1). cbn [player set_player].
  destruct (trailUpdate_fields (postCollision (player w1)))
    as (_ & -> & -> & _).
  destruct (postCollision_fields (player w1)) as (_ & -> & -> & _).
  now split.
Qed.

Lemma standard_rejects_NaN (b : Rect.t) (obj : Obj.t) :
  is_nan (Rect.y b) = true -> collides (Host := Standard.host) b obj = false.
Proof.
  intros Hb. unfold collides, Standard.host, Standard.aabb.
  apply is_nan_true in Hb. rewrite Hb, ltb_nan_l, add_nan_l, ltb_nan_r.
  now rewrite !andb_false_r.
Qed.

Lemma mini_robot_jump_is_NaN_witness :
  exists w',
    fixedPhysics (H := Standard.host) FIXED_DT miniRobotJumping = Normal w'
    /\ vy (player w') = nan /\ y (player w') = nan.
Proof.
  destruct (mini_robot_jump_is_NaN (H := Standard.host) FIXED_DT
              miniRobotJumping) as (_ & _ & _ & Hend).
  - reflexivity.
  - reflexivity.
  - reflexivity.
  - reflexivity.
  - apply Hend. exact standard_rejects_NaN.
Defined.

(** X7. A mode that names an inherited member of [MODES]. For such a mode
    ([toString], [constructor], ...) the lookup gives a value that is not
    [undefined], nothing throws, and every property read from it is
    [undefined]: [vx], [x], [vy] and [y] are NaN after the Y integration, no
    branch of the [switch] being taken, and they are NaN at the end of the
    tick whenever the overlap test rejects a box whose [y] is NaN. *)
Theorem inherited_member_mode_runs_on_NaN `{Host} (dt : float) (w : World) :
  In (mode (player w)) Object_prototype_names ->
  MODES_get (mode (player w)) = Some inherited_member
  /\ vx (player (integrate dt inherited_member w)) = nan
  /\ x (player (integrate dt inherited_member w)) = nan
  /\ vy (player (integrate dt inherited_member w)) = nan
  /\ y (player (integrate dt inherited_member w)) = nan
  /\ ((forall b obj, is_nan (Rect.y b) = true -> collides b obj = false) ->
      exists w',
        fixedPhysics dt w = Normal w'
        /\ vx (player w') = nan /\ x (player w') = nan
        /\ vy (player w') = nan /\ y (player w') = nan).
Proof.
  intros Hin.
  assert (MODES_get (mode (player w)) = Some inherited_member
          /\ ~ In (mode (player w)) mode_names) as [Hget Hother].
  { simpl in Hin.
    repeat (destruct Hin as [<-|Hin];
            [split; [reflexivity|simpl; intuition discriminate]|]).
    destruct Hin. }
  destruct (integrate_keeps dt inherited_member w) as (Hx & Hvx & _).
  change (prop inherited_member "vx") with nan in Hx, Hvx.
  rewrite !mul_nan_l in Hvx. rewrite !mul_nan_l, add_nan_r in Hx.
  destruct (beforeSwitch_fields dt inherited_member w)
    as (_ & Hmode & _ & _ & _ & _ & Hfall).
  assert (vy (player (afterSwitch dt inherited_member w)) = nan) as Hvy.
  { unfold afterSwitch. rewrite modeSwitch_other by now rewrite Hmode.
    rewrite Hfall. unfold gravity.
    change (prop inherited_member "gravity") with nan.
    now rewrite !mul_nan_l, add_nan_r. }
  assert (y (player (integrate dt inherited_member w)) = nan) as Hy
    by now rewrite integrate_y, Hvy, mul_nan_l, add_nan_r.
  rewrite <- integrate_vy in Hvy.
  split; [assumption|]. repeat (split; [assumption|]).
  intros Hc. rewrite (fixedPhysics_Normal dt inherited_member w Hget).
  clear Hmode Hfall.
  generalize dependent (integrate dt inherited_member w).
  intros w1 Hx1 Hvx1 Hvy1 Hy1.
  eexists. split; [reflexivity|].
  rewrite (updateCollisions_y_nan dt w1 Hc Hy1). cbn [player set_player].
  destruct (closing_steps_keep (player w1)) as (-> & -> & -> & -> & _).
  now repeat split.
Qed.

Lemma inherited_member_mode_runs_on_NaN_witness :
  exists w',
    fixedPhysics (H := Standard.host) FIXED_DT toStringPlayer = Normal w'
    /\ vx (player w') = nan /\ x (player w') = nan
    /\ vy (player w') = nan /\ y (player w') = nan.
Proof.
  destruct (inherited_member_mode_runs_on_NaN (H := Standard.host) FIXED_DT
              toStringPlayer) as (_ & _ & _ & _ & _ & Hend).
  - simpl. tauto.
  - apply Hend. exact standard_rejects_NaN.
Defined.

(** [flipY] over a tick. *)
Lemma flipY_after_tick `{Host} (dt : float) (w w' : World) :
  (forall w0 obj, flipY (player (interact w0 obj)) = flipY (player w0)) ->
  fixedPhysics dt w = Normal w' ->
  flipY (player w')
  = if (String.eqb (mode (player w)) "ball"
        || String.eqb (mode (player w)) "spider") && justPressed w
    then - flipY (player w) else flipY (player w).
Proof.
  intros Hi Htick.
  destruct (fixedPhysics_inv dt w w' Htick) as (modeData & _ & -> & _).
  rewrite (after_integrate flipY); try assumption; try (now intros ? []).
  destruct (integrate_keeps dt modeData w)
    as (_ & _ & _ & _ & _ & _ & -> & _).
  now rewrite mul_minus_one.
Qed.

(** X8. Gravity is reversed by a press, in ball and spider mode only. When
    [interact] leaves [flipY] alone, a tick that completes ends with [flipY]
    replaced by its opposite if the mode is [ball] or [spider] and the key
    went down on this tick, and with [flipY] as it was otherwise; the
    product by [-1] is exact, so that a second press restores the very value
    that [flipY] had before the first. *)
Theorem press_negates_flipY `{Host} (dt : float) (w w' : World) :
  (forall w0 obj, flipY (player (interact w0 obj)) = flipY (player w0)) ->
  fixedPhysics dt w = Normal w' ->
  flipY (player w')
  = (if (String.eqb (mode (player w)) "ball"
         || String.eqb (mode (player w)) "spider") && justPressed w
     then - flipY (player w) else flipY (player w))
  /\ forall dt2 w2 w2',
       mode (player w) = "ball" \/ mode (player w) = "spider" ->
       justPressed w = true ->
       mode (player w2) = mode (player w) ->
       flipY (player w2) = flipY (player w') ->
       justPressed w2 = true ->
       fixedPhysics dt2 w2 = Normal w2' ->
       flipY (player w2') = flipY (player w).
Proof.
  intros Hi Htick.
  pose proof (flipY_after_tick dt w w' Hi Htick) as Hfirst.
  split; [assumption|].
  intros dt2 w2 w2' Hmode Hpress Hmode2 Hflip2 Hpress2 Htick2.
  rewrite (flipY_after_tick dt2 w2 w2' Hi Htick2), Hmode2, Hpress2, Hflip2,
    Hfirst, Hpress.
  destruct Hmode as [-> | ->]; simpl; apply opp_involutive.
Qed.

Lemma press_negates_flipY_witness :
  exists w' w2',
    fixedPhysics (H := Standard.host) FIXED_DT ballPressed = Normal w'
    /\ flipY (player w') = -1
    /\ fixedPhysics (H := Standard.host) FIXED_DT ballPressedAgain = Normal w2'
    /\ flipY (player w2') = 1.
Proof.
  assert (exists w',
            fixedPhysics (H := Standard.host) FIXED_DT ballPressed = Normal w')
    as [w' Hw'] by (eexists; vm_compute; reflexivity).
  assert (exists w2',
            fixedPhysics (H := Standard.host) FIXED_DT ballPressedAgain
            = Normal w2')
    as [w2' Hw2'] by (eexists; vm_compute; reflexivity).
  exists w', w2'.
  destruct (press_negates_flipY (H := Standard.host) FIXED_DT ballPressed w')
    as [Hfirst Hsecond].
  - reflexivity.
  - exact Hw'.
  - split; [exact Hw'|]. split; [exact Hfirst|]. split; [exact Hw2'|].
    apply (Hsecond FIXED_DT ballPressedAgain w2').
    + now left.
    + reflexivity.
    + reflexivity.
    + rewrite Hfirst. reflexivity.
    + reflexivity.
    + exact Hw2'.
Defined.

(** X9. The post-collision normalization is idempotent, and it leaves a
    cube within a turn as it is. [rotation %= 360] applied to its own result
    changes nothing, for every rotation (a NaN or infinite one becomes NaN
    and stays so); and a rotation with [|rotation| < 360] is not changed at
    all, negative ones included. *)
Theorem rotation_normalization_is_idempotent (this : Player) :
  postCollision (postCollision this) = postCollision this
  /\ ((abs (rotation this) <? 360) = true -> postCollision this = this).
Proof.
  assert (Prim2SF 360 = S754_finite false 6333186975989760 (-44)) as H360
    by reflexivity.
  split.
  - unfold postCollision.
    destruct (String.eqb (mode this) "cube") eqn:E.
    + assert (mode (set_rotation (JS.rem (rotation this) 360) this)
              = mode this) as -> by now destruct this.
      rewrite E.
      assert (rotation (set_rotation (JS.rem (rotation this) 360) this)
              = JS.rem (rotation this) 360) as -> by now destruct this.
      rewrite (rem_idempotent _ _ _ _ H360).
      generalize (JS.rem (rotation this) 360). now destruct this.
    + now rewrite E.
  - intros Hlt. unfold postCollision.
    rewrite (rem_small _ _ _ _ H360 Hlt).
    destruct (String.eqb (mode this) "cube"); now destruct this.
Qed.

Lemma rotation_normalization_is_idempotent_witness :
  postCollision tiltedCube = tiltedCube.
Proof.
  apply (rotation_normalization_is_idempotent tiltedCube). reflexivity.
Defined.

(** X10. [mirror] reverses the horizontal velocity and nothing else of it.
    When [interact] leaves [vx] alone, [vx] at the end of a tick is the
    product of the [vx] of the mode and of the speed multiplier, or exactly
    its opposite when the player is mirrored; it does not depend on the
    [vx] before the tick. *)
Theorem mirror_negates_vx `{Host} (dt : float) (w w' : World)
    (modeData : ModeEntry) :
  (forall w0 obj, vx (player (interact w0 obj)) = vx (player w0)) ->
  MODES_get (mode (player w)) = Some modeData ->
  fixedPhysics dt w = Normal w' ->
  vx (player w')
  = if mirror (player w) then - (prop modeData "vx" * speedMult (game w))
    else prop modeData "vx" * speedMult (game w).
Proof.
  intros Hi Hget Htick.
  destruct (fixedPhysics_inv dt w w' Htick) as (modeData' & Hget' & -> & _).
  assert (modeData' = modeData) as -> by congruence.
  rewrite (after_integrate vx); try assumption; try (now intros ? []).
  destruct (integrate_keeps dt modeData w) as (_ & -> & _).
  destruct (mirror (player w)); [apply mul_minus_one|apply mul_one].
Qed.

Lemma mirror_negates_vx_witness :
  exists w',
    fixedPhysics (H := Standard.host) FIXED_DT mirroredCube = Normal w'
    /\ vx (player w') = - (14 * 1).
Proof.
  assert (exists w',
            fixedPhysics (H := Standard.host) FIXED_DT mirroredCube = Normal w')
    as [w' Hw'] by (eexists; vm_compute; reflexivity).
  exists w'. split; [exact Hw'|].
  apply (mirror_negates_vx (H := Standard.host) FIXED_DT mirroredCube w' cube).
  - reflexivity.
  - reflexivity.
  - exact Hw'.
Defined.

(** X11. The tick does not touch the configuration of the player. When
    [interact] leaves the player alone, a tick that completes ends with the
    [mode], [mini], [mirror] and [time] that it began with: only an
    interaction changes the mode or the size, and [fixedPhysics] never
    advances [time], on which the bobble of the ufo depends. *)
Theorem tick_keeps_the_configuration `{Host} (dt : float) (w w' : World) :
  (forall w0 obj, player (interact w0 obj) = player w0) ->
  fixedPhysics dt w = Normal w' ->
  mode (player w') = mode (player w)
  /\ mini (player w') = mini (player w)
  /\ mirror (player w') = mirror (player w)
  /\ time (player w') = time (player w).
Proof.
  intros Hi Htick.
  destruct (fixedPhysics_inv dt w w' Htick) as (modeData & _ & -> & _).
  rewrite (after_integrate mode), (after_integrate mini),
    (after_integrate mirror), (after_integrate time);
    try (now intros ? []); try (intros; now rewrite Hi).
  destruct (integrate_keeps dt modeData w)
    as (_ & _ & -> & -> & -> & -> & _).
  now repeat split.
Qed.

Lemma tick_keeps_the_configuration_witness :
  exists w',
    fixedPhysics (H := Standard.host) FIXED_DT fastUfo = Normal w'
    /\ mode (player w') = "ufo" /\ time (player w') = 0.
Proof.
  assert (exists w',
            fixedPhysics (H := Standard.host) FIXED_DT fastUfo = Normal w')
    as [w' Hw'] by (eexists; vm_compute; reflexivity).
  exists w'. split; [exact Hw'|].
  destruct (tick_keeps_the_configuration (H := Standard.host) FIXED_DT fastUfo
              w') as (Hmode & _ & _ & Htime).
  - reflexivity.
  - exact Hw'.
  - split; [exact Hmode|exact Htime].
Defined.

(** The rotation after the [switch], in the modes that do not assign it. *)
Lemma modeSwitch_rotation `{Host} (dt : float) (modeData : ModeEntry)
    (mfJ : float) (pressed holding : bool) (w : World) :
  (mode (player w) = "robot" \/ mode (player w) = "spider"
   \/ ~ In (mode (player w)) mode_names ->
   rotation (player (modeSwitch dt modeData mfJ pressed holding w))
   = rotation (player w))
  /\ (mode (player w) = "ball" ->
      rotation (player (modeSwitch dt modeData mfJ pressed holding w))
      = rotation (player w) + prop modeData "rotSpeed" * dt * 60).
Proof.
  split.
  - intros [Hmode|[Hmode|Hmode]].
    + unfold modeSwitch; cbv zeta; rewrite Hmode. cbn [String.eqb Ascii.eqb
        Bool.eqb orb].
      generalize (prop modeData "jumpMax") (prop modeData "jumpBase").
      destruct w as [[] g]; cbn [player game]. intros.
      now destruct (pressed && _).
    + unfold modeSwitch; cbv zeta; rewrite Hmode. cbn [String.eqb Ascii.eqb
        Bool.eqb orb].
      generalize (prop modeData "decay") (prop modeData "jump").
      destruct w as [[] g]; cbn [player game]. intros.
      now destruct pressed.
    + now rewrite modeSwitch_other.
  - intros Hmode. unfold modeSwitch; cbv zeta; rewrite Hmode.
    cbn [String.eqb Ascii.eqb Bool.eqb orb].
    generalize (prop modeData "rotSpeed").
    destruct w as [[] g]; cbn [player game]. intros.
    now destruct pressed.
Qed.

(** X12. The rotation is normalized for the cube only. When [interact]
    leaves the rotation alone, a tick that completes leaves the rotation of
    a robot, of a spider and of a player in a mode without a [case] as it
    was, and adds [rotSpeed * dt * 60] to the rotation of a ball, without
    reducing the sum: [% 360] is applied in cube mode only. *)
Theorem rotation_outside_cube_mode `{Host} (dt : float) (w w' : World)
    (modeData : ModeEntry) :
  (forall w0 obj, rotation (player (interact w0 obj)) = rotation (player w0)) ->
  (forall w0 obj, mode (player (interact w0 obj)) = mode (player w0)) ->
  MODES_get (mode (player w)) = Some modeData ->
  fixedPhysics dt w = Normal w' ->
  (mode (player w) = "robot" \/ mode (player w) = "spider"
   \/ ~ In (mode (player w)) mode_names ->
   rotation (player w') = rotation (player w))
  /\ (mode (player w) = "ball" ->
      rotation (player w')
      = rotation (player w) + prop modeData "rotSpeed" * dt * 60).
Proof.
  intros Hr Hm Hget Htick.
  destruct (fixedPhysics_inv dt w w' Htick) as (modeData' & Hget' & -> & _).
  assert (modeData' = modeData) as -> by congruence.
  assert (mode (player w) <> "cube" ->
          rotation
            (trailUpdate
               (postCollision
                  (player (updateCollisions dt (integrate dt modeData w)))))
          = rotation (player (afterSwitch dt modeData w))) as Hrot.
  { intros Hne.
    destruct (integrate_keeps dt modeData w) as (_ & _ & Hmode & _).
    assert (rotation (player (integrate dt modeData w))
            = rotation (player (afterSwitch dt modeData w))) as <-.
    { unfold integrate. cbv zeta.
      generalize (afterSwitch dt modeData w). now intros [[] ?]. }
    generalize dependent (integrate dt modeData w). intros w1 Hmode.
    assert (mode (player (updateCollisions dt w1)) = mode (player w1)
            /\ rotation (player (updateCollisions dt w1))
               = rotation (player w1)) as [Hm2 Hr2].
    { unfold updateCollisions. cbv zeta.
      rewrite (interact_all_invariant (fun w0 => mode (player w0))),
        (interact_all_invariant (fun w0 => rotation (player w0)))
        by assumption.
      cbn [player set_player].
      destruct (solid_passes_keep (getHitbox (player w1))
                  (quadTree (game w1) (getHitbox (player w1))) (player w1))
        as (_ & -> & -> & _).
      now split. }
    generalize dependent (updateCollisions dt w1). intros w2 Hm2 Hr2.
    unfold trailUpdate, postCollision.
    destruct (String.eqb_spec (mode (player w2)) "cube") as [E|E];
      [congruence|].
    rewrite <- Hr2. now destruct (player w2). }
  destruct (beforeSwitch_fields dt modeData w) as (_ & Hmode & _).
  destruct (beforeSwitch_motion dt modeData w) as (_ & _ & _ & _ & Hrot0).
  destruct (modeSwitch_rotation dt modeData (miniFactorJ modeData (player w))
              (justPressed w) (inputNow (game w)) (beforeSwitch dt modeData w))
    as [Hkeep Hball].
  rewrite Hmode in Hkeep, Hball. rewrite Hrot0 in Hkeep, Hball.
  split.
  - intros Hcase. rewrite Hrot.
    + now apply Hkeep.
    + destruct Hcase as [E|[E|E]]; try (rewrite E; discriminate).
      intros E'. apply E. rewrite E'. simpl. tauto.
  - intros E. rewrite Hrot by (rewrite E; discriminate). now apply Hball.
Qed.

Lemma rotation_outside_cube_mode_witness :
  exists w',
    fixedPhysics (H := Standard.host) FIXED_DT ballPressed = Normal w'
    /\ rotation (player w') = 0 + 8 * FIXED_DT * 60.
Proof.
  assert (exists w',
            fixedPhysics (H := Standard.host) FIXED_DT ballPressed = Normal w')
    as [w' Hw'] by (eexists; vm_compute; reflexivity).
  exists w'. split; [exact Hw'|].
  destruct (rotation_outside_cube_mode (H := Standard.host) FIXED_DT
              ballPressed w' ball) as [_ Hball].
  - reflexivity.
  - reflexivity.
  - reflexivity.
  - exact Hw'.
  - apply Hball. reflexivity.
Defined.

(** [vy] after the [switch] in the modes whose branch does not read the
    speed multiplier. *)
Lemma modeSwitch_vy_without_speed `{Host} (dt : float) (modeData : ModeEntry)
    (mfJ : float) (pressed holding : bool) (w : World) :
  In (mode (player w)) ["cube"; "ball"; "robot"; "spider"] ->
  vy (player (modeSwitch dt modeData mfJ pressed holding w))
  = if String.eqb (mode (player w)) "cube" then
      if pressed && isOnGround (player w)
      then - prop modeData "jump" * mfJ * flipY (player w)
      else vy (player w)
    else if String.eqb (mode (player w)) "ball" then vy (player w)
    else if String.eqb (mode (player w)) "robot" then
      if pressed && isOnGround (player w)
      then - (JS.Math_min (holdTime (player w)) 20 / 20
              * (prop modeData "jumpMax" - prop modeData "jumpBase")
              + prop modeData "jumpBase") * mfJ * flipY (player w)
      else vy (player w)
    else
      if pressed then - prop modeData "jump" * (flipY (player w) * -1)
      else vy (player w) * prop modeData "decay".
Proof.
  intros Hin. simpl in Hin.
  destruct Hin as [Hm|[Hm|[Hm|[Hm|[]]]]]; symmetry in Hm;
    unfold modeSwitch; cbv zeta; rewrite Hm;
    cbn [String.eqb Ascii.eqb Bool.eqb orb];
    generalize (prop modeData "jump") (prop modeData "jumpMax")
      (prop modeData "jumpBase") (prop modeData "decay")
      (prop modeData "rotGround") (prop modeData "rotAir")
      (prop modeData "rotSpeed"); intros;
    destruct w as [[] g]; cbn [player game isOnGround vy flipY holdTime].
  - now destruct (pressed && _).
  - now destruct pressed.
  - now destruct (pressed && _).
  - now destruct pressed.
Qed.

(** X13. The speed multiplier does not act on the vertical motion of the
    cube, the ball, the robot and the spider. In these four modes [vy] and
    [y] after the Y integration are the same for every value of
    [game.speedMult], everything else being equal: a speed change alters
    [vx] and [x] only. (In ship, swing, wave and ufo mode the multiplier
    enters the thrust, the amplitude or the clamp.) *)
Theorem speed_does_not_act_on_vy `{Host} (dt : float) (w : World)
    (modeData : ModeEntry) (speed : float) :
  In (mode (player w)) ["cube"; "ball"; "robot"; "spider"] ->
  let w2 := set_frame (mkFrame (keys (game w)) speed) w in
  vy (player (integrate dt modeData w2)) = vy (player (integrate dt modeData w))
  /\ y (player (integrate dt modeData w2)) = y (player (integrate dt modeData w)).
Proof.
  intros Hin w2.
  assert (player w2 = player w /\ inputNow (game w2) = inputNow (game w)
          /\ justPressed w2 = justPressed w) as (Hp & Hinp & Hjp)
    by (unfold w2, justPressed; now destruct w as [? []]).
  assert (vy (player (afterSwitch dt modeData w2))
          = vy (player (afterSwitch dt modeData w))
          /\ y (player (afterSwitch dt modeData w2))
             = y (player (afterSwitch dt modeData w))) as [Hvy Hy].
  { unfold afterSwitch.
    destruct (modeSwitch_fields dt modeData (miniFactorJ modeData (player w2))
                (justPressed w2) (inputNow (game w2))
                (beforeSwitch dt modeData w2)) as (-> & _).
    destruct (modeSwitch_fields dt modeData (miniFactorJ modeData (player w))
                (justPressed w) (inputNow (game w))
                (beforeSwitch dt modeData w)) as (-> & _).
    destruct (beforeSwitch_fields dt modeData w2)
      as (_ & Hm2 & _ & Hf2 & Hg2 & Hy2 & Hv2).
    destruct (beforeSwitch_fields dt modeData w)
      as (_ & Hm1 & _ & Hf1 & Hg1 & Hy1 & Hv1).
    destruct (beforeSwitch_hold dt modeData w2) as [_ Hh2].
    destruct (beforeSwitch_hold dt modeData w) as [_ Hh1].
    rewrite !modeSwitch_vy_without_speed by (rewrite ?Hm2, ?Hm1, ?Hp; assumption).
    rewrite Hm2, Hm1, Hf2, Hf1, Hg2, Hg1, Hy2, Hy1, Hv2, Hv1, Hh2, Hh1,
      Hp, Hinp, Hjp.
    split; reflexivity. }
  split.
  - now rewrite !integrate_vy.
  - now rewrite !integrate_y, Hvy, Hy.
Qed.

Lemma speed_does_not_act_on_vy_witness :
  vy (player (integrate (H := Standard.host) FIXED_DT cube
                (set_frame (mkFrame space 4) cubeJumping)))
  = vy (player (integrate (H := Standard.host) FIXED_DT cube cubeJumping)).
Proof.
  apply (speed_does_not_act_on_vy (H := Standard.host) FIXED_DT cubeJumping
           cube 4).
  simpl. tauto.
Defined.

End TickMore.

(** ** [update], pass by pass *)

Section UpdateFacts.
Import Legacy.
Context `{Host}.
Local Open Scope float_scope.

Lemma legacy_slideX_shape (bbox : Rect.t) (this : Player) (o : Obj.t) :
  slideX bbox this o = set_x (x (slideX bbox this o)) this.
Proof.
  unfold slideX. destruct (_ || _); [now destruct this|].
  destruct (collide _ o); now destruct this.
Qed.

Lemma legacy_slideX_all_shape (bbox : Rect.t) (candidates : list Obj.t)
    (this : Player) :
  slideX_all bbox candidates this
  = set_x (x (slideX_all bbox candidates this)) this.
Proof.
  unfold slideX_all. revert this.
  induction candidates as [|o rest IH]; intros this; simpl;
    [now destruct this|].
  pose proof (IH (slideX bbox this o)) as HR.
  generalize dependent (fold_left (slideX bbox) rest (slideX bbox this o)).
  intros R HR. rewrite HR, (legacy_slideX_shape bbox this o).
  generalize (x (slideX bbox this o)) (x R). now destruct this.
Qed.

Lemma legacy_slideX_all_snoc (bbox : Rect.t) (candidates : list Obj.t)
    (o : Obj.t) (this : Player) :
  slideX_all bbox (candidates ++ [o]) this
  = slideX bbox (slideX_all bbox candidates this) o.
Proof. unfold slideX_all. now rewrite fold_left_app. Qed.

(** Where the X loop leaves [x]: where it was, or on the edge of a block
    among the candidates that collided with the box of the loop. *)
Lemma legacy_slideX_all_edge (bbox : Rect.t) (candidates : list Obj.t)
    (this : Player) :
  x (slideX_all bbox candidates this) = x this
  \/ exists o x0,
       In o candidates /\ Obj.type o = "block"
       /\ collide (Rect.mk (x0 - Rect.w bbox / 2) (Rect.y bbox) (Rect.w bbox)
                     (Rect.h bbox)) o = true
       /\ x (slideX_all bbox candidates this)
          = if JS.gt (vx this) 0 then Obj.x o - Rect.w bbox
            else Obj.x o + Obj.w o.
Proof.
  induction candidates as [|o rest IH] using rev_ind; [now left|].
  rewrite legacy_slideX_all_snoc.
  assert (vx (slideX_all bbox rest this) = vx this) as Hvx.
  { rewrite legacy_slideX_all_shape.
    generalize (x (slideX_all bbox rest this)). now destruct this. }
  assert (x (slideX_all bbox rest this) = x this
          \/ exists o' x0,
               In o' (rest ++ [o]) /\ Obj.type o' = "block"
               /\ collide (Rect.mk (x0 - Rect.w bbox / 2) (Rect.y bbox)
                             (Rect.w bbox) (Rect.h bbox)) o' = true
               /\ x (slideX_all bbox rest this)
                  = if JS.gt (vx this) 0 then Obj.x o' - Rect.w bbox
                    else Obj.x o' + Obj.w o') as IH'.
  { destruct IH as [IH|(o' & x0 & Hin & Hb & Hc & Hx)]; [now left|].
    right. exists o', x0. split; [|now repeat split].
    apply in_app_iff. now left. }
  unfold slideX.
  destruct (String.eqb_spec (Obj.type o) "block") as [E|E]; simpl;
    [|assumption].
  destruct (String.eqb (Obj.type o) "spike"); [assumption|].
  destruct (collide _ o) eqn:Hc; [|assumption].
  right. exists o, (x (slideX_all bbox rest this)). rewrite Hvx.
  split; [|split; [assumption|split; [assumption|]]].
  - apply in_app_iff. right. now left.
  - generalize (if JS.gt (vx this) 0 then Obj.x o - Rect.w bbox
                else Obj.x o + Obj.w o).
    now destruct (slideX_all bbox rest this).
Qed.

Lemma legacy_resolveY_shape (bbox : Rect.t) (candidates : list Obj.t)
    (this : Player) :
  resolveY bbox candidates this
  = set_onGround (onGround (resolveY bbox candidates this))
      (set_vy (vy (resolveY bbox candidates this))
         (set_y (y (resolveY bbox candidates this)) this)).
Proof.
  induction candidates as [|o rest IH]; simpl; [now destruct this|].
  destruct (negb _); [assumption|].
  destruct (collide _ o); [|assumption].
  destruct (JS.gt _ _); now destruct this.
Qed.

(** The Y loop sets [onGround] at a floor hit only. *)
Lemma legacy_resolveY_grounds (bbox : Rect.t) (candidates : list Obj.t)
    (this : Player) :
  onGround this = false ->
  onGround (resolveY bbox candidates this) = true ->
  exists o,
    In o candidates /\ Obj.type o = "block"
    /\ collide (Rect.mk (Rect.x bbox) (y this - Rect.h bbox / 2)
                  (Rect.w bbox) (Rect.h bbox)) o = true
    /\ JS.gt (vy this) 0 = true
    /\ y (resolveY bbox candidates this) = Obj.y o - Rect.h bbox
    /\ vy (resolveY bbox candidates this) = 0.
Proof.
  intros Hair. induction candidates as [|o rest IH]; simpl; [congruence|].
  destruct (String.eqb_spec (Obj.type o) "block") as [E|E]; simpl.
  - destruct (collide _ o) eqn:Hc.
    + destruct (JS.gt (vy this) 0) eqn:Hvy.
      * intros _. exists o. split; [now left|]. split; [assumption|].
        split; [assumption|]. split; [reflexivity|]. now destruct this.
      * assert (onGround (set_vy 0 (set_y (Obj.y o + Obj.h o) this))
                = onGround this) as -> by now destruct this.
        congruence.
    + intros Hg. destruct (IH Hg) as (o' & Hin & Hrest).
      exists o'. split; [now right|assumption].
  - intros Hg. destruct (IH Hg) as (o' & Hin & Hrest).
    exists o'. split; [now right|assumption].
Qed.

Lemma handle_all_invariant {A : Type} (f : World -> A) (bbox : Rect.t)
    (candidates : list Obj.t) (w : World) :
  (forall w0 o, f (handleObject w0 o) = f w0) ->
  f (handle_all bbox candidates w) = f w.
Proof.
  intros Hf. unfold handle_all. revert w.
  induction candidates as [|o rest IH]; intros w; simpl; [reflexivity|].
  rewrite IH. unfold handleOne. destruct (collide bbox o); auto.
Qed.

Lemma die_all_invariant {A : Type} (f : World -> A) (bbox : Rect.t)
    (candidates : list Obj.t) (w : World) :
  (forall w0, f (die w0) = f w0) ->
  f (die_all bbox candidates w) = f w.
Proof.
  intros Hf. unfold die_all. revert w.
  induction candidates as [|o rest IH]; intros w; simpl; [reflexivity|].
  rewrite IH. unfold dieOne. destruct (_ && _); auto.
Qed.

Lemma rotate_shape (dt : float) (modeData : ModeEntry) (this : Player) :
  rotate dt modeData this = set_rot (rot (rotate dt modeData this)) this.
Proof.
  unfold rotate. cbv zeta.
  generalize (if onGround this then prop modeData "rotSpeedGround"
              else prop modeData "rotSpeedAir").
  intros r. destruct (String.eqb (mode this) "cube"); now destruct this.
Qed.


(** The steps before the loops. *)
Lemma legacy_modeSwitch_keeps (dt : float) (modeData : ModeEntry)
    (edge holding : bool) (w : World) :
  x (player (modeSwitch dt modeData edge holding w)) = x (player w)
  /\ y (player (modeSwitch dt modeData edge holding w)) = y (player w)
  /\ vx (player (modeSwitch dt modeData edge holding w)) = vx (player w)
  /\ trail (player (modeSwitch dt modeData edge holding w)) = trail (player w)
  /\ quadTree (game (modeSwitch dt modeData edge holding w))
     = quadTree (game w)
  /\ level_objects (game (modeSwitch dt modeData edge holding w))
     = level_objects (game w).
Proof.
  unfold modeSwitch; cbv zeta.
  generalize (prop modeData "jump") (prop modeData "thrust")
    (prop modeData "fallThrust") (prop modeData "vyLimit")
    (prop modeData "thrustUp") (prop modeData "thrustDown").
  intros.
  destruct w as [[x0 y0 vx0 vy0 rot0 m0 mini0 mir0 flip0 grd0 last0 tr0] g0];
    cbn [player game mode onGround].
  destruct (String.eqb m0 "cube");
    [destruct (edge && grd0); now repeat split|].
  destruct (String.eqb m0 "ship"); [destruct holding; now repeat split|].
  destruct (String.eqb m0 "ball"); [destruct edge; now repeat split|].
  destruct (String.eqb m0 "ufo"); [destruct edge; now repeat split|].
  destruct (String.eqb m0 "wave"); [now repeat split|].
  destruct (String.eqb m0 "robot");
    [destruct (holding && grd0); now repeat split|].
  destruct (String.eqb m0 "spider"); [destruct edge; now repeat split|].
  destruct (String.eqb m0 "swing"); [destruct holding; now repeat split|].
  now repeat split.
Qed.

Lemma accelerate_keeps (dt : float) (modeData : ModeEntry) (edge : bool)
    (w : World) :
  vx (player (accelerate dt modeData edge (sampleInput w)))
  = prop modeData "baseSpeed" * speedMult (game w)
    * (if mirror (player w) then -1 else 1)
  /\ x (player (accelerate dt modeData edge (sampleInput w))) = x (player w)
  /\ y (player (accelerate dt modeData edge (sampleInput w))) = y (player w)
  /\ trail (player (accelerate dt modeData edge (sampleInput w)))
     = trail (player w)
  /\ quadTree (game (accelerate dt modeData edge (sampleInput w)))
     = quadTree (game w)
  /\ level_objects (game (accelerate dt modeData edge (sampleInput w)))
     = level_objects (game w).
Proof.
  unfold accelerate.
  destruct (legacy_modeSwitch_keeps dt modeData edge
              (input (game (sampleInput w)))
              (beforeSwitch dt modeData (sampleInput w)))
    as (-> & -> & -> & -> & -> & ->).
  unfold beforeSwitch, sampleInput. cbv zeta.
  generalize (prop modeData "baseSpeed") (prop modeData "gravity").
  destruct w as [[] g]; cbn [player game]. intros. now repeat split.
Qed.

(** The entries that a lookup can give. *)
Lemma MODES_get_Some (k : string) (modeData : ModeEntry) :
  MODES_get k = Some modeData ->
  In modeData
     [Table.cube; Table.ship; Table.ball; Table.ufo; Table.wave; Table.robot;
      Table.spider; Table.swing; inherited_member].
Proof.
  unfold MODES_get, Table.MODES. cbn [own_property].
  repeat match goal with
         | |- context [String.eqb k ?n] =>
             destruct (String.eqb k n);
             [intros [= <-]; simpl; tauto|]
         end.
  destruct (existsb _ _); [intros [= <-]; simpl; tauto|discriminate].
Qed.

End UpdateFacts.

(** ** [update]: errors, missing properties, the ground flag, the trail *)

Section UpdateProperties.
Import Legacy Table Scenario LegacyLevels FloatFacts ExactFacts.
Local Open Scope float_scope.

Lemma sub_nan_r (a : float) : a - nan = nan.
Proof.
  apply Prim2SF_inj. rewrite FloatAxioms.sub_spec, Prim2SF_nan.
  now destruct (Prim2SF a).
Qed.

Lemma update_Done `{Host} (dt : float) (modeData : ModeEntry) (w : World) :
  MODES_get (mode (player w)) = Some modeData ->
  update dt w
  = Done (land dt modeData (accelerate dt modeData (pressEdge w) (sampleInput w))).
Proof. intros Hget. unfold update. cbv zeta. now rewrite Hget. Qed.

Lemma update_inv `{Host} (dt : float) (w w' : World) :
  update dt w = Done w' ->
  exists modeData,
    MODES_get (mode (player w)) = Some modeData
    /\ w' = land dt modeData
              (accelerate dt modeData (pressEdge w) (sampleInput w)).
Proof.
  unfold update. cbv zeta.
  destruct (MODES_get (mode (player w))) as [modeData|]; [|discriminate].
  intros [= <-]. now exists modeData.
Qed.

(** X14. [update] with a mode that is not in the table throws after it has
    sampled the input. For a mode that is none of the eight and names no
    inherited member, [update] throws a [TypeError] (at
    [modeData.baseSpeed]); at that point [lastInput] has been assigned and
    nothing else has changed, so that the key that went down during this
    call is no press edge for the state that the throw leaves.
    [fixedPhysics] throws before it assigns anything. *)
Theorem update_throws_after_sampling `{Host} (dt : float) (w : World) :
  ~ In (mode (player w)) mode_names ->
  ~ In (mode (player w)) Object_prototype_names ->
  update dt w
  = Threw "TypeError"
      (set_player (set_lastInput (input (game w)) (player w)) w)
  /\ pressEdge (set_player (set_lastInput (input (game w)) (player w)) w)
     = false.
Proof.
  intros Hmode Hproto.
  assert (MODES_get (mode (player w)) = None) as Hget.
  { unfold MODES_get. rewrite (own_property_MODES_None _ Hmode).
    destruct (existsb _ _) eqn:E; [|reflexivity].
    apply existsb_eqb_In in E. contradiction. }
  split.
  - unfold update. cbv zeta. now rewrite Hget.
  - unfold pressEdge. destruct w as [[] g]; cbn [player game set_player].
    cbn [lastInput set_lastInput]. now destruct (input g).
Qed.

Lemma update_throws_after_sampling_witness :
  update (H := Legacy.Standard.host) FIXED_DT planePressed
  = Threw "TypeError"
      (mkWorld (mkPlayer 0 0 0 0 0 "plane" false false 1 false true [])
         (LegacyLevels.emptyLevel space)).
Proof.
  destruct (update_throws_after_sampling (H := Legacy.Standard.host)
              FIXED_DT planePressed) as [-> _].
  - simpl. intuition discriminate.
  - simpl. intuition discriminate.
  - reflexivity.
Defined.

(** No entry of [MODES], and no inherited member, has a [baseSpeed]. *)
Lemma no_baseSpeed (k : string) (modeData : ModeEntry) :
  MODES_get k = Some modeData -> prop modeData "baseSpeed" = nan.
Proof.
  intros Hget. apply MODES_get_Some in Hget. simpl in Hget.
  repeat (destruct Hget as [<-|Hget]; [reflexivity|]). destruct Hget.
Qed.

(** [land], over its parts. *)
Lemma land_views `{Host} (dt : float) (modeData : ModeEntry) (w : World) :
  land dt modeData w
  = die_all (landBBoxAtX dt w) (landCandidates dt w)
      (set_player
         (trailUpdate
            (rotate dt modeData
               (player
                  (handle_all (landBBoxAtX dt w) (landCandidates dt w)
                     (set_player (landResolved dt w) w)))))
         (handle_all (landBBoxAtX dt w) (landCandidates dt w)
            (set_player (landResolved dt w) w))).
Proof. reflexivity. Qed.

(** The player that [land] leaves, on a field that the rotation, the trail
    update and the host keep: it is the field after the Y loop. *)
Lemma land_after_loops `{Host} {A : Type} (f : Player -> A) (dt : float)
    (modeData : ModeEntry) (w : World) :
  (forall v p, f (set_rot v p) = f p) ->
  (forall v p, f (set_trail v p) = f p) ->
  (forall w0 o, f (player (handleObject w0 o)) = f (player w0)) ->
  (forall w0, f (player (die w0)) = f (player w0)) ->
  f (player (land dt modeData w)) = f (landResolved dt w).
Proof.
  intros Hr Ht Hh Hd. rewrite land_views.
  generalize (landBBoxAtX dt w) (landCandidates dt w) (landResolved dt w).
  intros bbox candidates this.
  rewrite (die_all_invariant (fun w0 => f (player w0))) by assumption.
  cbn [player set_player]. unfold trailUpdate. cbv zeta.
  rewrite Ht, rotate_shape, Hr.
  now rewrite (handle_all_invariant (fun w0 => f (player w0))) by assumption.
Qed.

(** The player after the X loop. *)
Lemma landSlid_fields `{Host} (dt : float) (w : World) :
  onGround (landSlid dt w) = false
  /\ vx (landSlid dt w) = vx (player w)
  /\ (x (landSlid dt w) = x (player w) + vx (player w) * dt
      \/ exists o x0,
           In o (landCandidates dt w) /\ Obj.type o = "block"
           /\ collide (Rect.mk (x0 - Rect.w (landBBox dt w) / 2)
                         (Rect.y (landBBox dt w)) (Rect.w (landBBox dt w))
                         (Rect.h (landBBox dt w))) o = true
           /\ x (landSlid dt w)
              = if JS.gt (vx (player w)) 0
                then Obj.x o - Rect.w (landBBox dt w)
                else Obj.x o + Obj.w o).
Proof.
  unfold landSlid.
  generalize (landBBox dt w) (landCandidates dt w). intros bbox candidates.
  assert (vx (set_onGround false (integrate dt (player w))) = vx (player w)
          /\ x (set_onGround false (integrate dt (player w)))
             = x (player w) + vx (player w) * dt) as [Hvx Hx]
    by now destruct (player w).
  split; [|split].
  - rewrite legacy_slideX_all_shape.
    generalize (x (slideX_all bbox candidates
                     (set_onGround false (integrate dt (player w))))).
    now destruct (integrate dt (player w)).
  - rewrite legacy_slideX_all_shape.
    generalize (x (slideX_all bbox candidates
                     (set_onGround false (integrate dt (player w))))).
    intros v. rewrite <- Hvx.
    now destruct (set_onGround false (integrate dt (player w))).
  - destruct (legacy_slideX_all_edge bbox candidates
                (set_onGround false (integrate dt (player w))))
      as [E|(o & x0 & Hin & Hb & Hc & E)].
    + left. now rewrite E.
    + right. exists o, x0. rewrite E, Hvx. now repeat split.
Qed.



(** X16. [update] works [onGround] out anew on every call. The flag is
    cleared before the loops. When [handleObject] and [game.die] leave it
    alone, the flag after the call is the one that the Y loop of this call
    leaves, and it is set only if a block among the candidates of this call
    collided with the box that the Y loop tests while [vy > 0]: the floor
    branch, which puts the player on top of that block with [vy = 0] (and
    that is where the call leaves it, when [handleObject] and [game.die]
    leave [y] and [vy] alone too). A flag that was set before the call
    does not survive a call without such a hit. (In [fixedPhysics] the flag
    is only ever set.) *)
Theorem update_recomputes_onGround `{Host} (dt : float) (w w' : World) :
  (forall w0 o, onGround (player (handleObject w0 o)) = onGround (player w0)) ->
  (forall w0, onGround (player (die w0)) = onGround (player w0)) ->
  update dt w = Done w' ->
  exists modeData,
    MODES_get (mode (player w)) = Some modeData
    /\ let w1 := accelerate dt modeData (pressEdge w) (sampleInput w) in
       let bbox := landBBoxAtX dt w1 in
       let slid := landSlid dt w1 in
       onGround slid = false
       /\ onGround (player w') = onGround (landResolved dt w1)
       /\ (onGround (player w') = true ->
           exists o,
             In o (landCandidates dt w1) /\ Obj.type o = "block"
             /\ collide (Rect.mk (Rect.x bbox) (y slid - Rect.h bbox / 2)
                           (Rect.w bbox) (Rect.h bbox)) o = true
             /\ JS.gt (vy slid) 0 = true
             /\ y (landResolved dt w1) = Obj.y o - Rect.h bbox
             /\ vy (landResolved dt w1) = 0
             /\ ((forall w0 o', y (player (handleObject w0 o'))
                                = y (player w0)) ->
                 (forall w0, y (player (die w0)) = y (player w0)) ->
                 (forall w0 o', vy (player (handleObject w0 o'))
                                = vy (player w0)) ->
                 (forall w0, vy (player (die w0)) = vy (player w0)) ->
                 y (player w') = Obj.y o - Rect.h bbox
                 /\ vy (player w') = 0)).
Proof.
  intros Hh Hd Hupd.
  destruct (update_inv dt w w' Hupd) as (modeData & Hget & ->).
  exists modeData. split; [assumption|]. cbv zeta. clear Hupd.
  generalize (accelerate dt modeData (pressEdge w) (sampleInput w)).
  intros w1.
  destruct (landSlid_fields dt w1) as (Hair & _).
  split; [assumption|].
  assert (onGround (player (land dt modeData w1))
          = onGround (landResolved dt w1)) as Hflag
    by (apply (land_after_loops onGround); try assumption; now intros ? []).
  split; [assumption|].
  rewrite Hflag. unfold landResolved at 1. intros Hg.
  destruct (legacy_resolveY_grounds _ _ _ Hair Hg)
    as (o & Hin & Hb & Hc & Hvy & Hy & Hvy0).
  exists o. fold (landResolved dt w1) in Hy, Hvy0.
  repeat (split; [assumption|]).
  intros Hhy Hdy Hhv Hdv.
  rewrite (land_after_loops y), (land_after_loops vy);
    try assumption; try (now intros ? []).
  now split.
Qed.

Lemma update_recomputes_onGround_witness :
  onGround (player cubeInTheVoid) = true
  /\ exists w',
       update (H := Legacy.Standard.host) FIXED_DT cubeInTheVoid = Done w'
       /\ onGround (player w') = false.
Proof.
  split; [reflexivity|].
  assert (exists w',
            update (H := Legacy.Standard.host) FIXED_DT cubeInTheVoid
            = Done w')
    as [w' Hw'] by (eexists; vm_compute; reflexivity).
  exists w'. split; [exact Hw'|].
  destruct (update_recomputes_onGround (H := Legacy.Standard.host) FIXED_DT
              cubeInTheVoid w') as (modeData & Hget & _ & Hflag & _).
  - reflexivity.
  - reflexivity.
  - exact Hw'.
  - injection Hget as <-. rewrite Hflag. reflexivity.
Defined.

(** The trail after [unshift], [pop] and [forEach]. *)
Lemma fade_cap (s0 : Sample.t) (old : list Sample.t) :
  let t := s0 :: old in
  let new := imap fade (if (20 <? length t)%nat then removelast t else t) in
  length new = (if (length old <? 20)%nat then S (length old) else length old)
  /\ (forall i s, new !! i = Some s ->
       Sample.alpha s = (JS.of_nat i + 1) / 20)
  /\ (forall i s, old !! i = Some s -> (S i < length new)%nat ->
       new !! S i = Some (fade (S i) s))
  /\ new !! 0%nat = Some (fade 0 s0).
Proof.
  cbv zeta.
  assert (length (imap fade
                    (if (20 <? length (s0 :: old))%nat
                     then removelast (s0 :: old) else s0 :: old))
          = if (length old <? 20)%nat then S (length old) else length old)
    as Hlen.
  { rewrite length_imap. cbn [length].
    destruct (Nat.ltb_spec 20 (S (length old))) as [Hl|Hl];
      destruct (Nat.ltb_spec (length old) 20) as [Hr|Hr]; try lia.
    - rewrite removelast_firstn_len, length_take. cbn [length]. lia.
    - reflexivity. }
  split; [exact Hlen|]. split; [|split].
  - intros i s Hs. apply list_lookup_imap_Some in Hs as (p & _ & ->).
    reflexivity.
  - intros i s Hold Hi. rewrite Hlen in Hi. rewrite list_lookup_imap.
    assert ((if (20 <? length (s0 :: old))%nat
             then removelast (s0 :: old) else s0 :: old) !! S i = Some s)
      as ->; [|reflexivity].
    destruct (20 <? length (s0 :: old))%nat eqn:E; [|exact Hold].
    apply Nat.ltb_lt in E. cbn [length] in E.
    destruct (Nat.ltb_spec (length old) 20) as [Hr|Hr]; [lia|].
    rewrite removelast_firstn_len. cbn [length Init.Nat.pred].
    rewrite lookup_take_lt by lia. exact Hold.
  - rewrite list_lookup_imap.
    assert ((if (20 <? length (s0 :: old))%nat
             then removelast (s0 :: old) else s0 :: old) !! 0%nat = Some s0)
      as ->; [|reflexivity].
    destruct (20 <? length (s0 :: old))%nat eqn:E; [|reflexivity].
    apply Nat.ltb_lt in E. cbn [length] in E.
    rewrite removelast_firstn_len. cbn [length Init.Nat.pred].
    rewrite lookup_take_lt by lia. reflexivity.
Qed.

(** X17. The trail of [update]: newest first, never more than twenty
    samples, faded by position. When [handleObject] and [game.die] leave the
    trail alone, a call that completes puts one new sample at index 0 and
    moves every older one to the next index; the new sample holds the
    position of the player (the [x] and [y] that the call leaves, when
    [game.die] leaves them alone); a trail of fewer than 20 samples grows by
    one, a longer one keeps its length (the last sample is dropped), so that
    a trail of at most 20 stays so; and every sample gets
    [alpha = (i + 1) / 20] from its index [i]. *)
Theorem update_trail_is_capped_and_faded `{Host} (dt : float) (w w' : World) :
  (forall w0 o, trail (player (handleObject w0 o)) = trail (player w0)) ->
  (forall w0, trail (player (die w0)) = trail (player w0)) ->
  update dt w = Done w' ->
  length (trail (player w'))
  = (if (length (trail (player w)) <? 20)%nat
     then S (length (trail (player w))) else length (trail (player w)))
  /\ ((length (trail (player w)) <= 20)%nat ->
      (length (trail (player w')) <= 20)%nat)
  /\ (forall i s, trail (player w') !! i = Some s ->
       Sample.alpha s = (JS.of_nat i + 1) / 20)
  /\ (forall i s, trail (player w) !! i = Some s ->
       (S i < length (trail (player w')))%nat ->
       trail (player w') !! S i = Some (fade (S i) s))
  /\ ((forall w0, x (player (die w0)) = x (player w0)) ->
      (forall w0, y (player (die w0)) = y (player w0)) ->
      trail (player w') !! 0%nat
      = Some (Sample.mk (x (player w')) (y (player w'))
                ((JS.of_nat 0 + 1) / 20))).
Proof.
  intros Hh Hd Hupd.
  destruct (update_inv dt w w' Hupd) as (modeData & Hget & ->).
  destruct (accelerate_keeps dt modeData (pressEdge w) w)
    as (_ & _ & _ & Htrail & _).
  clear Hupd.
  generalize dependent (accelerate dt modeData (pressEdge w) (sampleInput w)).
  intros w1 Htrail.
  assert (exists r : Player,
            trail (player (land dt modeData w1))
            = imap fade
                (if (20 <? length (Sample.mk (x r) (y r) 1
                                   :: trail (player w)))%nat
                 then removelast (Sample.mk (x r) (y r) 1 :: trail (player w))
                 else Sample.mk (x r) (y r) 1 :: trail (player w))
            /\ ((forall w0, x (player (die w0)) = x (player w0)) ->
                x (player (land dt modeData w1)) = x r)
            /\ ((forall w0, y (player (die w0)) = y (player w0)) ->
                y (player (land dt modeData w1)) = y r))
    as (r & -> & Hx & Hy).
  { rewrite land_views.
    assert (trail (landResolved dt w1) = trail (player w)) as Hres.
    { unfold landResolved, landSlid. rewrite legacy_resolveY_shape.
      assert (forall a b c p,
                trail (set_onGround a (set_vy b (set_y c p))) = trail p) as ->
        by now intros ? ? ? [].
      rewrite legacy_slideX_all_shape.
      assert (forall a b p, trail (set_x a (set_onGround b p)) = trail p)
        as -> by now intros ? ? [].
      assert (trail (integrate dt (player w1)) = trail (player w1)) as ->
        by now destruct (player w1).
      exact Htrail. }
    generalize dependent (landResolved dt w1).
    generalize (landBBoxAtX dt w1) (landCandidates dt w1).
    intros bbox candidates this Hres.
    assert (trail (player (handle_all bbox candidates (set_player this w1)))
            = trail (player w)) as Hhandled.
    { rewrite (handle_all_invariant (fun w0 => trail (player w0)))
        by assumption.
      exact Hres. }
    generalize dependent (handle_all bbox candidates (set_player this w1)).
    intros w3 Hhandled.
    exists (rotate dt modeData (player w3)).
    assert (trail (rotate dt modeData (player w3)) = trail (player w))
      as Hrot.
    { rewrite rotate_shape.
      generalize (rot (rotate dt modeData (player w3))).
      rewrite <- Hhandled. now destruct (player w3). }
    generalize dependent (rotate dt modeData (player w3)). intros r Hrot.
    split; [|split].
    - rewrite (die_all_invariant (fun w0 => trail (player w0)))
        by assumption.
      cbn [player set_player]. unfold trailUpdate. cbv zeta.
      rewrite Hrot. now destruct r.
    - intros Hdx.
      rewrite (die_all_invariant (fun w0 => x (player w0))) by assumption.
      cbn [player set_player]. unfold trailUpdate. now destruct r.
    - intros Hdy.
      rewrite (die_all_invariant (fun w0 => y (player w0))) by assumption.
      cbn [player set_player]. unfold trailUpdate. now destruct r. }
  destruct (fade_cap (Sample.mk (x r) (y r) 1) (trail (player w)))
    as (Hlen & Halpha & Hshift & Hhead).
  cbv zeta in Hlen, Halpha, Hshift, Hhead.
  split; [exact Hlen|]. split; [|split; [assumption|split; [assumption|]]].
  - intros Hle. rewrite Hlen.
    destruct (Nat.ltb_spec (length (trail (player w))) 20); lia.
  - intros Hdx Hdy. rewrite Hhead, (Hx Hdx), (Hy Hdy). reflexivity.
Qed.

Lemma update_trail_is_capped_and_faded_witness :
  length (trail (player ballWithTrail)) = 20%nat
  /\ exists w',
       update (H := Legacy.Standard.host) FIXED_DT ballWithTrail = Done w'
       /\ length (trail (player w')) = 20%nat
       /\ trail (player w') !! 1%nat = Some (fade 1 (faded 0))
       /\ trail (player w') !! 0%nat
          = Some (Sample.mk (x (player w')) (y (player w'))
                    ((JS.of_nat 0 + 1) / 20)).
Proof.
  split; [reflexivity|].
  assert (exists w',
            update (H := Legacy.Standard.host) FIXED_DT ballWithTrail
            = Done w')
    as [w' Hw'] by (eexists; vm_compute; reflexivity).
  exists w'. split; [exact Hw'|].
  destruct (update_trail_is_capped_and_faded (H := Legacy.Standard.host)
              FIXED_DT ballWithTrail w') as (Hlen & _ & _ & Hshift & Hhead).
  - reflexivity.
  - reflexivity.
  - exact Hw'.
  - split; [exact Hlen|]. split.
    + apply Hshift; [reflexivity|]. rewrite Hlen. vm_compute. lia.
    + apply Hhead; reflexivity.
Defined.

(** The branch of the [switch] of [update] that a mode selects. *)
Ltac legacy_mode_tests :=
  repeat match goal with
         | |- context [String.eqb ?a ?b] =>
             let v := eval vm_compute in (String.eqb a b) in
             change (String.eqb a b) with v
         end;
  cbv iota.

Lemma legacy_modeSwitch_vy `{Host} (dt : float) (modeData : ModeEntry)
    (edge holding : bool) (w : World) :
  (mode (player w) = "ship" ->
   vy (player (modeSwitch dt modeData edge holding w))
   = if holding then vy (player w) - prop modeData "thrust" * dt
     else vy (player w) + prop modeData "fallThrust" * dt)
  /\ (mode (player w) = "ufo" ->
      vy (player (modeSwitch dt modeData edge holding w))
      = JS.Math_max (- prop modeData "vyLimit")
          (JS.Math_min (prop modeData "vyLimit")
             (if edge
              then prop modeData "jump" * flip (player w)
                   * (if mini (player w) then 1.0 else 1.0)
              else vy (player w))))
  /\ (mode (player w) = "wave" ->
      vy (player (modeSwitch dt modeData edge holding w))
      = if holding then prop modeData "thrustUp" * flip (player w) * dt
        else prop modeData "thrustDown" * flip (player w) * dt)
  /\ (mode (player w) = "robot" -> holding = true ->
      onGround (player w) = true ->
      vy (player (modeSwitch dt modeData edge holding w))
      = prop modeData "jump" * flip (player w)
        * JS.Math_min (JS.ToNumber_bool true * 0.1) 1.0
        * (if mini (player w) then 0.8 else 1.0))
  /\ (mode (player w) = "swing" ->
      vy (player (modeSwitch dt modeData edge holding w))
      = if holding then vy (player w) - prop modeData "thrust" * dt
        else vy (player w)
             + JS.logical_or (prop modeData "fallThrust" * dt) (10 * dt)).
Proof.
  repeat split; intros Hmode; unfold modeSwitch; cbv zeta; rewrite Hmode;
    legacy_mode_tests;
    generalize (prop modeData "jump") (prop modeData "thrust")
      (prop modeData "fallThrust") (prop modeData "vyLimit")
      (prop modeData "thrustUp") (prop modeData "thrustDown"); intros;
    destruct w as [[] g]; cbn [player game mode onGround vy flip mini] in *.
  - now destruct holding.
  - now destruct edge.
  - now destruct holding.
  - subst. reflexivity.
  - now destruct holding.
Qed.

Lemma legacy_beforeSwitch_fields `{Host} (dt : float) (modeData : ModeEntry)
    (w : World) :
  mode (player (beforeSwitch dt modeData (sampleInput w))) = mode (player w)
  /\ onGround (player (beforeSwitch dt modeData (sampleInput w)))
     = onGround (player w)
  /\ flip (player (beforeSwitch dt modeData (sampleInput w)))
     = flip (player w)
  /\ mini (player (beforeSwitch dt modeData (sampleInput w)))
     = mini (player w)
  /\ input (game (sampleInput w)) = input (game w)
  /\ vy (player (beforeSwitch dt modeData (sampleInput w)))
     = vy (player w)
       + prop modeData "gravity" * flip (player w) * dt
         * (if mini (player w) then 1.0 else 1.0).
Proof.
  unfold beforeSwitch, sampleInput. cbv zeta.
  generalize (prop modeData "baseSpeed") (prop modeData "gravity").
  destruct w as [[] g]; cbn [player game]. intros. now repeat split.
Qed.

(** A player whose [vy] is NaN goes through the loops with it. *)
Lemma land_vy_nan `{Host} (dt : float) (modeData : ModeEntry) (w : World) :
  (forall b o, is_nan (Rect.y b) = true -> collide b o = false) ->
  (forall w0 o, vy (player (handleObject w0 o)) = vy (player w0)) ->
  (forall w0, vy (player (die w0)) = vy (player w0)) ->
  vy (player w) = nan ->
  vy (player (land dt modeData w)) = nan.
Proof.
  intros Hc Hh Hd Hvy. unfold land. cbv zeta.
  rewrite (die_all_invariant (fun w0 => vy (player w0))) by assumption.
  cbn [player set_player]. unfold trailUpdate. cbv zeta.
  assert (forall v p, vy (set_trail v p) = vy p) as -> by now intros ? [].
  rewrite rotate_shape.
  assert (forall v p, vy (set_rot v p) = vy p) as -> by now intros ? [].
  rewrite (handle_all_invariant (fun w0 => vy (player w0))) by assumption.
  cbn [player set_player].
  rewrite legacy_slideX_all_shape.
  match goal with
  | |- context [set_x ?v (set_onGround false (integrate dt (player w)))] =>
      generalize v
  end.
  intros v.
  match goal with
  | |- context [candidatesOf ?b ?ox ?oy ?g] => generalize (candidatesOf b ox oy g)
  end.
  intros candidates.
  match goal with
  | |- context [resolveY ?b candidates ?p] => generalize b
  end.
  intros bbox.
  assert (vy (set_x v (set_onGround false (integrate dt (player w)))) = nan
          /\ y (set_x v (set_onGround false (integrate dt (player w)))) = nan)
    as [Hvy0 Hy0].
  { unfold integrate. cbv zeta. destruct (player w); cbn in Hvy |- *. subst.
    now rewrite mul_nan_l, add_nan_r. }
  generalize dependent (set_x v (set_onGround false (integrate dt (player w)))).
  intros this Hvy0 Hy0.
  induction candidates as [|o rest IH]; simpl; [assumption|].
  rewrite Hc by (simpl; now rewrite Hy0, sub_nan_l).
  now destruct (negb _).
Qed.

(** X18. [update] loses [vy] in the modes whose properties [MODES] names
    otherwise. [thrust], [fallThrust], [vyLimit], [thrustUp] and
    [thrustDown] are in no entry, and the robot has no [jump]: in ship, ufo
    and wave mode, in swing mode with the key down and for a robot on the
    ground with the key down, [vy] is NaN after the [switch]; and it is NaN
    after the call whenever [collide] rejects a box whose [y] is NaN and
    [handleObject] and [game.die] leave [vy] alone. *)
Theorem update_loses_vy `{Host} (dt : float) (w : World) (modeData : ModeEntry) :
  MODES_get (mode (player w)) = Some modeData ->
  In (mode (player w)) ["ship"; "ufo"; "wave"]
  \/ (mode (player w) = "swing" /\ input (game w) = true)
  \/ (mode (player w) = "robot" /\ input (game w) = true
      /\ onGround (player w) = true) ->
  vy (player (accelerate dt modeData (pressEdge w) (sampleInput w))) = nan
  /\ ((forall b o, is_nan (Rect.y b) = true -> collide b o = false) ->
      (forall w0 o, vy (player (handleObject w0 o)) = vy (player w0)) ->
      (forall w0, vy (player (die w0)) = vy (player w0)) ->
      exists w', update dt w = Done w' /\ vy (player w') = nan).
Proof.
  intros Hget Hcase.
  assert (vy (player (accelerate dt modeData (pressEdge w) (sampleInput w)))
          = nan) as Hvy.
  { unfold accelerate.
    destruct (legacy_beforeSwitch_fields dt modeData w)
      as (Hmode & Hground & Hflip & Hmini & Hinput & Hfall).
    destruct (legacy_modeSwitch_vy dt modeData (pressEdge w)
                (input (game (sampleInput w)))
                (beforeSwitch dt modeData (sampleInput w)))
      as (Hship & Hufo & Hwave & Hrobot & Hswing).
    rewrite Hmode in Hship, Hufo, Hwave, Hrobot, Hswing.
    destruct Hcase as [Hin|[[Hm Hin]|(Hm & Hin & Hg)]].
    - simpl in Hin. destruct Hin as [Hm|[Hm|[Hm|[]]]]; symmetry in Hm;
        rewrite Hm in Hget; injection Hget as <-.
      + rewrite (Hship Hm).
        change (prop ship "thrust") with nan.
        change (prop ship "fallThrust") with nan.
        rewrite mul_nan_l, sub_nan_r, add_nan_r. now destruct (input _).
      + rewrite (Hufo Hm). reflexivity.
      + rewrite (Hwave Hm).
        change (prop wave "thrustUp") with nan.
        change (prop wave "thrustDown") with nan.
        rewrite !mul_nan_l. now destruct (input _).
    - rewrite Hm in Hget. injection Hget as <-.
      rewrite (Hswing Hm), Hinput, Hin.
      change (prop swing "thrust") with nan.
      now rewrite mul_nan_l, sub_nan_r.
    - rewrite Hm in Hget. injection Hget as <-.
      rewrite (Hrobot Hm) by congruence.
      change (prop robot "jump") with nan. now rewrite !mul_nan_l. }
  split; [assumption|].
  intros Hc Hh Hd. rewrite (update_Done dt modeData w Hget).
  eexists. split; [reflexivity|]. now apply land_vy_nan.
Qed.

Lemma legacy_standard_rejects_NaN (b : Rect.t) (o : Obj.t) :
  is_nan (Rect.y b) = true -> collide (Host := Legacy.Standard.host) b o = false.
Proof.
  intros Hb. unfold collide, Legacy.Standard.host, Standard.aabb.
  apply is_nan_true in Hb. rewrite Hb, ltb_nan_l, add_nan_l, ltb_nan_r.
  now rewrite !andb_false_r.
Qed.

Lemma update_loses_vy_witness :
  exists w',
    update (H := Legacy.Standard.host) FIXED_DT shipFree = Done w'
    /\ vy (player w') = nan.
Proof.
  destruct (update_loses_vy (H := Legacy.Standard.host) FIXED_DT shipFree ship)
    as [_ Hend].
  - reflexivity.
  - left. simpl. tauto.
  - apply Hend.
    + exact legacy_standard_rejects_NaN.
    + reflexivity.
    + reflexivity.
Defined.

(** X19. The default of the swing in [update]. With the key up, the swing
    adds [modeData.fallThrust * dt || 10 * dt] to [vy]; the swing entry has
    no [fallThrust], the product is NaN, which is falsy, and the sum takes
    the default: after the [switch], [vy] is the [vy] on entry plus the
    gravity term plus [10 * dt]. *)
Theorem update_swing_falls_by_default `{Host} (dt : float) (w : World) :
  mode (player w) = "swing" ->
  input (game w) = false ->
  JS.logical_or (prop swing "fallThrust" * dt) (10 * dt) = 10 * dt
  /\ vy (player (accelerate dt swing (pressEdge w) (sampleInput w)))
     = vy (player w)
       + prop swing "gravity" * flip (player w) * dt
         * (if mini (player w) then 1.0 else 1.0)
       + 10 * dt.
Proof.
  intros Hmode Hinput.
  assert (JS.logical_or (prop swing "fallThrust" * dt) (10 * dt) = 10 * dt)
    as Hor.
  { change (prop swing "fallThrust") with nan. now rewrite mul_nan_l. }
  split; [assumption|].
  unfold accelerate.
  destruct (legacy_beforeSwitch_fields dt swing w)
    as (Hmode' & _ & _ & _ & Hinput' & Hfall).
  destruct (legacy_modeSwitch_vy dt swing (pressEdge w)
              (input (game (sampleInput w)))
              (beforeSwitch dt swing (sampleInput w)))
    as (_ & _ & _ & _ & Hswing).
  rewrite Hswing by congruence.
  now rewrite Hinput', Hinput, Hor, Hfall.
Qed.

Lemma update_swing_falls_by_default_witness :
  vy (player (accelerate (H := Legacy.Standard.host) FIXED_DT swing
                (pressEdge swingFree) (sampleInput swingFree)))
  = 0 + 0.40 * 1 * FIXED_DT * 1.0 + 10 * FIXED_DT.
Proof.
  apply (update_swing_falls_by_default (H := Legacy.Standard.host) FIXED_DT
           swingFree); reflexivity.
Defined.

(** The player that enters the rotation step, on a field that the loops do
    not write and that [handleObject] keeps. *)
Lemma loops_keep `{Host} {A : Type} (f : Player -> A) (dt : float)
    (bbox0 bbox1 bbox2 : Rect.t) (candidates : list Obj.t) (w : World) :
  (forall v p, f (set_x v p) = f p) ->
  (forall v p, f (set_y v p) = f p) ->
  (forall v p, f (set_vy v p) = f p) ->
  (forall v p, f (set_onGround v p) = f p) ->
  (forall w0 o, f (player (handleObject w0 o)) = f (player w0)) ->
  f (player
       (handle_all bbox2 candidates
          (set_player
             (resolveY bbox1 candidates
                (slideX_all bbox0 candidates
                   (set_onGround false (integrate dt (player w))))) w)))
  = f (player w).
Proof.
  intros Hx Hy Hvy Hg Hh.
  rewrite (handle_all_invariant (fun w0 => f (player w0))) by assumption.
  cbn [player set_player].
  rewrite legacy_resolveY_shape, Hg, Hvy, Hy, legacy_slideX_all_shape, Hx, Hg.
  unfold integrate. cbv zeta. now rewrite Hy, Hx.
Qed.

(** X20. [update] leaves a NaN in the rotation of the cube. The rotation
    step multiplies by [vx], which is NaN (and by [rotSpeedGround] or
    [rotSpeedAir], which the cube entry does not have): when [handleObject]
    leaves [vx] and the mode alone and [game.die] leaves [rot] alone, [rot]
    is NaN after every call in cube mode, and [% 360] keeps it so. *)
Theorem update_cube_rot_is_NaN `{Host} (dt : float) (w w' : World) :
  (forall w0 o, vx (player (handleObject w0 o)) = vx (player w0)) ->
  (forall w0 o, mode (player (handleObject w0 o)) = mode (player w0)) ->
  (forall w0, rot (player (die w0)) = rot (player w0)) ->
  mode (player w) = "cube" ->
  update dt w = Done w' ->
  rot (player w') = nan.
Proof.
  intros Hhv Hhm Hd Hmode Hupd.
  destruct (update_inv dt w w' Hupd) as (modeData & Hget & ->).
  destruct (accelerate_keeps dt modeData (pressEdge w) w) as (Hvx & _).
  rewrite (no_baseSpeed _ _ Hget), !mul_nan_l in Hvx.
  assert (mode (player (accelerate dt modeData (pressEdge w) (sampleInput w)))
          = "cube") as Hmode1.
  { unfold accelerate, modeSwitch. cbv zeta.
    destruct (legacy_beforeSwitch_fields dt modeData w) as (Hm & _).
    rewrite Hm, Hmode. cbn [String.eqb Ascii.eqb Bool.eqb].
    assert (forall v p, mode (set_vy v p) = mode p) as Hset
      by now intros ? [].
    destruct (pressEdge w && _); cbn [player]; rewrite ?Hset, Hm;
      assumption. }
  clear Hupd.
  generalize dependent (accelerate dt modeData (pressEdge w) (sampleInput w)).
  intros w1 Hvx Hmode1.
  unfold land. cbv zeta.
  rewrite (die_all_invariant (fun w0 => rot (player w0))) by assumption.
  cbn [player set_player]. unfold trailUpdate. cbv zeta.
  assert (forall v p, rot (set_trail v p) = rot p) as -> by now intros ? [].
  unfold rotate. cbv zeta. cbn [player set_player game].
  change (set_player ?p (set_player ?q w1)) with (set_player p w1).
  rewrite (loops_keep mode), (loops_keep vx);
    try assumption; try (now intros ? []).
  rewrite Hmode1, Hvx. cbn [String.eqb Ascii.eqb Bool.eqb].
  assert (forall v p, rot (set_rot v p) = v) as Hrot by now intros ? [].
  rewrite !Hrot.
  now rewrite mul_nan_r, !mul_nan_l, add_nan_r.
Qed.

Lemma update_cube_rot_is_NaN_witness :
  exists w',
    update (H := Legacy.Standard.host) FIXED_DT cubeInTheVoid = Done w'
    /\ rot (player w') = nan.
Proof.
  assert (exists w',
            update (H := Legacy.Standard.host) FIXED_DT cubeInTheVoid
            = Done w')
    as [w' Hw'] by (eexists; vm_compute; reflexivity).
  exists w'. split; [exact Hw'|].
  apply (update_cube_rot_is_NaN (H := Legacy.Standard.host) FIXED_DT
           cubeInTheVoid w'); try reflexivity. exact Hw'.
Defined.

(** Without a spike among the candidates the last loop does nothing. *)
Lemma die_all_no_spike `{Host} (bbox : Rect.t) (candidates : list Obj.t)
    (w : World) :
  (forall o, In o candidates -> Obj.type o <> "spike") ->
  die_all bbox candidates w = w.
Proof.
  unfold die_all. revert w.
  induction candidates as [|o rest IH]; intros w Hno; simpl; [reflexivity|].
  assert (dieOne bbox w o = w) as ->.
  { unfold dieOne.
    destruct (String.eqb_spec (Obj.type o) "spike") as [E|E]; [|reflexivity].
    exfalso. apply (Hno o); [now left|assumption]. }
  apply IH. intros o' Ho'. apply Hno. now right.
Qed.

(** X21. Only a spike kills. When no object that the index or the level
    can give as a candidate is of type [spike], [update] never calls
    [game.die]: its outcome is the same whatever [game.die] does. *)
Theorem update_without_spikes_never_dies (H : Host) (d : World -> World)
    (dt : float) (w : World) :
  (forall bbox oldX oldY o,
     In o (candidatesOf bbox oldX oldY (game w)) -> Obj.type o <> "spike") ->
  update (H := with_die d H) dt w = update (H := H) dt w.
Proof.
  intros Hno. unfold update. cbv zeta.
  destruct (MODES_get (mode (player w))) as [modeData|]; [|reflexivity].
  apply (f_equal Done).
  change (accelerate (H := with_die d H) dt modeData (pressEdge w)
            (sampleInput w))
    with (accelerate (H := H) dt modeData (pressEdge w) (sampleInput w)).
  destruct (accelerate_keeps (H := H) dt modeData (pressEdge w) w)
    as (_ & _ & _ & _ & Hq & Hl).
  assert (forall b ox oy o,
            In o (candidatesOf b ox oy
                    (game (accelerate (H := H) dt modeData (pressEdge w)
                             (sampleInput w)))) ->
            Obj.type o <> "spike") as Hno'.
  { intros b ox oy o. unfold candidatesOf. rewrite Hq, Hl. apply Hno. }
  clear Hq Hl.
  generalize dependent (accelerate (H := H) dt modeData (pressEdge w)
                          (sampleInput w)).
  intros w1 Hno1. unfold land. cbv zeta.
  rewrite (die_all_no_spike (H := with_die d H)),
    (die_all_no_spike (H := H)); [reflexivity| |].
  - intros o. cbn [game set_player]. apply Hno1.
  - intros o. cbn [game set_player]. apply Hno1.
Qed.

Lemma update_without_spikes_never_dies_witness :
  update (H := with_die (fun w => set_player (set_vy 0 (player w)) w)
                 Legacy.Standard.host) FIXED_DT cubeLanding
  = update (H := Legacy.Standard.host) FIXED_DT cubeLanding.
Proof.
  apply update_without_spikes_never_dies.
  intros bbox oldX oldY o [<-|[]]. discriminate.
Defined.

End UpdateProperties.
